(** * BusTub storage core: LRU-K replacer, buffer pool manager, persistent trie

    A shallow embedding of [src/buffer/lru_k_replacer.cpp],
    [src/buffer/buffer_pool_manager.cpp] and [src/primer/trie.cpp], and the
    properties of these three components.

    Conventions.
    - [frame_id_t] and [page_id_t] are 32-bit signed integers, embedded in [Z].
    - [size_t] is embedded in [Z] with the wrap-around modulo [2^64] written
      out where the code does arithmetic on it.
    - [int] arithmetic past [INT_MAX] is undefined; the atomic page
      identifier counter wraps.
    - A C++ call either returns, throws [std::exception], or has undefined
      behaviour (null dereference, out-of-range subscript, use of a dead list
      iterator, signed overflow); the three cases are the constructors of
      [outcome]. *)

From Stdlib Require Import ZArith String Ascii List Lia Bool.
From stdpp Require Import gmap strings list fin_maps.

Local Open Scope Z_scope.

(** ** Outcomes of a call *)

Inductive reason : Type :=
| NullDereference   (* [p->f] with [p == nullptr] *)
| OutOfRange        (* subscript outside a vector or array *)
| DanglingPointer   (* a pointer to a node that was never allocated *)
| InvalidIterator   (* [list::erase] or [*it] on a singular or dead iterator *)
| LatchWait         (* acquiring a latch that is held in a conflicting mode *)
| SignedOverflow.   (* [int] arithmetic past [INT_MAX] *)

Inductive outcome (A : Type) : Type :=
| Ok (a : A)
| Throw
| Stuck (why : reason).

Arguments Ok {A} a.
Arguments Throw {A}.
Arguments Stuck {A} why.

#[global] Instance outcome_ret : MRet outcome := fun _ a => Ok a.
#[global] Instance outcome_bind : MBind outcome := fun _ _ f m =>
  match m with
  | Ok a => f a
  | Throw => Throw
  | Stuck w => Stuck w
  end.

Definition throws {A} (o : outcome A) : Prop :=
  match o with Throw => True | _ => False end.

(** ** Machine integers *)

(** [static_cast<int>] of a [size_t]: reduction modulo [2^32] into the signed
    range. *)
Definition to_int (z : Z) : Z := (z + 2 ^ 31) `mod` 2 ^ 32 - 2 ^ 31.

(** [size_t] arithmetic wraps modulo [2^64]. *)
Definition wrap64 (z : Z) : Z := z `mod` 2 ^ 64.

Definition INT_MAX : Z := 2 ^ 31 - 1.

(** [i++] on an [int]. *)
Definition incr_int (i : Z) : outcome Z :=
  if decide (i < INT_MAX) then Ok (i + 1) else Stuck SignedOverflow.

(** ** [std::vector<bool>] subscripts

    The subscript is converted to [size_t], so a negative index lands far
    outside the vector. *)

Definition vec_at (v : list bool) (i : Z) : outcome bool :=
  if decide (0 <= i) then
    match v !! Z.to_nat i with
    | Some b => Ok b
    | None => Stuck OutOfRange
    end
  else Stuck OutOfRange.

Definition vec_set (v : list bool) (i : Z) (b : bool) : outcome (list bool) :=
  if decide (0 <= i) then
    match v !! Z.to_nat i with
    | Some _ => Ok (<[Z.to_nat i := b]> v)
    | None => Stuck OutOfRange
    end
  else Stuck OutOfRange.

(** ** [std::list<frame_id_t>] with iterators

    A list node has an identity, which is what an iterator denotes; the
    payload is the frame identifier.  [erase] and [*it] of an iterator that
    denotes no node of the list are undefined. *)

Definition lnode : Type := nat * Z.

Definition node_ids (l : list lnode) : list nat := fst <$> l.
Definition frames_of (l : list lnode) : list Z := snd <$> l.

Definition drop_node (it : nat) (l : list lnode) : list lnode :=
  filter (fun n => n.1 ≠ it) l.

Definition list_erase (l : list lnode) (it : nat) : outcome (list lnode) :=
  if decide (it ∈ node_ids l) then Ok (drop_node it l)
  else Stuck InvalidIterator.

(** [*it]: the payload of the node the iterator denotes. *)
Definition list_deref (l : list lnode) (it : nat) : outcome Z :=
  match filter (fun n => n.1 = it) l with
  | n :: _ => Ok n.2
  | [] => Stuck InvalidIterator
  end.

(** * The LRU-K replacer *)

Module Replacer.

(** Modelled from the spec: the data members, which [buffer/lru_k_replacer.h]
    declares and the sources at hand do not include.  Their types are read off
    their uses in [lru_k_replacer.cpp] and the replacer state of section 3 of
    the specification: two counters, a map of use counts, a vector of
    evictable flags sized by the constructor, and for each ring a list with a
    map from frame to list iterator. *)
Record LRUKReplacer : Type := mkReplacer {
  replacer_size_ : Z;
  k_ : Z;
  curr_size_ : Z;
  use_count_ : gmap Z Z;
  is_accessible_ : list bool;
  history_list_ : list lnode;
  history_map_ : gmap Z nat;
  cache_list_ : list lnode;
  cache_map_ : gmap Z nat;
  next_node_ : nat   (* identity of the next list node to be allocated *)
}.

Definition set_curr_size (s : LRUKReplacer) (v : Z) : LRUKReplacer :=
  mkReplacer (replacer_size_ s) (k_ s) v (use_count_ s) (is_accessible_ s)
    (history_list_ s) (history_map_ s) (cache_list_ s) (cache_map_ s) (next_node_ s).

Definition set_use_count (s : LRUKReplacer) (v : gmap Z Z) : LRUKReplacer :=
  mkReplacer (replacer_size_ s) (k_ s) (curr_size_ s) v (is_accessible_ s)
    (history_list_ s) (history_map_ s) (cache_list_ s) (cache_map_ s) (next_node_ s).

Definition set_is_accessible (s : LRUKReplacer) (v : list bool) : LRUKReplacer :=
  mkReplacer (replacer_size_ s) (k_ s) (curr_size_ s) (use_count_ s) v
    (history_list_ s) (history_map_ s) (cache_list_ s) (cache_map_ s) (next_node_ s).

Definition set_history (s : LRUKReplacer) (l : list lnode) (m : gmap Z nat) : LRUKReplacer :=
  mkReplacer (replacer_size_ s) (k_ s) (curr_size_ s) (use_count_ s) (is_accessible_ s)
    l m (cache_list_ s) (cache_map_ s) (next_node_ s).

Definition set_cache (s : LRUKReplacer) (l : list lnode) (m : gmap Z nat) : LRUKReplacer :=
  mkReplacer (replacer_size_ s) (k_ s) (curr_size_ s) (use_count_ s) (is_accessible_ s)
    (history_list_ s) (history_map_ s) l m (next_node_ s).

Definition set_next_node (s : LRUKReplacer) (n : nat) : LRUKReplacer :=
  mkReplacer (replacer_size_ s) (k_ s) (curr_size_ s) (use_count_ s) (is_accessible_ s)
    (history_list_ s) (history_map_ s) (cache_list_ s) (cache_map_ s) n.

(** [LRUKReplacer::LRUKReplacer(num_frames, k)].  The flag vector has
    [num_frames + 1] entries: frame identifiers run up to [num_frames]
    inclusive. *)
Definition new (num_frames k : Z) : LRUKReplacer :=
  mkReplacer num_frames k 0 ∅
    (replicate (Z.to_nat (wrap64 (num_frames + 1))) false)
    [] ∅ [] ∅ 0%nat.

(** [use_count_[f]] on a [std::unordered_map]: reading an absent key inserts
    a zero. *)
Definition touch (m : gmap Z Z) (f : Z) : gmap Z Z :=
  match m !! f with
  | Some _ => m
  | None => <[f := 0]> m
  end.

Definition count_of (m : gmap Z Z) (f : Z) : Z := default 0 (m !! f).

(** The scan of [Evict]: the iterator walks from [end()] towards [begin()],
    so the nodes are visited in the order of the reversed list; the first
    one whose flag is set is the victim. *)
Fixpoint scan (flags : list bool) (visit : list lnode) : outcome (option lnode) :=
  match visit with
  | [] => Ok None
  | n :: rest =>
      b ← vec_at flags n.2;
      if b : bool then Ok (Some n) else scan flags rest
  end.

(** [Evict] returns its [bool] and the value left in [*frame_id].  On the
    history ring the map entry is erased through [*it] before
    [history_list_.erase(it)]; on the cache ring the source runs
    [cache_list_.erase(it)] first and [cache_map_.erase( *it)] after it, so
    the iterator is dereferenced once more when its node is gone. *)
Definition Evict (s : LRUKReplacer) : outcome (LRUKReplacer * (bool * Z)) :=
  if decide (history_map_ s = ∅ ∧ cache_map_ s = ∅) then Ok (s, (false, 0))
  else
    h ← scan (is_accessible_ s) (reverse (history_list_ s));
    match h with
    | Some (it, f) =>
        let hm := delete f (history_map_ s) in
        let uc := <[f := 0]> (use_count_ s) in
        flags ← vec_set (is_accessible_ s) f false;
        let cs := wrap64 (curr_size_ s - 1) in
        hl ← list_erase (history_list_ s) it;
        Ok (set_history
              (set_curr_size (set_is_accessible (set_use_count s uc) flags) cs)
              hl hm,
            (true, f))
    | None =>
        c ← scan (is_accessible_ s) (reverse (cache_list_ s));
        match c with
        | Some (it, f) =>
            let uc := <[f := 0]> (use_count_ s) in
            let cs := wrap64 (curr_size_ s - 1) in
            flags ← vec_set (is_accessible_ s) f false;
            cl ← list_erase (cache_list_ s) it;
            erased ← list_deref cl it;
            let cm := delete erased (cache_map_ s) in
            Ok (set_cache
                  (set_is_accessible (set_curr_size (set_use_count s uc) cs) flags)
                  cl cm,
                (true, f))
        | None => Ok (s, (false, 0))
        end
    end.

Definition RecordAccess (s : LRUKReplacer) (frame_id : Z) : outcome LRUKReplacer :=
  if decide (frame_id > to_int (replacer_size_ s)) then Throw
  else
    let c := wrap64 (count_of (use_count_ s) frame_id + 1) in
    let s := set_use_count s (<[frame_id := c]> (use_count_ s)) in
    if decide (c = k_ s) then
      hl ← match history_map_ s !! frame_id with
           | Some it => list_erase (history_list_ s) it
           | None => Ok (history_list_ s)
           end;
      let s := set_history s hl (delete frame_id (history_map_ s)) in
      let it := next_node_ s in
      Ok (set_next_node
            (set_cache s ((it, frame_id) :: cache_list_ s)
                         (<[frame_id := it]> (cache_map_ s)))
            (S it))
    else if decide (c > k_ s) then
      match cache_map_ s !! frame_id with
      | Some it =>
          cl ← list_erase (cache_list_ s) it;
          Ok (set_cache s cl (cache_map_ s))
      | None => Ok s
      end
    else
      match history_map_ s !! frame_id with
      | None =>
          let it := next_node_ s in
          Ok (set_next_node
                (set_history s ((it, frame_id) :: history_list_ s)
                               (<[frame_id := it]> (history_map_ s)))
                (S it))
      | Some _ => Ok s
      end.

Definition SetEvictable (s : LRUKReplacer) (frame_id : Z) (set_evictable : bool)
  : outcome LRUKReplacer :=
  if decide (frame_id > to_int (replacer_size_ s)) then Throw
  else
    let s := set_use_count s (touch (use_count_ s) frame_id) in
    if decide (count_of (use_count_ s) frame_id = 0) then Ok s
    else
      b ← vec_at (is_accessible_ s) frame_id;
      let s := if negb b && set_evictable
               then set_curr_size s (wrap64 (curr_size_ s + 1)) else s in
      let s := if b && negb set_evictable
               then set_curr_size s (wrap64 (curr_size_ s - 1)) else s in
      flags ← vec_set (is_accessible_ s) frame_id set_evictable;
      Ok (set_is_accessible s flags).

(** [m[f]] on an iterator map followed by [erase] of the result: an absent
    key yields a value-initialised (singular) iterator. *)
Definition erase_via (l : list lnode) (m : gmap Z nat) (f : Z) : outcome (list lnode) :=
  match m !! f with
  | Some it => list_erase l it
  | None => Stuck InvalidIterator
  end.

Definition Remove (s : LRUKReplacer) (frame_id : Z) : outcome LRUKReplacer :=
  if decide (frame_id > to_int (replacer_size_ s)) then Throw
  else
    b ← vec_at (is_accessible_ s) frame_id;
    if negb b then Ok s
    else
      let s := set_use_count s (touch (use_count_ s) frame_id) in
      s ← (if decide (count_of (use_count_ s) frame_id < k_ s) then
              hl ← erase_via (history_list_ s) (history_map_ s) frame_id;
              Ok (set_history s hl (delete frame_id (history_map_ s)))
            else
              cl ← erase_via (cache_list_ s) (cache_map_ s) frame_id;
              Ok (set_cache s cl (delete frame_id (cache_map_ s))));
      let s := set_use_count s (<[frame_id := 0]> (use_count_ s)) in
      flags ← vec_set (is_accessible_ s) frame_id false;
      let s := set_is_accessible s flags in
      Ok (set_curr_size s (wrap64 (curr_size_ s - 1))).

Definition Size (s : LRUKReplacer) : Z := curr_size_ s.

(** *** Vocabulary for the properties of the replacer *)

(** The flag of a frame, as [Evict] reads it. *)
Definition evictable (s : LRUKReplacer) (f : Z) : Prop :=
  vec_at (is_accessible_ s) f = Ok true.

Definition pinned (s : LRUKReplacer) (f : Z) : Prop :=
  vec_at (is_accessible_ s) f = Ok false.

(** [n] is the evictable node of [ring] closest to the tail: every node
    behind it is not evictable. *)
Definition tail_victim (s : LRUKReplacer) (ring : list lnode) (n : lnode) : Prop :=
  ∃ front back,
    ring = front ++ n :: back ∧ evictable s n.2 ∧ Forall (fun m => pinned s m.2) back.

Definition no_victim (s : LRUKReplacer) (ring : list lnode) : Prop :=
  Forall (fun m => pinned s m.2) ring.

(** The part of the representation invariant that [Evict] relies on: every
    frame on a ring is a key of the ring's iterator map, and the frames on the
    rings are subscripts of the flag vector. *)
Record rings_ok (s : LRUKReplacer) : Prop := mk_rings_ok {
  history_keys : ∀ n, n ∈ history_list_ s → is_Some (history_map_ s !! n.2);
  cache_keys : ∀ n, n ∈ cache_list_ s → is_Some (cache_map_ s !! n.2);
  ring_frames : ∀ n, n ∈ history_list_ s ++ cache_list_ s →
                     0 <= n.2 < Z.of_nat (length (is_accessible_ s));
  flags_size : Z.of_nat (length (is_accessible_ s)) = to_int (replacer_size_ s) + 1
}.

(** The representation invariant of the replacer, as far as the rings are
    concerned: the iterator maps point at the nodes of their rings, a frame
    on the history ring has fewer than [k_] recorded accesses, a frame on the
    cache ring has exactly [k_]. *)
Record consistent (s : LRUKReplacer) : Prop := mk_consistent {
  hist_iter : ∀ n, n ∈ history_list_ s → history_map_ s !! n.2 = Some n.1;
  cache_iter : ∀ n, n ∈ cache_list_ s → cache_map_ s !! n.2 = Some n.1;
  hist_count : ∀ n, n ∈ history_list_ s → count_of (use_count_ s) n.2 < k_ s;
  cache_count : ∀ n, n ∈ cache_list_ s → count_of (use_count_ s) n.2 = k_ s;
  in_range : ∀ n, n ∈ history_list_ s ++ cache_list_ s →
                  0 <= n.2 < Z.of_nat (length (is_accessible_ s));
  counts_nonneg : ∀ f, 0 <= count_of (use_count_ s) f;
  flags_len : Z.of_nat (length (is_accessible_ s)) = to_int (replacer_size_ s) + 1;
  k_small : k_ s < 2 ^ 64 - 1
}.

(** The states the public operations lead to from a fresh replacer, with
    frame identifiers that are not negative. *)
Inductive reachable (num_frames k : Z) : LRUKReplacer → Prop :=
| reach_new : reachable num_frames k (new num_frames k)
| reach_access s f s' :
    reachable num_frames k s → 0 <= f → RecordAccess s f = Ok s' →
    reachable num_frames k s'
| reach_set s f b s' :
    reachable num_frames k s → SetEvictable s f b = Ok s' →
    reachable num_frames k s'
| reach_remove s f s' :
    reachable num_frames k s → Remove s f = Ok s' →
    reachable num_frames k s'
| reach_evict s s' r :
    reachable num_frames k s → Evict s = Ok (s', r) →
    reachable num_frames k s'.

(** *** Further vocabulary: node identities and the size counter *)

(** The number of frames whose flag is set. *)
Definition flagged (flags : list bool) : Z :=
  Z.of_nat (length (filter (fun b : bool => b = true) flags)).

(** List nodes are allocated once each: a ring holds no node twice, two
    nodes on the rings with the same identity are the same node, every
    entry of the history map denotes a node of the history ring, and the
    size counter is the number of set flags. *)
Record tidy (s : LRUKReplacer) : Prop := mk_tidy {
  ids_below : ∀ n, n ∈ history_list_ s ++ cache_list_ s → (n.1 < next_node_ s)%nat;
  ids_inj : ∀ n m, n ∈ history_list_ s ++ cache_list_ s →
                   m ∈ history_list_ s ++ cache_list_ s → n.1 = m.1 → n = m;
  hist_nodup : NoDup (history_list_ s);
  cache_nodup : NoDup (cache_list_ s);
  hist_live : ∀ f it, history_map_ s !! f = Some it → (it, f) ∈ history_list_ s;
  size_flagged : curr_size_ s = flagged (is_accessible_ s)
}.

(** Two nodes of [l] with the same identity are the same node. *)
Definition ids_injective (l : list lnode) : Prop :=
  ∀ n m, n ∈ l → m ∈ l → n.1 = m.1 → n = m.

(** [l] without the frame [f], in the order of [l]. *)
Definition without (f : Z) (l : list Z) : list Z := filter (fun g => g ≠ f) l.

(** A call of one of the four operations, and a sequence of calls run from
    a state. *)
Inductive call : Type :=
| CallRecordAccess (frame_id : Z)
| CallSetEvictable (frame_id : Z) (set_evictable : bool)
| CallRemove (frame_id : Z)
| CallEvict.

Definition step (s : LRUKReplacer) (c : call) : outcome LRUKReplacer :=
  match c with
  | CallRecordAccess f => RecordAccess s f
  | CallSetEvictable f b => SetEvictable s f b
  | CallRemove f => Remove s f
  | CallEvict => '(s', _) ← Evict s; Ok s'
  end.

Fixpoint run (s : LRUKReplacer) (cs : list call) : outcome LRUKReplacer :=
  match cs with
  | [] => Ok s
  | c :: rest => s' ← step s c; run s' rest
  end.

(** The frame a [RecordAccess] is applied to is not negative. *)
Definition sane (c : call) : bool :=
  match c with
  | CallRecordAccess f => bool_decide (0 <= f)
  | _ => true
  end.

(** The frames on the two rings. *)
Definition tracked (s : LRUKReplacer) : list Z :=
  frames_of (history_list_ s ++ cache_list_ s).

End Replacer.

(** * The buffer pool manager *)

Module BufferPool.

Import Replacer.

(** Modelled from the spec: the constants of [common/config.h], which is not
    part of the sources at hand.  Pages are 4096 bytes and the reserved
    sentinel identifier is [-1]. *)
Definition BUSTUB_PAGE_SIZE : nat := 4096.
Definition INVALID_PAGE_ID : Z := -1.

Definition Data : Type := list Byte.byte.
Definition zero_data : Data := replicate BUSTUB_PAGE_SIZE Byte.x00.

(** Modelled from the spec: the [Page] class of [storage/page/page.h] (frame
    metadata of section 3 of the specification: identifier, pin count, dirty
    flag, bytes, and a reader/writer latch). *)
Record Page : Type := mkPage {
  data_ : Data;
  page_id_ : Z;
  pin_count_ : Z;
  is_dirty_ : bool;
  readers_ : nat;
  writer_ : bool
}.

Definition fresh_page : Page := mkPage zero_data INVALID_PAGE_ID 0 false 0 false.

Definition with_data (p : Page) (d : Data) : Page :=
  mkPage d (page_id_ p) (pin_count_ p) (is_dirty_ p) (readers_ p) (writer_ p).
Definition with_page_id (p : Page) (i : Z) : Page :=
  mkPage (data_ p) i (pin_count_ p) (is_dirty_ p) (readers_ p) (writer_ p).
Definition with_pin_count (p : Page) (c : Z) : Page :=
  mkPage (data_ p) (page_id_ p) c (is_dirty_ p) (readers_ p) (writer_ p).
Definition with_dirty (p : Page) (b : bool) : Page :=
  mkPage (data_ p) (page_id_ p) (pin_count_ p) b (readers_ p) (writer_ p).

Definition ResetMemory (p : Page) : Page := with_data p zero_data.

Definition RLatch (p : Page) : outcome Page :=
  if writer_ p then Stuck LatchWait
  else Ok (mkPage (data_ p) (page_id_ p) (pin_count_ p) (is_dirty_ p)
             (S (readers_ p)) (writer_ p)).

Definition WLatch (p : Page) : outcome Page :=
  if writer_ p || negb (Nat.eqb (readers_ p) 0) then Stuck LatchWait
  else Ok (mkPage (data_ p) (page_id_ p) (pin_count_ p) (is_dirty_ p)
             (readers_ p) true).

(** Modelled from the spec: the disk manager of section 6 (an external
    collaborator): [write_page] persists a buffer, [read_page] fills one,
    deallocation is only recorded.  The log keeps the calls in order, newest
    first. *)
Inductive disk_call : Type :=
| WritePageCall (page_id : Z) (d : Data)
| ReadPageCall (page_id : Z)
| DeallocateCall (page_id : Z).

Record DiskManager : Type := mkDisk {
  stored : gmap Z Data;
  calls : list disk_call
}.

Definition WritePage (d : DiskManager) (page_id : Z) (bytes : Data) : DiskManager :=
  mkDisk (<[page_id := bytes]> (stored d)) (WritePageCall page_id bytes :: calls d).

Definition ReadPage (d : DiskManager) (page_id : Z) : DiskManager * Data :=
  (mkDisk (stored d) (ReadPageCall page_id :: calls d),
   default zero_data (stored d !! page_id)).

(** Modelled from the spec: the data members, which
    [buffer/buffer_pool_manager.h] declares: the frame array, the page table,
    the free list, the replacer, the page identifier counter and the disk
    manager (sections 3 and 4.D of the specification). *)
Record BufferPoolManager : Type := mkBPM {
  pool_size_ : Z;
  pages_ : list Page;
  page_table_ : gmap Z Z;
  free_list_ : list Z;
  replacer_ : LRUKReplacer;
  next_page_id_ : Z;
  disk_manager_ : DiskManager
}.

Definition with_pages (b : BufferPoolManager) (v : list Page) :=
  mkBPM (pool_size_ b) v (page_table_ b) (free_list_ b) (replacer_ b)
    (next_page_id_ b) (disk_manager_ b).
Definition with_page_table (b : BufferPoolManager) (v : gmap Z Z) :=
  mkBPM (pool_size_ b) (pages_ b) v (free_list_ b) (replacer_ b)
    (next_page_id_ b) (disk_manager_ b).
Definition with_free_list (b : BufferPoolManager) (v : list Z) :=
  mkBPM (pool_size_ b) (pages_ b) (page_table_ b) v (replacer_ b)
    (next_page_id_ b) (disk_manager_ b).
Definition with_replacer (b : BufferPoolManager) (v : LRUKReplacer) :=
  mkBPM (pool_size_ b) (pages_ b) (page_table_ b) (free_list_ b) v
    (next_page_id_ b) (disk_manager_ b).
Definition with_next_page_id (b : BufferPoolManager) (v : Z) :=
  mkBPM (pool_size_ b) (pages_ b) (page_table_ b) (free_list_ b) (replacer_ b)
    v (disk_manager_ b).
Definition with_disk (b : BufferPoolManager) (v : DiskManager) :=
  mkBPM (pool_size_ b) (pages_ b) (page_table_ b) (free_list_ b) (replacer_ b)
    (next_page_id_ b) v.

(** [pages_[frame_id]] on the frame array. *)
Definition page_at (b : BufferPoolManager) (frame_id : Z) : outcome Page :=
  if decide (0 <= frame_id) then
    match pages_ b !! Z.to_nat frame_id with
    | Some p => Ok p
    | None => Stuck OutOfRange
    end
  else Stuck OutOfRange.

(** In-place update of one frame; only used after [page_at] succeeded. *)
Definition put_page (b : BufferPoolManager) (frame_id : Z) (p : Page) : BufferPoolManager :=
  with_pages b (<[Z.to_nat frame_id := p]> (pages_ b)).

(** [BufferPoolManager::BufferPoolManager]: all frames start on the free
    list, in increasing order. *)
Definition new (pool_size replacer_k : Z) : BufferPoolManager :=
  mkBPM pool_size
    (replicate (Z.to_nat pool_size) fresh_page)
    ∅
    (Z.of_nat <$> seq 0 (Z.to_nat pool_size))
    (Replacer.new pool_size replacer_k)
    0
    (mkDisk ∅ []).

(** [next_page_id_++] on the atomic 32-bit counter, which wraps. *)
Definition AllocatePage (b : BufferPoolManager) : BufferPoolManager * Z :=
  (with_next_page_id b (to_int (next_page_id_ b + 1)), next_page_id_ b).

(** Modelled from the spec: [DeallocatePage], defined in the header; the
    identifier is handed back through the disk manager. *)
Definition DeallocatePage (b : BufferPoolManager) (page_id : Z) : BufferPoolManager :=
  with_disk b (mkDisk (stored (disk_manager_ b))
                      (DeallocateCall page_id :: calls (disk_manager_ b))).

(** The frame acquisition shared by [NewPage] and [FetchPage]: the back of
    the free list, else a victim of the replacer, written back when dirty and
    dropped from the page table.  [None] is the [nullptr] return. *)
Definition acquire_frame (b : BufferPoolManager) : outcome (BufferPoolManager * option Z) :=
  match reverse (free_list_ b) with
  | frame_id :: rest_rev =>
      Ok (with_free_list b (reverse rest_rev), Some frame_id)
  | [] =>
      '(r, (found, frame_id)) ← Evict (replacer_ b);
      let b := with_replacer b r in
      if negb found then Ok (b, None)
      else
        p ← page_at b frame_id;
        let b :=
          if is_dirty_ p then
            put_page (with_disk b (WritePage (disk_manager_ b) (page_id_ p) (data_ p)))
                     frame_id (with_dirty p false)
          else b in
        Ok (with_page_table b (delete (page_id_ p) (page_table_ b)), Some frame_id)
  end.

(** The two replacer calls that close every successful pin. *)
Definition touch_and_pin (b : BufferPoolManager) (frame_id : Z) : outcome BufferPoolManager :=
  r ← RecordAccess (replacer_ b) frame_id;
  r ← SetEvictable r frame_id false;
  Ok (with_replacer b r).

(** Returns the new page identifier and the frame holding it. *)
Definition NewPage (b : BufferPoolManager) : outcome (BufferPoolManager * option (Z * Z)) :=
  let '(b, new_page_id) := AllocatePage b in
  '(b, got) ← acquire_frame b;
  match got with
  | None => Ok (b, None)
  | Some frame_id =>
      let b := with_page_table b (<[new_page_id := frame_id]> (page_table_ b)) in
      curr_page ← page_at b frame_id;
      let curr_page := with_page_id curr_page new_page_id in
      let curr_page := ResetMemory curr_page in
      let curr_page := with_dirty curr_page false in
      let curr_page := with_pin_count curr_page 1 in
      let b := put_page b frame_id curr_page in
      b ← touch_and_pin b frame_id;
      Ok (b, Some (new_page_id, frame_id))
  end.

(** Returns the frame holding the page, [None] for [nullptr]. *)
Definition FetchPage (b : BufferPoolManager) (page_id : Z) : outcome (BufferPoolManager * option Z) :=
  match page_table_ b !! page_id with
  | Some frame_id =>
      p ← page_at b frame_id;
      pins ← incr_int (pin_count_ p);
      let b := put_page b frame_id (with_pin_count p pins) in
      b ← touch_and_pin b frame_id;
      Ok (b, Some frame_id)
  | None =>
      '(b, got) ← acquire_frame b;
      match got with
      | None => Ok (b, None)
      | Some frame_id =>
          let b := with_page_table b (<[page_id := frame_id]> (page_table_ b)) in
          p ← page_at b frame_id;
          let p := with_page_id p page_id in
          let p := with_dirty p false in
          let p := with_pin_count p 1 in
          let '(d, bytes) := ReadPage (disk_manager_ b) page_id in
          let b := put_page (with_disk b d) frame_id (with_data p bytes) in
          b ← touch_and_pin b frame_id;
          Ok (b, Some frame_id)
      end
  end.

Definition UnpinPage (b : BufferPoolManager) (page_id : Z) (is_dirty : bool)
  : outcome (BufferPoolManager * bool) :=
  if decide (page_id = INVALID_PAGE_ID) then Ok (b, false)
  else
    match page_table_ b !! page_id with
    | None => Ok (b, false)
    | Some frame_id =>
        p ← page_at b frame_id;
        let p := with_dirty p is_dirty in
        let b := put_page b frame_id p in
        if decide (pin_count_ p > 0) then
          let p := with_pin_count p (pin_count_ p - 1) in
          let b := put_page b frame_id p in
          if decide (pin_count_ p = 0) then
            r ← SetEvictable (replacer_ b) frame_id true;
            Ok (with_replacer b r, true)
          else Ok (b, true)
        else Ok (b, false)
    end.

Definition FlushPage (b : BufferPoolManager) (page_id : Z)
  : outcome (BufferPoolManager * bool) :=
  if decide (page_id = INVALID_PAGE_ID ∨ page_table_ b !! page_id = None)
  then Ok (b, false)
  else
    match page_table_ b !! page_id with
    | None => Ok (b, false)
    | Some frame_id =>
        p ← page_at b frame_id;
        let b := with_disk b (WritePage (disk_manager_ b) (page_id_ p) (data_ p)) in
        Ok (put_page b frame_id (with_dirty p false), true)
    end.

Definition DeletePage (b : BufferPoolManager) (page_id : Z)
  : outcome (BufferPoolManager * bool) :=
  match page_table_ b !! page_id with
  | None => Ok (b, true)
  | Some frame_id =>
      p ← page_at b frame_id;
      if decide (pin_count_ p ≠ 0) then Ok (b, false)
      else
        let '(b, p) :=
          if is_dirty_ p then
            (with_disk b (WritePage (disk_manager_ b) (page_id_ p) (data_ p)),
             with_dirty p false)
          else (b, p) in
        let p := ResetMemory p in
        let p := with_dirty p false in
        let p := with_pin_count p 0 in
        let p := with_page_id p INVALID_PAGE_ID in
        let b := put_page b frame_id p in
        let b := with_page_table b (delete page_id (page_table_ b)) in
        r ← Remove (replacer_ b) frame_id;
        let b := with_replacer b r in
        let b := with_free_list b (free_list_ b ++ [page_id]) in
        let b := DeallocatePage b page_id in
        Ok (b, false)
  end.

(** The guards of [storage/page/page_guard.h] hold the pool and the page
    pointer; the pool is the threaded state, so a guard is the pointer. *)
Definition BasicPageGuard : Type := option Z.
Definition ReadPageGuard : Type := option Z.
Definition WritePageGuard : Type := option Z.

Definition FetchPageBasic (b : BufferPoolManager) (page_id : Z)
  : outcome (BufferPoolManager * BasicPageGuard) :=
  FetchPage b page_id.

(** [page->RLatch()] / [page->WLatch()] through a possibly null pointer. *)
Definition latch_through (latch : Page -> outcome Page)
    (b : BufferPoolManager) (page : option Z) : outcome BufferPoolManager :=
  match page with
  | None => Stuck NullDereference
  | Some frame_id =>
      p ← page_at b frame_id;
      p ← latch p;
      Ok (put_page b frame_id p)
  end.

Definition FetchPageRead (b : BufferPoolManager) (page_id : Z)
  : outcome (BufferPoolManager * ReadPageGuard) :=
  '(b, page) ← FetchPage b page_id;
  b ← latch_through RLatch b page;
  Ok (b, page).

Definition FetchPageWrite (b : BufferPoolManager) (page_id : Z)
  : outcome (BufferPoolManager * WritePageGuard) :=
  '(b, page) ← FetchPage b page_id;
  b ← latch_through WLatch b page;
  Ok (b, page).

Definition NewPageGuarded (b : BufferPoolManager)
  : outcome (BufferPoolManager * (BasicPageGuard * option Z)) :=
  r ← NewPage b;
  match r with
  | (b, Some (page_id, frame_id)) => Ok (b, (Some frame_id, Some page_id))
  | (b, None) => Ok (b, (None, None))
  end.

(** One round of the loop of [FlushAllPages], on frame [i]. *)
Definition flush_frame (b : BufferPoolManager) (i : nat) : outcome BufferPoolManager :=
  p ← page_at b (Z.of_nat i);
  if is_dirty_ p && negb (page_id_ p =? INVALID_PAGE_ID) then
    let b := with_disk b (WritePage (disk_manager_ b) (page_id_ p) (data_ p)) in
    Ok (put_page b (Z.of_nat i) (with_dirty p false))
  else Ok b.

Fixpoint flush_frames (b : BufferPoolManager) (frames : list nat)
  : outcome BufferPoolManager :=
  match frames with
  | [] => Ok b
  | i :: rest => b ← flush_frame b i; flush_frames b rest
  end.

(** [for (size_t i = 0; i < pool_size_; i++)]. *)
Definition FlushAllPages (b : BufferPoolManager) : outcome BufferPoolManager :=
  flush_frames b (seq 0 (Z.to_nat (pool_size_ b))).

(** *** Vocabulary for the properties of the pool *)

(** A frame [FlushAllPages] writes: dirty, and holding a page. *)
Definition flushable (p : Page) : bool :=
  is_dirty_ p && negb (page_id_ p =? INVALID_PAGE_ID).

Definition flushed (p : Page) : Page :=
  if flushable p then with_dirty p false else p.

(** The disk after the pages of [ps] that are flushable have been written,
    first to last. *)
Definition write_all (d : DiskManager) (ps : list Page) : DiskManager :=
  foldl (fun d p => if flushable p then WritePage d (page_id_ p) (data_ p) else d) d ps.

(** The page table agrees with the frame array, and the free list holds
    frames of the array that no page is mapped to. *)
Record resident_ok (b : BufferPoolManager) : Prop := mk_resident_ok {
  table_frames : ∀ p f, page_table_ b !! p = Some f →
                        ∃ pg, page_at b f = Ok pg ∧ page_id_ pg = p;
  free_frames : ∀ f, f ∈ free_list_ b →
                     0 <= f < Z.of_nat (length (pages_ b))
                     ∧ ∀ p, page_table_ b !! p ≠ Some f;
  free_nodup : NoDup (free_list_ b);
  tracked_frames : ∀ f, f ∈ frames_of (history_list_ (replacer_ b)
                                       ++ cache_list_ (replacer_ b)) →
                        0 <= f < Z.of_nat (length (pages_ b))
}.

(** The states of a pool that its operations other than [DeletePage] lead
    to from construction. *)
Inductive pool_reachable (pool_size replacer_k : Z) : BufferPoolManager → Prop :=
| pool_new : pool_reachable pool_size replacer_k (new pool_size replacer_k)
| pool_NewPage b b' r :
    pool_reachable pool_size replacer_k b → NewPage b = Ok (b', r) →
    pool_reachable pool_size replacer_k b'
| pool_FetchPage b page_id b' r :
    pool_reachable pool_size replacer_k b → FetchPage b page_id = Ok (b', r) →
    pool_reachable pool_size replacer_k b'
| pool_UnpinPage b page_id is_dirty b' r :
    pool_reachable pool_size replacer_k b →
    UnpinPage b page_id is_dirty = Ok (b', r) →
    pool_reachable pool_size replacer_k b'
| pool_FlushPage b page_id b' r :
    pool_reachable pool_size replacer_k b → FlushPage b page_id = Ok (b', r) →
    pool_reachable pool_size replacer_k b'
| pool_FlushAllPages b b' :
    pool_reachable pool_size replacer_k b → FlushAllPages b = Ok b' →
    pool_reachable pool_size replacer_k b'.

End BufferPool.

(** * The persistent trie

    Nodes live in a store and are shared by reference ([std::shared_ptr]); a
    trie is an optional pointer to its root.  Reference counts are not
    modelled: the store only grows. *)

Module Trie.

(** The value types [Get] and [Put] are instantiated with at the end of
    [trie.cpp]. *)
Inductive VType : Type := TUInt32 | TUInt64 | TString | TInteger | TMoveBlocked.

Inductive Value : Type :=
| UInt32 (n : Z)
| UInt64 (n : Z)
| StdString (s : string)
| Integer (n : Z)            (* [std::unique_ptr<uint32_t>] *)
| MoveBlocked (waited : bool).

Definition type_of (v : Value) : VType :=
  match v with
  | UInt32 _ => TUInt32
  | UInt64 _ => TUInt64
  | StdString _ => TString
  | Integer _ => TInteger
  | MoveBlocked _ => TMoveBlocked
  end.

#[global] Instance VType_eq_dec : EqDecision VType.
Proof. solve_decision. Defined.

#[global] Instance Value_eq_dec : EqDecision Value.
Proof. solve_decision. Defined.

Abbreviation loc := nat (only parsing).

(** Modelled from the spec: [TrieNode] and its subclass
    [TrieNodeWithValue<T>] of [primer/trie.h]: a map from character to child,
    the value flag, and for the subclass the value. *)
Inductive TrieNode : Type :=
| Plain (children : gmap ascii loc)
| WithValue (children : gmap ascii loc) (value : Value).

Definition children_ (n : TrieNode) : gmap ascii loc :=
  match n with Plain c | WithValue c _ => c end.

Definition is_value_node_ (n : TrieNode) : bool :=
  match n with Plain _ => false | WithValue _ _ => true end.

Definition with_children (n : TrieNode) (c : gmap ascii loc) : TrieNode :=
  match n with Plain _ => Plain c | WithValue _ v => WithValue c v end.

#[global] Instance TrieNode_eq_dec : EqDecision TrieNode.
Proof. solve_decision. Defined.

(** Modelled from the spec: the virtual [Clone] of [primer/trie.h], which
    copies a node with its children map and, for a value node, its value. *)
Definition Clone (n : TrieNode) : TrieNode := n.

Abbreviation store := (list TrieNode) (only parsing).
Definition TriePtr : Type := option loc.

(** Modelled from the spec: the move constructors of the value types [Put]
    is instantiated with (moves are used to install the values).  Moving an
    integer, a string or a [std::unique_ptr] hands the value over as it is;
    the move constructor of [MoveBlocked], declared in [primer/trie.h], waits
    on the future of its source and sets [waited_] in the object it builds.
    The future is taken as fulfilled: the wait returns. *)
Definition move_construct (v : Value) : Value :=
  match v with
  | MoveBlocked _ => MoveBlocked true
  | _ => v
  end.

(** [std::make_shared]: a fresh node at the end of the store. *)
Definition alloc (h : store) (n : TrieNode) : store * loc := (h ++ [n], length h).

(** [*p] for a shared pointer. *)
Definition deref (h : store) (p : TriePtr) : outcome TrieNode :=
  match p with
  | None => Stuck NullDereference
  | Some l =>
      match h !! l with
      | Some n => Ok n
      | None => Stuck DanglingPointer
      end
  end.

(** [p->children_[ch] = q] on an allocated, not yet published node. *)
Definition set_child (h : store) (p : loc) (ch : ascii) (q : loc) : outcome store :=
  n ← deref h (Some p);
  Ok (<[p := with_children n (<[ch := q]> (children_ n))]> h).

(** The loop of [Get]: follow the characters of the key from [cur]. *)
Fixpoint walk (h : store) (cur : loc) (key : string) : outcome (option loc) :=
  match key with
  | EmptyString => Ok (Some cur)
  | String ch rest =>
      n ← deref h (Some cur);
      match children_ n !! ch with
      | None => Ok None
      | Some child => walk h child rest
      end
  end.

(** [Get<T>]: the [dynamic_cast] succeeds when the node carries a value of
    type [T]. *)
Definition Get (T : VType) (h : store) (root_ : TriePtr) (key : string)
  : outcome (option Value) :=
  match root_ with
  | None => Ok None
  | Some root =>
      r ← walk h root key;
      match r with
      | None => Ok None
      | Some cur =>
          n ← deref h (Some cur);
          match n with
          | Plain _ => Ok None
          | WithValue _ v => if decide (type_of v = T) then Ok (Some v) else Ok None
          end
      end
  end.

(** The body of [Put] after the root has been cloned and the key found
    non-empty: the [for] loop over all characters but the last, then the
    last character, where [std::make_shared<T>(std::move(value))] builds the
    stored value by a move. *)
Fixpoint put_path (h : store) (ptr : loc) (key : string) (value : Value) : outcome store :=
  match key with
  | EmptyString => Ok h
  | String ch EmptyString =>
      p ← deref h (Some ptr);
      valueNode ← match children_ p !! ch with
                  | None => Ok (WithValue ∅ (move_construct value))
                  | Some old =>
                      o ← deref h (Some old);
                      Ok (WithValue (children_ o) (move_construct value))
                  end;
      let '(h, vn) := alloc h valueNode in
      set_child h ptr ch vn
  | String ch rest =>
      p ← deref h (Some ptr);
      match children_ p !! ch with
      | None =>
          let '(h, newNode) := alloc h (Plain ∅) in
          h ← set_child h ptr ch newNode;
          put_path h newNode rest value
      | Some old =>
          o ← deref h (Some old);
          let '(h, child) := alloc h (Clone o) in
          h ← set_child h ptr ch child;
          put_path h child rest value
      end
  end.

Definition put_rooted (h : store) (root : loc) (key : string) (value : Value)
  : outcome (store * TriePtr) :=
  r ← deref h (Some root);
  let '(h, ptr) := alloc h (Clone r) in
  match key with
  | EmptyString =>
      p ← deref h (Some ptr);
      let '(h, ptr) := alloc h (WithValue (children_ p) (move_construct value)) in
      Ok (h, Some ptr)
  | _ =>
      h ← put_path h ptr key value;
      Ok (h, Some ptr)
  end.

Definition Put (h : store) (root_ : TriePtr) (key : string) (value : Value)
  : outcome (store * TriePtr) :=
  match root_ with
  | None =>
      (* [Trie(root).Put(key, std::move(value))]: the parameter of the inner
         call is built by a move *)
      let '(h, root) := alloc h (Plain ∅) in
      put_rooted h root key (move_construct value)
  | Some root => put_rooted h root key value
  end.

(** [Dfs(root, key, index)], by recursion on the part of the key from
    [index] on. *)
Fixpoint Dfs (h : store) (root : TriePtr) (key : string) : outcome (store * TriePtr) :=
  match key with
  | EmptyString =>
      r ← deref h root;
      if decide (children_ r = ∅) then Ok (h, None)
      else
        let '(h, l) := alloc h (Plain (children_ r)) in
        Ok (h, Some l)
  | String ch rest =>
      r ← deref h root;
      match children_ r !! ch with
      | Some child =>
          '(h, new_node) ← Dfs h (Some child) rest;
          let node := Clone r in
          match new_node with
          | Some nn =>
              let node := with_children node (<[ch := nn]> (children_ node)) in
              let '(h, l) := alloc h node in
              Ok (h, Some l)
          | None =>
              let node := with_children node (delete ch (children_ node)) in
              if negb (is_value_node_ node) && bool_decide (children_ node = ∅)
              then Ok (h, None)
              else
                let '(h, l) := alloc h node in
                Ok (h, Some l)
          end
      | None => Ok (h, root)
      end
  end.

Definition Remove (h : store) (root_ : TriePtr) (key : string)
  : outcome (store * TriePtr) :=
  Dfs h root_ key.

(** *** Vocabulary for the properties of the trie *)

(** No node of the store points outside the store. *)
Definition closed (h : store) : Prop :=
  ∀ l n ch l', h !! l = Some n → children_ n !! ch = Some l' → (l' < length h)%nat.

(** A trie handle of the store: null, or a pointer to an allocated node. *)
Definition valid (h : store) (t : TriePtr) : Prop :=
  match t with
  | None => True
  | Some root => (root < length h)%nat
  end.

(** [closed], as a check that runs. *)
Definition closedb (h : store) : bool :=
  forallb (fun n => forallb (fun kv : ascii * nat => Nat.ltb kv.2 (length h))
                      (map_to_list (children_ n))) h.

(** [h'] has every node of [h], unchanged, at its place. *)
Definition extends (h h' : store) : Prop :=
  ∀ l, (l < length h)%nat → h' !! l = h !! l.

(** The result of the [dynamic_cast] in [Get<T>] on a value node. *)
Definition as_type (T : VType) (v : Value) : outcome (option Value) :=
  if decide (type_of v = T) then Ok (Some v) else Ok None.

End Trie.

(** * Concrete states used below *)

Module Scenarios.

Import Replacer.

(** Three frames, [K = 2]: frame 1 has been accessed twice and made
    evictable, so it sits on the cache ring with [use_count = K]. *)
Definition accessed_k_times : outcome LRUKReplacer :=
  s ← RecordAccess (Replacer.new 3 2) 1;
  s ← RecordAccess s 1;
  SetEvictable s 1 true.

(** Scenario S3 of the specification: frames 0, 1, 2 accessed once each,
    then frame 0 again, then all three made evictable ([K = 2]). *)
Definition s3_trace : outcome LRUKReplacer :=
  s ← RecordAccess (Replacer.new 3 2) 0;
  s ← RecordAccess s 1;
  s ← RecordAccess s 2;
  s ← RecordAccess s 0;
  s ← SetEvictable s 0 true;
  s ← SetEvictable s 1 true;
  SetEvictable s 2 true.

(** The state [s3_trace] ends in. *)
Definition s3_state : LRUKReplacer :=
  mkReplacer 3 2 3
    (<[0 := 2]> (<[2 := 1]> (<[1 := 1]> ∅)))
    [true; true; true; false]
    [(2%nat, 2); (1%nat, 1)] (<[2 := 2%nat]> (<[1 := 1%nat]> ∅))
    [(3%nat, 0)] (<[0 := 3%nat]> ∅)
    4%nat.

(** Scenario S3 before its frames are made evictable: the three frames are
    on the rings and none is flagged. *)
Definition s3_pinned : LRUKReplacer :=
  mkReplacer 3 2 0
    (<[0 := 2]> (<[2 := 1]> (<[1 := 1]> ∅)))
    [false; false; false; false]
    [(2%nat, 2); (1%nat, 1)] (<[2 := 2%nat]> (<[1 := 1%nat]> ∅))
    [(3%nat, 0)] (<[0 := 3%nat]> ∅)
    4%nat.

(** Scenario S3 after its first two evictions, which took frames 1 and 2
    off the history ring: frame 0 is left, on the cache ring, evictable. *)
Definition s3_last : LRUKReplacer :=
  mkReplacer 3 2 1
    (<[0 := 2]> (<[2 := 0]> (<[1 := 0]> ∅)))
    [true; false; false; false]
    [] ∅
    [(3%nat, 0)] (<[0 := 3%nat]> ∅)
    4%nat.

Import BufferPool.

(** A pool with one frame ([K = 2]) after [NewPage]: page 0 sits in frame 0,
    pinned once; nothing is free and nothing is evictable. *)
Definition pool_pinned : BufferPoolManager :=
  mkBPM 1 [mkPage zero_data 0 1 false 0 false] (<[0 := 0]> ∅) []
    (mkReplacer 1 2 0 (<[0 := 1]> ∅) [false; false]
       [(0%nat, 0)] (<[0 := 0%nat]> ∅) [] ∅ 1%nat)
    1 (mkDisk ∅ []).

Definition pool_pinned_trace : outcome (BufferPoolManager * option (Z * Z)) :=
  NewPage (BufferPool.new 1 2).

(** The same pool after [UnpinPage(0, false)]: page 0 is resident, clean,
    with pin count zero. *)
Definition pool_unpinned : BufferPoolManager :=
  mkBPM 1 [mkPage zero_data 0 0 false 0 false] (<[0 := 0]> ∅) []
    (mkReplacer 1 2 1 (<[0 := 1]> ∅) [true; false]
       [(0%nat, 0)] (<[0 := 0%nat]> ∅) [] ∅ 1%nat)
    1 (mkDisk ∅ []).

Definition pool_unpinned_trace : outcome (BufferPoolManager * bool) :=
  '(b, _) ← NewPage (BufferPool.new 1 2);
  UnpinPage b 0 false.

(** One frame, [K = 3]; page 0 fetched a second time and unpinned once as
    dirty: resident, dirty, pin count 1, its frame on the history ring with
    two recorded accesses. *)
Definition pool_dirty : BufferPoolManager :=
  mkBPM 1 [mkPage zero_data 0 1 true 0 false] (<[0 := 0]> ∅) []
    (mkReplacer 1 3 0 (<[0 := 2]> ∅) [false; false]
       [(0%nat, 0)] (<[0 := 0%nat]> ∅) [] ∅ 1%nat)
    1 (mkDisk ∅ []).

Definition pool_dirty_trace : outcome (BufferPoolManager * bool) :=
  '(b, _) ← NewPage (BufferPool.new 1 3);
  '(b, _) ← FetchPage b 0;
  UnpinPage b 0 true.

(** One frame; page 0 was created, unpinned and evicted by the creation of
    page 1, which was then unpinned: page 1 sits in frame 0 with pin count
    zero. *)
Definition pool_second_page : BufferPoolManager :=
  mkBPM 1 [mkPage zero_data 1 0 false 0 false] (<[1 := 0]> ∅) []
    (mkReplacer 1 2 1 (<[0 := 1]> ∅) [true; false]
       [(1%nat, 0)] (<[0 := 1%nat]> ∅) [] ∅ 2%nat)
    2 (mkDisk ∅ []).

Definition pool_second_page_trace : outcome (BufferPoolManager * bool) :=
  '(b, _) ← NewPage (BufferPool.new 1 2);
  '(b, _) ← UnpinPage b 0 false;
  '(b, _) ← NewPage b;
  UnpinPage b 1 false.

(** One frame; page 0 was created and unpinned as dirty: resident, dirty,
    pin count zero, its frame evictable. *)
Definition pool_dirty_unpinned : BufferPoolManager :=
  mkBPM 1 [mkPage zero_data 0 0 true 0 false] (<[0 := 0]> ∅) []
    (mkReplacer 1 2 1 (<[0 := 1]> ∅) [true; false]
       [(0%nat, 0)] (<[0 := 0%nat]> ∅) [] ∅ 1%nat)
    1 (mkDisk ∅ []).

Import Trie.

(** The store after [Put("abc", 1)] on the empty trie; the trie is the node
    at index 1 (index 0 is the root made for the empty trie, of which node 1
    is the copy the path hangs from). *)
Definition abc_store : list TrieNode :=
  [ Plain ∅;
    Plain (<["a"%char := 2%nat]> ∅);
    Plain (<["b"%char := 3%nat]> ∅);
    Plain (<["c"%char := 4%nat]> ∅);
    WithValue ∅ (UInt32 1) ].

Definition abc_trie : TriePtr := Some 1%nat.

End Scenarios.

(** * Properties of the shared machinery *)

Lemma to_int_small z : - 2 ^ 31 <= z <= INT_MAX -> to_int z = z.
Proof.
  unfold to_int, INT_MAX. intros H.
  rewrite Z.mod_small by lia. lia.
Qed.

Lemma bind_ok {A B} (m : outcome A) (f : A -> outcome B) b :
  m ≫= f = Ok b -> ∃ a, m = Ok a ∧ f a = Ok b.
Proof. destruct m; simpl; intros H; try discriminate. eauto. Qed.

Lemma vec_at_in_range v i :
  0 <= i < Z.of_nat (length v) -> ∃ b, vec_at v i = Ok b.
Proof.
  intros H. unfold vec_at. rewrite decide_True by lia.
  destruct (lookup_lt_is_Some_2 v (Z.to_nat i)) as [b Hb]; [lia|].
  rewrite Hb. eauto.
Qed.

Lemma vec_at_not_throw v i : ¬ throws (vec_at v i).
Proof. unfold vec_at. repeat case_match; simpl; tauto. Qed.

Lemma vec_set_not_throw v i b : ¬ throws (vec_set v i b).
Proof. unfold vec_set. repeat case_match; simpl; tauto. Qed.

Lemma vec_set_in_range v i b :
  0 <= i < Z.of_nat (length v) -> vec_set v i b = Ok (<[Z.to_nat i := b]> v).
Proof.
  intros H. unfold vec_set. rewrite decide_True by lia.
  destruct (lookup_lt_is_Some_2 v (Z.to_nat i)) as [c Hc]; [lia|].
  by rewrite Hc.
Qed.

Lemma vec_set_ok v i b v' : vec_set v i b = Ok v' -> length v' = length v.
Proof.
  unfold vec_set. repeat case_match; intros ?; simplify_eq.
  by rewrite length_insert.
Qed.

Lemma list_erase_not_throw l it : ¬ throws (list_erase l it).
Proof. unfold list_erase. case_decide; simpl; tauto. Qed.

Lemma list_erase_member l n : n ∈ l -> list_erase l n.1 = Ok (drop_node n.1 l).
Proof.
  intros H. unfold list_erase. rewrite decide_True; [done|].
  unfold node_ids. apply list_elem_of_fmap. eauto.
Qed.

Lemma drop_node_subset it l n : n ∈ drop_node it l -> n ∈ l.
Proof. unfold drop_node. rewrite list_elem_of_filter. tauto. Qed.

(** An erased iterator is dead: no node of the list it was erased from has
    its identity. *)
Lemma list_deref_erased l it : list_deref (drop_node it l) it = Stuck InvalidIterator.
Proof.
  unfold list_deref, drop_node.
  destruct (filter _ (filter _ l)) as [|n rest] eqn:E; [done|].
  assert (n ∈ n :: rest) as Hn by left. rewrite <- E in Hn.
  apply list_elem_of_filter in Hn as [Heq Hn].
  apply list_elem_of_filter in Hn as [Hne _]. done.
Qed.

Lemma list_erase_subset l it l' n : list_erase l it = Ok l' -> n ∈ l' -> n ∈ l.
Proof.
  unfold list_erase. case_decide; intros ?; simplify_eq. apply drop_node_subset.
Qed.

(** * Properties of the LRU-K replacer *)

Module ReplacerFacts.

Import Replacer.

(** ** The scan of [Evict] *)

Lemma scan_spec flags visit :
  (∀ n, n ∈ visit -> 0 <= n.2 < Z.of_nat (length flags)) ->
  (scan flags visit = Ok None ∧ Forall (fun m => vec_at flags m.2 = Ok false) visit)
  ∨ (∃ skipped n rest,
        visit = skipped ++ n :: rest ∧ scan flags visit = Ok (Some n) ∧
        vec_at flags n.2 = Ok true ∧
        Forall (fun m => vec_at flags m.2 = Ok false) skipped).
Proof.
  induction visit as [|n visit IH]; intros Hr.
  - left. split; [done | constructor].
  - destruct (vec_at_in_range flags n.2) as [b Hb].
    { apply Hr. left. }
    destruct b.
    + right. exists [], n, visit. simpl. rewrite Hb. simpl. by repeat split.
    + destruct IH as [[Hs Hf] | (sk & m & rest & -> & Hs & Hm & Hf)].
      { intros m Hm. apply Hr. by right. }
      * left. simpl. rewrite Hb. simpl. split; [done | by constructor].
      * right. exists (n :: sk), m, rest. simpl. rewrite Hb. simpl.
        repeat split; [done | done | by constructor].
Qed.

(** Read on the ring itself, whose tail is the head of the visit order. *)
Lemma scan_ring s ring :
  (∀ n, n ∈ ring -> 0 <= n.2 < Z.of_nat (length (is_accessible_ s))) ->
  (scan (is_accessible_ s) (reverse ring) = Ok None ∧ no_victim s ring)
  ∨ (∃ n, scan (is_accessible_ s) (reverse ring) = Ok (Some n) ∧ tail_victim s ring n).
Proof.
  intros Hr.
  destruct (scan_spec (is_accessible_ s) (reverse ring))
    as [[Hs Hf] | (sk & n & rest & Hv & Hs & Hn & Hf)].
  - intros n Hn. apply Hr. by apply elem_of_reverse.
  - left. split; [done|]. unfold no_victim, pinned.
    rewrite <- (reverse_involutive ring). by apply Forall_reverse.
  - right. exists n. split; [done|].
    exists (reverse rest), (reverse sk). repeat split.
    + rewrite <- (reverse_involutive ring), Hv.
      by rewrite reverse_app, reverse_cons, <- app_assoc.
    + done.
    + by apply Forall_reverse.
Qed.

Lemma tail_victim_member s ring n : tail_victim s ring n -> n ∈ ring.
Proof. intros (fr & bk & -> & _). apply elem_of_app. right. left. Qed.

Lemma no_victim_not_evictable s ring n :
  no_victim s ring -> n ∈ ring -> ¬ evictable s n.2.
Proof.
  unfold no_victim, evictable, pinned. rewrite Forall_forall.
  intros H Hn He. specialize (H n Hn). congruence.
Qed.

(** ** Victim choice *)

Lemma maps_nonempty s n :
  rings_ok s -> n ∈ history_list_ s ++ cache_list_ s ->
  ¬ (history_map_ s = ∅ ∧ cache_map_ s = ∅).
Proof.
  intros Hok Hn [Hh Hc]. apply elem_of_app in Hn as [Hn | Hn].
  - apply (history_keys s Hok) in Hn as [x Hx]. rewrite Hh in Hx. done.
  - apply (cache_keys s Hok) in Hn as [x Hx]. rewrite Hc in Hx. done.
Qed.

Lemma ring_in_range s :
  rings_ok s ->
  (∀ n, n ∈ history_list_ s -> 0 <= n.2 < Z.of_nat (length (is_accessible_ s))) ∧
  (∀ n, n ∈ cache_list_ s -> 0 <= n.2 < Z.of_nat (length (is_accessible_ s))).
Proof.
  intros Hok. split; intros n Hn; apply (ring_frames s Hok), elem_of_app; auto.
Qed.

(** X20. The history half of the victim choice.  In a state with an
    evictable frame on the history ring, [Evict] returns, and the victim is
    the evictable frame of the history ring closest to the tail (the one
    accessed first). *)
Theorem Evict_history_victim (s : LRUKReplacer) :
  rings_ok s ->
  (∃ n, n ∈ history_list_ s ∧ evictable s n.2) ->
  ∃ s' n,
    Evict s = Ok (s', (true, n.2)) ∧ tail_victim s (history_list_ s) n.
Proof.
  intros Hok (m & Hm & Hev). unfold Evict.
  rewrite decide_False
    by (eapply maps_nonempty; [done | apply elem_of_app; by left]).
  destruct (ring_in_range s Hok) as [Hrh _].
  destruct (scan_ring s (history_list_ s) Hrh) as [[Hs Hnone] | (n & Hs & Hv)];
    rewrite Hs; simpl.
  - exfalso. exact (no_victim_not_evictable s _ m Hnone Hm Hev).
  - pose proof (tail_victim_member _ _ _ Hv) as Hin.
    destruct n as [it f]. simpl in *.
    rewrite (vec_set_in_range _ f false) by exact (Hrh (it, f) Hin).
    pose proof (list_erase_member _ (it, f) Hin) as He. simpl in He.
    simpl. rewrite He. simpl.
    by eexists _, (it, f).
Qed.

(** C2 fails on the code.  When no frame of the history ring is evictable
    and a frame of the cache ring is, [Evict] does not return the cache-ring
    victim: it erases the node from [cache_list_] and then dereferences the
    erased iterator to erase the map entry, which is undefined.  The history
    branch erases the map entry before the node. *)
Theorem Evict_cache_victim_reads_erased_iterator (s : LRUKReplacer) :
  rings_ok s ->
  no_victim s (history_list_ s) ->
  (∃ n, n ∈ cache_list_ s ∧ evictable s n.2) ->
  Evict s = Stuck InvalidIterator.
Proof.
  intros Hok Hnone (m & Hm & Hev). unfold Evict.
  rewrite decide_False
    by (eapply maps_nonempty; [done | apply elem_of_app; by right]).
  destruct (ring_in_range s Hok) as [Hrh Hrc].
  destruct (scan_ring s (history_list_ s) Hrh) as [[Hs _] | (n & Hs & Hv)].
  2:{ exfalso. destruct Hv as (fr & bk & Hring & Hn & _).
      eapply (no_victim_not_evictable s _ n Hnone); [|done].
      rewrite Hring. apply elem_of_app. right. left. }
  rewrite Hs. simpl.
  destruct (scan_ring s (cache_list_ s) Hrc) as [[Hs' Hnone'] | (n & Hs' & Hv)];
    rewrite Hs'; simpl.
  - exfalso. exact (no_victim_not_evictable s _ m Hnone' Hm Hev).
  - pose proof (tail_victim_member _ _ _ Hv) as Hin.
    destruct n as [it f]. simpl in *.
    rewrite (vec_set_in_range _ f false) by exact (Hrc (it, f) Hin).
    pose proof (list_erase_member _ (it, f) Hin) as He. simpl in He.
    simpl. rewrite He. simpl. by rewrite list_deref_erased.
Qed.

(** ** The representation invariant *)

Lemma consistent_rings_ok s : consistent s -> rings_ok s.
Proof.
  intros H. constructor.
  - intros n Hn. rewrite (hist_iter s H n Hn). eauto.
  - intros n Hn. rewrite (cache_iter s H n Hn). eauto.
  - exact (in_range s H).
  - exact (flags_len s H).
Qed.

Lemma new_consistent num_frames k :
  0 <= num_frames <= INT_MAX -> k < 2 ^ 64 - 1 -> consistent (new num_frames k).
Proof.
  intros HN Hk. unfold INT_MAX in HN. constructor; simpl; try (intros n Hn; by apply elem_of_nil in Hn).
  - intros f. unfold count_of. by rewrite lookup_empty.
  - rewrite length_replicate, to_int_small by (unfold INT_MAX; lia).
    unfold wrap64. rewrite Z.mod_small by lia. lia.
  - done.
Qed.

Lemma wrap64_nonneg z : 0 <= wrap64 z.
Proof. unfold wrap64. apply Z.mod_pos_bound. lia. Qed.

Lemma count_of_insert m f c g :
  count_of (<[f := c]> m) g = if decide (f = g) then c else count_of m g.
Proof.
  unfold count_of. rewrite lookup_insert. by case_decide.
Qed.

Lemma count_of_touch m f g : count_of (touch m f) g = count_of m g.
Proof.
  unfold touch, count_of. destruct (m !! f) eqn:E; [done|].
  rewrite lookup_insert. case_decide; [subst; by rewrite E | done].
Qed.

Lemma wrap64_succ_ne k c : c = k -> wrap64 (c + 1) ≠ k.
Proof.
  intros -> H. unfold wrap64 in H.
  assert (0 <= (k + 1) `mod` 2 ^ 64 < 2 ^ 64) by (apply Z.mod_pos_bound; lia).
  destruct (decide (k + 1 < 2 ^ 64)).
  - rewrite Z.mod_small in H by lia. lia.
  - assert (k + 1 = 2 ^ 64) as E by lia. rewrite E, Z.mod_same in H by lia. lia.
Qed.

Lemma wrap64_succ_le k c : 0 <= c < k -> k < 2 ^ 64 - 1 -> wrap64 (c + 1) <= k.
Proof.
  intros Hc Hk. unfold wrap64. rewrite Z.mod_small by lia. lia.
Qed.

(** Erasing through the iterator map removes every node of that frame. *)
Lemma erase_all_of_frame (l l' : list lnode) (m : gmap Z nat) f it :
  (∀ n, n ∈ l -> m !! n.2 = Some n.1) ->
  m !! f = Some it -> list_erase l it = Ok l' ->
  ∀ n, n ∈ l' -> n ∈ l ∧ n.2 ≠ f.
Proof.
  intros Hm Hf He n Hn. unfold list_erase in He. case_decide; simplify_eq.
  unfold drop_node in Hn. apply list_elem_of_filter in Hn as [Hne Hn].
  split; [done|]. intros E. specialize (Hm n Hn). congruence.
Qed.

Lemma absent_key_no_node (l : list lnode) (m : gmap Z nat) f :
  (∀ n, n ∈ l -> m !! n.2 = Some n.1) ->
  m !! f = None -> ∀ n, n ∈ l -> n.2 ≠ f.
Proof. intros Hm Hf n Hn E. specialize (Hm n Hn). congruence. Qed.

Lemma RecordAccess_consistent s f s' :
  consistent s -> 0 <= f -> RecordAccess s f = Ok s' -> consistent s'.
Proof.
  intros Hc Hf. unfold RecordAccess.
  case_decide as Hg; [done|].
  assert (Hfr : 0 <= f < Z.of_nat (length (is_accessible_ s))).
  { rewrite (flags_len s Hc). lia. }
  pose proof (counts_nonneg s Hc) as Hnn.
  pose proof (k_small s Hc) as Hks.
  set (c := wrap64 (count_of (use_count_ s) f + 1)).
  assert (Hc0 : 0 <= c) by apply wrap64_nonneg.
  assert (Hnn' : ∀ g, 0 <= count_of (<[f := c]> (use_count_ s)) g).
  { intros g. rewrite count_of_insert. case_decide; auto. }
  simpl.
  destruct (decide (c = k_ s)) as [Hk | Hk].
  - (* the access that reaches K *)
    intros H. apply bind_ok in H as (hl & Hhl & H). injection H as <-.
    assert (Hhl' : ∀ n, n ∈ hl -> n ∈ history_list_ s ∧ n.2 ≠ f).
    { destruct (history_map_ s !! f) as [it|] eqn:E.
      - eapply erase_all_of_frame; eauto using hist_iter.
      - injection Hhl as <-. intros n Hn. split; [done|].
        eapply absent_key_no_node; eauto using hist_iter. }
    assert (Hcl : ∀ n, n ∈ cache_list_ s -> f ≠ n.2).
    { intros n Hn E. pose proof (cache_count s Hc n Hn) as Hcc.
      rewrite <- E in Hcc. by apply (wrap64_succ_ne (k_ s) _ Hcc). }
    constructor; simpl; try done.
    + intros n Hn. destruct (Hhl' n Hn) as [Hin Hne].
      rewrite lookup_delete_ne by done. by apply hist_iter.
    + intros n Hn. apply elem_of_cons in Hn as [-> | Hn]; simpl.
      * by rewrite lookup_insert_eq.
      * rewrite lookup_insert_ne by auto. by apply cache_iter.
    + intros n Hn. destruct (Hhl' n Hn).
      rewrite count_of_insert, decide_False by done. by apply hist_count.
    + intros n Hn. rewrite count_of_insert.
      apply elem_of_cons in Hn as [-> | Hn]; simpl.
      * by rewrite decide_True.
      * rewrite decide_False by auto. by apply cache_count.
    + intros n Hn. apply elem_of_app in Hn as [Hn | Hn].
      * apply (in_range s Hc), elem_of_app. left. by apply Hhl'.
      * apply elem_of_cons in Hn as [-> | Hn]; [done|].
        apply (in_range s Hc), elem_of_app. by right.
    + exact (flags_len s Hc).
  - assert (Hh : c > k_ s -> ∀ n, n ∈ history_list_ s -> f ≠ n.2).
    { intros Hgt n Hn E. pose proof (hist_count s Hc n Hn) as Hlt.
      rewrite <- E in Hlt.
      pose proof (wrap64_succ_le (k_ s) (count_of (use_count_ s) f)).
      specialize (Hnn f). fold c in H. lia. }
    assert (Hcf : ¬ c > k_ s -> ∀ n, n ∈ cache_list_ s -> f ≠ n.2).
    { intros Hle n Hn E. pose proof (cache_count s Hc n Hn) as Hcc.
      rewrite <- E in Hcc. specialize (Hnn f).
      unfold c, wrap64 in Hle, Hk. rewrite Z.mod_small in Hle, Hk by lia. lia. }
    destruct (decide (c > k_ s)) as [Hgt | Hle].
    + (* beyond K: the frame leaves the cache ring *)
      specialize (Hh Hgt). intros H.
      assert (∃ cl, s' = set_cache (set_use_count s (<[f := c]> (use_count_ s)))
                            cl (cache_map_ s) ∧
                    ∀ n, n ∈ cl -> n ∈ cache_list_ s ∧ n.2 ≠ f) as (cl & -> & Hcl).
      { destruct (cache_map_ s !! f) as [it|] eqn:E.
        - apply bind_ok in H as (cl & Hcl & H). injection H as <-.
          exists cl. split; [done|].
          eapply erase_all_of_frame; eauto using cache_iter.
        - injection H as <-. exists (cache_list_ s). split; [by destruct s|].
          intros n Hn. split; [done|].
          eapply absent_key_no_node; eauto using cache_iter. }
      constructor; simpl; try done.
      * by apply hist_iter.
      * intros n Hn. apply cache_iter; [done|]. by apply Hcl.
      * intros n Hn. rewrite count_of_insert, decide_False by auto.
        by apply hist_count.
      * intros n Hn. destruct (Hcl n Hn).
        rewrite count_of_insert, decide_False by done. by apply cache_count.
      * intros n Hn. apply (in_range s Hc).
        rewrite !elem_of_app in *. destruct Hn as [Hn | Hn]; [by left|].
        right. by apply Hcl.
      * exact (flags_len s Hc).
    + (* below K: the frame enters the history ring unless it is there *)
      specialize (Hcf Hle). assert (c < k_ s) as Hlt by lia.
      destruct (history_map_ s !! f) as [it|] eqn:E; intros H; injection H as <-.
      * constructor; simpl; try done.
        -- by apply hist_iter.
        -- by apply cache_iter.
        -- intros n Hn. rewrite count_of_insert. case_decide; [done|].
           by apply hist_count.
        -- intros n Hn. rewrite count_of_insert, decide_False by auto.
           by apply cache_count.
        -- exact (in_range s Hc).
        -- exact (flags_len s Hc).
      * pose proof (absent_key_no_node _ _ f (hist_iter s Hc) E) as Hno.
        constructor; simpl; try done.
        -- intros n Hn. apply elem_of_cons in Hn as [-> | Hn]; simpl.
           ++ by rewrite lookup_insert_eq.
           ++ rewrite lookup_insert_ne by (apply not_eq_sym; auto).
              by apply hist_iter.
        -- by apply cache_iter.
        -- intros n Hn. rewrite count_of_insert.
           apply elem_of_cons in Hn as [-> | Hn]; simpl.
           ++ by rewrite decide_True.
           ++ rewrite decide_False by (apply not_eq_sym; auto).
              by apply hist_count.
        -- intros n Hn. rewrite count_of_insert, decide_False by auto.
           by apply cache_count.
        -- intros n Hn. apply elem_of_cons in Hn as [-> | Hn]; [done|].
           by apply (in_range s Hc).
        -- exact (flags_len s Hc).
Qed.

Lemma SetEvictable_consistent s f b s' :
  consistent s -> SetEvictable s f b = Ok s' -> consistent s'.
Proof.
  intros Hc. unfold SetEvictable.
  case_decide as Hg; [done|]. simpl.
  assert (consistent (set_use_count s (touch (use_count_ s) f))) as Hc'.
  { constructor; simpl; try apply Hc; intros n;
      rewrite ?count_of_touch; try apply Hc. }
  rewrite count_of_touch.
  case_decide as Hz; [by intros [= <-]|].
  intros H. apply bind_ok in H as (fl & Hfl & H).
  apply bind_ok in H as (flags & Hflags & H). injection H as <-.
  assert (length flags = length (is_accessible_ s)) as Hlen.
  { apply vec_set_ok in Hflags. rewrite Hflags.
    by destruct fl, b. }
  constructor; simpl; rewrite ?Hlen.
  - destruct fl, b; simpl; apply Hc.
  - destruct fl, b; simpl; apply Hc.
  - intros n. destruct fl, b; simpl; rewrite count_of_touch; apply Hc.
  - intros n. destruct fl, b; simpl; rewrite count_of_touch; apply Hc.
  - destruct fl, b; simpl; apply Hc.
  - intros g. destruct fl, b; simpl; rewrite count_of_touch; apply Hc.
  - destruct fl, b; simpl; apply Hc.
  - destruct fl, b; simpl; apply Hc.
Qed.

Lemma Remove_consistent s f s' :
  consistent s -> Remove s f = Ok s' -> consistent s'.
Proof.
  intros Hc. unfold Remove.
  case_decide as Hg; [done|].
  intros H. apply bind_ok in H as (fl & Hfl & H).
  destruct fl; simpl in H; [|by injection H as <-].
  apply bind_ok in H as (s1 & Hs1 & H).
  apply bind_ok in H as (flags & Hflags & H). injection H as <-.
  apply vec_set_ok in Hflags as Hlen.
  rewrite count_of_touch in Hs1.
  pose proof (counts_nonneg s Hc) as Hnn.
  assert (∀ g, 0 <= count_of (<[f := 0]> (touch (use_count_ s) f)) g) as Hnn'.
  { intros g. rewrite count_of_insert. destruct (decide (f = g)); [lia|].
    rewrite count_of_touch. apply Hnn. }
  case_decide as Hlt.
  - (* fewer than K accesses: the frame is on the history ring *)
    apply bind_ok in Hs1 as (hl & Hhl & Hs1). injection Hs1 as <-.
    simpl in *. unfold erase_via in Hhl.
    destruct (history_map_ s !! f) as [it|] eqn:E; [|done].
    pose proof (erase_all_of_frame _ _ _ _ _ (hist_iter s Hc) E Hhl) as Hsub.
    assert (∀ n, n ∈ cache_list_ s -> f ≠ n.2) as Hcl.
    { intros n Hn Heq. pose proof (cache_count s Hc n Hn). subst f. lia. }
    constructor; simpl; rewrite ?Hlen; try done.
    + intros n Hn. destruct (Hsub n Hn).
      rewrite lookup_delete_ne by done. by apply hist_iter.
    + by apply cache_iter.
    + intros n Hn. destruct (Hsub n Hn).
      rewrite count_of_insert, decide_False, count_of_touch by done.
      by apply hist_count.
    + intros n Hn.
      rewrite count_of_insert, decide_False, count_of_touch by auto.
      by apply cache_count.
    + intros n Hn. apply (in_range s Hc).
      rewrite !elem_of_app in *. destruct Hn as [Hn | Hn]; [|by right].
      left. by apply Hsub.
    + exact (flags_len s Hc).
    + exact (k_small s Hc).
  - (* otherwise it is on the cache ring *)
    apply bind_ok in Hs1 as (cl & Hcl & Hs1). injection Hs1 as <-.
    simpl in *. unfold erase_via in Hcl.
    destruct (cache_map_ s !! f) as [it|] eqn:E; [|done].
    pose proof (erase_all_of_frame _ _ _ _ _ (cache_iter s Hc) E Hcl) as Hsub.
    assert (∀ n, n ∈ history_list_ s -> f ≠ n.2) as Hhl.
    { intros n Hn Heq. pose proof (hist_count s Hc n Hn). subst f. lia. }
    constructor; simpl; rewrite ?Hlen; try done.
    + by apply hist_iter.
    + intros n Hn. destruct (Hsub n Hn).
      rewrite lookup_delete_ne by done. by apply cache_iter.
    + intros n Hn.
      rewrite count_of_insert, decide_False, count_of_touch by auto.
      by apply hist_count.
    + intros n Hn. destruct (Hsub n Hn).
      rewrite count_of_insert, decide_False, count_of_touch by done.
      by apply cache_count.
    + intros n Hn. apply (in_range s Hc).
      rewrite !elem_of_app in *. destruct Hn as [Hn | Hn]; [by left|].
      right. by apply Hsub.
    + exact (flags_len s Hc).
    + exact (k_small s Hc).
Qed.

Lemma scan_some_member flags visit n :
  scan flags visit = Ok (Some n) -> n ∈ visit.
Proof.
  induction visit as [|m visit IH]; simpl; [done|].
  intros H. apply bind_ok in H as (b & Hb & H). destruct b.
  - injection H as ->. left.
  - right. by apply IH.
Qed.

(** The cache branch of [Evict] never gets past its second [erase]. *)
Lemma Evict_cache_branch_stuck l it cl :
  list_erase l it = Ok cl -> list_deref cl it = Stuck InvalidIterator.
Proof.
  unfold list_erase. case_decide; [|done]. intros [= <-]. apply list_deref_erased.
Qed.

(** A call of [Evict] that returns a victim took it from the history
    ring. *)
Lemma Evict_true_inv s s' f :
  Evict s = Ok (s', (true, f)) ->
  ∃ it flags hl,
    scan (is_accessible_ s) (reverse (history_list_ s)) = Ok (Some (it, f)) ∧
    vec_set (is_accessible_ s) f false = Ok flags ∧
    list_erase (history_list_ s) it = Ok hl ∧
    s' = set_history
           (set_curr_size
              (set_is_accessible (set_use_count s (<[f := 0]> (use_count_ s))) flags)
              (wrap64 (curr_size_ s - 1)))
           hl (delete f (history_map_ s)).
Proof.
  unfold Evict. case_decide as He; [done|].
  intros H. apply bind_ok in H as (h & Hh & H).
  destruct h as [[it g]|].
  - apply bind_ok in H as (flags & Hflags & H).
    apply bind_ok in H as (hl & Hhl & H). injection H as <- <-.
    by exists it, flags, hl.
  - apply bind_ok in H as (c & Hcs & H).
    destruct c as [[it g]|]; [|done].
    apply bind_ok in H as (flags & Hflags & H).
    apply bind_ok in H as (cl & Hcl & H).
    apply Evict_cache_branch_stuck in Hcl as Hdead. by rewrite Hdead in H.
Qed.

Lemma Evict_consistent s s' r :
  consistent s -> Evict s = Ok (s', r) -> consistent s'.
Proof.
  intros Hc. unfold Evict.
  case_decide as He; [by intros [= <- <-]|].
  pose proof (counts_nonneg s Hc) as Hnn.
  intros H. apply bind_ok in H as (h & Hh & H).
  destruct h as [[it f]|].
  - (* a victim on the history ring *)
    apply bind_ok in H as (flags & Hflags & H).
    apply bind_ok in H as (hl & Hhl & H). injection H as <- <-.
    apply vec_set_ok in Hflags as Hlen.
    apply scan_some_member in Hh. rewrite elem_of_reverse in Hh.
    pose proof (hist_iter s Hc _ Hh) as Hit. simpl in Hit.
    pose proof (erase_all_of_frame _ _ _ _ _ (hist_iter s Hc) Hit Hhl) as Hsub.
    assert (∀ n, n ∈ cache_list_ s -> f ≠ n.2) as Hcl.
    { intros n Hn Heq. pose proof (cache_count s Hc n Hn).
      pose proof (hist_count s Hc _ Hh). simpl in *. subst f. lia. }
    constructor; simpl; rewrite ?Hlen.
    + intros n Hn. destruct (Hsub n Hn).
      rewrite lookup_delete_ne by done. by apply hist_iter.
    + by apply cache_iter.
    + intros n Hn. destruct (Hsub n Hn).
      rewrite count_of_insert, decide_False by done. by apply hist_count.
    + intros n Hn. rewrite count_of_insert, decide_False by auto.
      by apply cache_count.
    + intros n Hn. apply (in_range s Hc).
      rewrite !elem_of_app in *. destruct Hn as [Hn | Hn]; [|by right].
      left. by apply Hsub.
    + intros g. rewrite count_of_insert. destruct (decide (f = g)); [lia | apply Hnn].
    + exact (flags_len s Hc).
    + exact (k_small s Hc).
  - apply bind_ok in H as (c & Hcs & H).
    destruct c as [[it f]|]; [|by injection H as <- <-].
    (* a victim on the cache ring: the call does not return *)
    apply bind_ok in H as (flags & Hflags & H).
    apply bind_ok in H as (cl & Hcl & H).
    apply Evict_cache_branch_stuck in Hcl as Hdead. by rewrite Hdead in H.
Qed.

Lemma reachable_consistent num_frames k s :
  0 <= num_frames <= INT_MAX -> k < 2 ^ 64 - 1 ->
  reachable num_frames k s -> consistent s.
Proof.
  intros HN Hk Hr. induction Hr.
  - by apply new_consistent.
  - by eapply RecordAccess_consistent.
  - by eapply SetEvictable_consistent.
  - by eapply Remove_consistent.
  - by eapply Evict_consistent.
Qed.

Lemma s3_trace_state : Scenarios.s3_trace = Ok Scenarios.s3_state.
Proof. vm_compute. reflexivity. Qed.

Lemma s3_state_rings_ok : rings_ok Scenarios.s3_state.
Proof.
  constructor; simpl.
  - intros n Hn. repeat (apply elem_of_cons in Hn as [-> | Hn]);
      [vm_compute; eauto .. | by apply elem_of_nil in Hn].
  - intros n Hn. repeat (apply elem_of_cons in Hn as [-> | Hn]);
      [vm_compute; eauto .. | by apply elem_of_nil in Hn].
  - intros n Hn. repeat (apply elem_of_cons in Hn as [-> | Hn]);
      [simpl; lia .. | by apply elem_of_nil in Hn].
  - reflexivity.
Qed.

Lemma Evict_history_victim_witness :
  ∃ s' n,
    Evict Scenarios.s3_state = Ok (s', (true, n.2)) ∧
    tail_victim Scenarios.s3_state (history_list_ Scenarios.s3_state) n.
Proof.
  apply (Evict_history_victim Scenarios.s3_state).
  - exact s3_state_rings_ok.
  - exists (1%nat, 1). split; [|reflexivity].
    simpl. right. left.
Defined.

(** Scenario S3: the first two evictions return frames 1 and 2, in that
    order (B, C in the words of the specification), and leave frame 0 (A)
    alone on the cache ring. *)
Example s3_eviction_order :
  ('(s, r1) ← Evict Scenarios.s3_state;
   '(s, r2) ← Evict s;
   Ok (r1, r2, s))
  = Ok ((true, 1), (true, 2), Scenarios.s3_last).
Proof. vm_compute. reflexivity. Qed.

Lemma s3_last_rings_ok : rings_ok Scenarios.s3_last.
Proof.
  constructor; simpl.
  - intros n Hn. by apply elem_of_nil in Hn.
  - intros n Hn. apply list_elem_of_singleton in Hn as ->. vm_compute. eauto.
  - intros n Hn. apply list_elem_of_singleton in Hn as ->. simpl. lia.
  - reflexivity.
Qed.

Lemma Evict_cache_victim_reads_erased_iterator_witness :
  Evict Scenarios.s3_last = Stuck InvalidIterator.
Proof.
  apply (Evict_cache_victim_reads_erased_iterator Scenarios.s3_last).
  - exact s3_last_rings_ok.
  - constructor.
  - exists (3%nat, 0). split; [|reflexivity]. simpl. left.
Defined.

(** ** The guard on frame identifiers *)

Lemma bind_not_throw {A B} (m : outcome A) (f : A -> outcome B) :
  ¬ throws m -> (∀ a, ¬ throws (f a)) -> ¬ throws (m ≫= f).
Proof. destruct m; simpl; auto. Qed.

Lemma erase_via_not_throw l m f : ¬ throws (erase_via l m f).
Proof.
  unfold erase_via. destruct (m !! f); [apply list_erase_not_throw | simpl; tauto].
Qed.

Lemma RecordAccess_throws s f :
  throws (RecordAccess s f) ↔ f > to_int (replacer_size_ s).
Proof.
  unfold RecordAccess. case_decide as Hg; [simpl; tauto|].
  split; [|done]. intros H. exfalso. revert H. simpl.
  repeat case_decide; repeat case_match;
    repeat (apply bind_not_throw; [try apply list_erase_not_throw | intros ?]);
    simpl; tauto.
Qed.

Lemma SetEvictable_throws s f b :
  throws (SetEvictable s f b) ↔ f > to_int (replacer_size_ s).
Proof.
  unfold SetEvictable. case_decide as Hg; [simpl; tauto|].
  split; [|done]. intros H. exfalso. revert H. simpl.
  case_decide; [simpl; tauto|].
  apply bind_not_throw; [apply vec_at_not_throw | intros fl].
  apply bind_not_throw; [apply vec_set_not_throw | intros ?]. simpl. tauto.
Qed.

Lemma Remove_throws s f :
  throws (Remove s f) ↔ f > to_int (replacer_size_ s).
Proof.
  unfold Remove. case_decide as Hg; [simpl; tauto|].
  split; [|done]. intros H. exfalso. revert H.
  apply bind_not_throw; [apply vec_at_not_throw | intros fl].
  destruct fl; simpl; [|tauto].
  apply bind_not_throw.
  - case_decide; (apply bind_not_throw; [apply erase_via_not_throw | intros ?]);
      simpl; tauto.
  - intros s1. apply bind_not_throw; [apply vec_set_not_throw | intros ?].
    simpl. tauto.
Qed.

(** On a newly constructed replacer the three operations return for the
    identifier [num_frames]. *)
Lemma new_accepts_num_frames (num_frames k : Z) (b : bool) :
  0 <= num_frames <= INT_MAX ->
  (∃ s', RecordAccess (new num_frames k) num_frames = Ok s') ∧
  (∃ s', SetEvictable (new num_frames k) num_frames b = Ok s') ∧
  Remove (new num_frames k) num_frames = Ok (new num_frames k).
Proof.
  intros HN. unfold INT_MAX in HN.
  assert (to_int num_frames = num_frames) as Hto
    by (apply to_int_small; unfold INT_MAX; lia).
  split; [|split].
  - unfold RecordAccess. simpl. rewrite Hto, decide_False by lia.
    repeat case_decide; simpl; rewrite ?lookup_empty; by eexists.
  - unfold SetEvictable. simpl. rewrite Hto, decide_False by lia.
    rewrite decide_True; [by eexists|].
    unfold count_of, touch. rewrite lookup_empty. by rewrite lookup_insert_eq.
  - unfold Remove. simpl. rewrite Hto, decide_False by lia.
    assert (vec_at (replicate (Z.to_nat (wrap64 (num_frames + 1))) false) num_frames
            = Ok false) as ->; [|done].
    unfold vec_at. rewrite decide_True by lia.
    rewrite lookup_replicate_2; [done|].
    unfold wrap64. rewrite Z.mod_small by lia. lia.
Qed.

(** C7, as the code has it.  For a replacer constructed with [num_frames]
    frames, a number that fits the [int] the guard casts it to, the
    operations that take a frame identifier throw exactly for the
    identifiers above [num_frames]; on the newly constructed replacer the
    three calls with the identifier [num_frames] itself return. *)
Theorem frame_guard (num_frames k : Z) (s : LRUKReplacer) (f : Z) (b : bool) :
  0 <= num_frames <= INT_MAX ->
  replacer_size_ s = num_frames ->
  ((throws (RecordAccess s f) ↔ f > num_frames) ∧
   (throws (SetEvictable s f b) ↔ f > num_frames) ∧
   (throws (Remove s f) ↔ f > num_frames)) ∧
  ((∃ s', RecordAccess (new num_frames k) num_frames = Ok s') ∧
   (∃ s', SetEvictable (new num_frames k) num_frames b = Ok s') ∧
   Remove (new num_frames k) num_frames = Ok (new num_frames k)).
Proof.
  intros HN Hs. split; [|by apply new_accepts_num_frames].
  rewrite RecordAccess_throws, SetEvictable_throws, Remove_throws.
  rewrite Hs, to_int_small by (unfold INT_MAX in *; lia). tauto.
Qed.

Lemma frame_guard_witness :
  ((throws (RecordAccess Scenarios.s3_state 4) ↔ 4 > 3) ∧
   (throws (SetEvictable Scenarios.s3_state 4 true) ↔ 4 > 3) ∧
   (throws (Remove Scenarios.s3_state 4) ↔ 4 > 3)) ∧
  ((∃ s', RecordAccess (new 3 2) 3 = Ok s') ∧
   (∃ s', SetEvictable (new 3 2) 3 true = Ok s') ∧
   Remove (new 3 2) 3 = Ok (new 3 2)).
Proof.
  apply (frame_guard 3 2 Scenarios.s3_state 4 true).
  - unfold INT_MAX. lia.
  - reflexivity.
Defined.

(** C7, as stated, fails: with three frames, the identifier 3 is not below
    the number of frames, and the three operations return for it and do not
    throw. *)
Lemma frame_N_is_accepted :
  3 >= replacer_size_ (new 3 2) ∧
  (∃ s', RecordAccess (new 3 2) 3 = Ok s') ∧
  (∃ s', SetEvictable (new 3 2) 3 true = Ok s') ∧
  (∃ s', Remove (new 3 2) 3 = Ok s') ∧
  ¬ throws (RecordAccess (new 3 2) 3) ∧
  ¬ throws (SetEvictable (new 3 2) 3 true) ∧
  ¬ throws (Remove (new 3 2) 3).
Proof.
  split; [simpl; lia|].
  split; [eexists; vm_compute; reflexivity|].
  split; [eexists; vm_compute; reflexivity|].
  split; [eexists; vm_compute; reflexivity|].
  rewrite RecordAccess_throws, SetEvictable_throws, Remove_throws.
  vm_compute. repeat split; discriminate.
Qed.

(** ** Accesses beyond the K-th *)

(** What [RecordAccess] does to a frame of the cache ring: the node is
    erased from the ring, and that is all. *)
Lemma RecordAccess_above_k s f it :
  ¬ f > to_int (replacer_size_ s) ->
  wrap64 (count_of (use_count_ s) f + 1) > k_ s ->
  cache_map_ s !! f = Some it -> it ∈ node_ids (cache_list_ s) ->
  RecordAccess s f =
    Ok (set_cache
          (set_use_count s (<[f := wrap64 (count_of (use_count_ s) f + 1)]> (use_count_ s)))
          (drop_node it (cache_list_ s)) (cache_map_ s)).
Proof.
  intros Hg Hc Hm Hin. unfold RecordAccess.
  rewrite decide_False by done. simpl.
  rewrite decide_False by lia. rewrite decide_True by done.
  rewrite Hm. unfold list_erase. by rewrite decide_True.
Qed.

(** C1 fails on the code.  Frame 1 has [use_count = K] and is on the cache
    ring; one more access takes it off the ring and does not put it back.  It
    stays flagged evictable and counted in [Size], but [Evict] no longer finds
    it, and the access after that erases through a dead iterator. *)
Lemma RecordAccess_beyond_k_loses_frame :
  ∃ s s',
    Scenarios.accessed_k_times = Ok s ∧
    frames_of (cache_list_ s) = [1] ∧
    count_of (use_count_ s) 1 = k_ s ∧
    RecordAccess s 1 = Ok s' ∧
    frames_of (cache_list_ s') = [] ∧
    frames_of (history_list_ s') = [] ∧
    evictable s' 1 ∧ Size s' = 1 ∧
    Evict s' = Ok (s', (false, 0)) ∧
    RecordAccess s' 1 = Stuck InvalidIterator.
Proof.
  eexists _, _.
  repeat (split; [vm_compute; reflexivity|]).
  vm_compute; reflexivity.
Qed.

End ReplacerFacts.

(** * Properties of the buffer pool manager *)

Module BufferPoolFacts.

Import Replacer BufferPool.

(** ** The concrete pools are reachable *)

Lemma pool_pinned_reached :
  Scenarios.pool_pinned_trace = Ok (Scenarios.pool_pinned, Some (0, 0)).
Proof. vm_compute. reflexivity. Qed.

Lemma pool_unpinned_reached :
  Scenarios.pool_unpinned_trace = Ok (Scenarios.pool_unpinned, true).
Proof. vm_compute. reflexivity. Qed.

Lemma pool_dirty_reached :
  Scenarios.pool_dirty_trace = Ok (Scenarios.pool_dirty, true).
Proof. vm_compute. reflexivity. Qed.

Lemma pool_second_page_reached :
  Scenarios.pool_second_page_trace = Ok (Scenarios.pool_second_page, true).
Proof. vm_compute. reflexivity. Qed.

(** ** Frame array *)

Lemma page_at_put b f p q : page_at b f = Ok p -> page_at (put_page b f q) f = Ok q.
Proof.
  unfold page_at, put_page. case_decide; [|done]. simpl.
  destruct (pages_ b !! Z.to_nat f) eqn:E; [|done]. intros _.
  rewrite list_lookup_insert_eq; [done|]. by eapply lookup_lt_Some.
Qed.

Lemma put_page_changes b f p q : page_at b f = Ok p -> q ≠ p -> put_page b f q ≠ b.
Proof.
  intros Hp Hne Heq. apply (page_at_put b f p q) in Hp as Hq.
  rewrite Heq in Hq. congruence.
Qed.

(** ** [UnpinPage] *)

(** C9. On a resident page whose pin count is already zero, [UnpinPage]
    returns [false], yet it has stored the caller's flag in the frame: the
    only change is the dirty flag, and the state differs from the one before
    the call whenever the flag does. *)
Theorem UnpinPage_unpinned_not_preserving
    (b : BufferPoolManager) (page_id frame_id : Z) (p : Page) (is_dirty : bool) :
  page_id ≠ INVALID_PAGE_ID ->
  page_table_ b !! page_id = Some frame_id ->
  page_at b frame_id = Ok p ->
  pin_count_ p = 0 ->
  UnpinPage b page_id is_dirty
    = Ok (put_page b frame_id (with_dirty p is_dirty), false)
  ∧ page_at (put_page b frame_id (with_dirty p is_dirty)) frame_id
    = Ok (with_dirty p is_dirty)
  ∧ (is_dirty_ p ≠ is_dirty -> put_page b frame_id (with_dirty p is_dirty) ≠ b).
Proof.
  intros Hid Ht Hp Hpin. repeat split.
  - unfold UnpinPage. rewrite decide_False by done. rewrite Ht, Hp. simpl.
    rewrite decide_False by lia. done.
  - by eapply page_at_put.
  - intros Hd. eapply put_page_changes; [done|].
    intros E. apply Hd. by rewrite <- E.
Qed.

Lemma UnpinPage_unpinned_not_preserving_witness :
  UnpinPage Scenarios.pool_unpinned 0 true
    = Ok (put_page Scenarios.pool_unpinned 0
            (with_dirty (mkPage zero_data 0 0 false 0 false) true), false)
  ∧ page_at (put_page Scenarios.pool_unpinned 0
               (with_dirty (mkPage zero_data 0 0 false 0 false) true)) 0
    = Ok (with_dirty (mkPage zero_data 0 0 false 0 false) true)
  ∧ (is_dirty_ (mkPage zero_data 0 0 false 0 false) ≠ true ->
     put_page Scenarios.pool_unpinned 0
       (with_dirty (mkPage zero_data 0 0 false 0 false) true)
     ≠ Scenarios.pool_unpinned).
Proof.
  apply (UnpinPage_unpinned_not_preserving Scenarios.pool_unpinned 0 0).
  - unfold INVALID_PAGE_ID. lia.
  - reflexivity.
  - reflexivity.
  - reflexivity.
Defined.

(** What [UnpinPage] does to the dirty flag of a resident page, whatever it
    returns: the flag becomes the caller's argument. *)
Lemma UnpinPage_stores_flag b page_id frame_id p is_dirty b' r :
  page_id ≠ INVALID_PAGE_ID ->
  page_table_ b !! page_id = Some frame_id ->
  page_at b frame_id = Ok p ->
  UnpinPage b page_id is_dirty = Ok (b', r) ->
  ∃ p', page_at b' frame_id = Ok p' ∧ is_dirty_ p' = is_dirty.
Proof.
  intros Hid Ht Hp. unfold UnpinPage.
  rewrite decide_False by done. rewrite Ht, Hp. simpl.
  pose proof (page_at_put b frame_id p (with_dirty p is_dirty) Hp) as Hq.
  case_decide as Hpin.
  - pose proof (page_at_put _ frame_id _
      (with_pin_count (with_dirty p is_dirty) (pin_count_ p - 1)) Hq) as Hq'.
    case_decide as Hz.
    + destruct (SetEvictable _ _ _); simpl; intros H; simplify_eq.
      eexists. split; [exact Hq' | done].
    + intros H. simplify_eq. eexists. split; [exact Hq' | done].
  - intros H. simplify_eq. eexists. split; [exact Hq | done].
Qed.

(** C3 fails on the code.  Page 0 is resident, dirty and pinned once;
    [UnpinPage(0, false)] succeeds and leaves the page clean, where the claim
    has [dirty || false = true].  The page is then evicted by the next fetch
    without being written: the disk manager only sees the read. *)
Lemma UnpinPage_clears_dirty :
  page_at Scenarios.pool_dirty 0 = Ok (mkPage zero_data 0 1 true 0 false) ∧
  ∃ b' b'',
    UnpinPage Scenarios.pool_dirty 0 false = Ok (b', true) ∧
    page_at b' 0 = Ok (mkPage zero_data 0 0 false 0 false) ∧
    evictable (replacer_ b') 0 ∧
    FetchPage b' 7 = Ok (b'', Some 0) ∧
    calls (disk_manager_ b'') = [ReadPageCall 7].
Proof.
  split; [reflexivity|].
  eexists _, _. split; [vm_compute; reflexivity|].
  split; [reflexivity|]. split; [reflexivity|].
  split; [vm_compute; reflexivity|]. reflexivity.
Qed.

(** ** [DeletePage] *)

(** The value [DeletePage] returns, on every path: [true] exactly when the
    page is not resident. *)
Lemma DeletePage_result b page_id b' r :
  DeletePage b page_id = Ok (b', r) ->
  (r = true ↔ page_table_ b !! page_id = None).
Proof.
  unfold DeletePage. destruct (page_table_ b !! page_id) as [f|] eqn:Ht.
  - destruct (page_at b f) as [p| |]; simpl; [|done..].
    case_decide.
    + intros [= <- <-]. split; done.
    + destruct (is_dirty_ p); simpl;
        destruct (Remove _ _); simpl; intros ?; simplify_eq; split; done.
  - intros [= <- <-]. done.
Qed.

(** C5 fails on the code.  Page 0 is resident with pin count zero; the call
    deletes it (it leaves the page table, the frame is reset) and returns
    [false], the value it also returns for a pinned page. *)
Lemma DeletePage_success_returns_false :
  page_table_ Scenarios.pool_unpinned !! 0 = Some 0 ∧
  page_at Scenarios.pool_unpinned 0 = Ok (mkPage zero_data 0 0 false 0 false) ∧
  ∃ b',
    DeletePage Scenarios.pool_unpinned 0 = Ok (b', false) ∧
    page_table_ b' !! 0 = None ∧
    page_at b' 0 = Ok fresh_page ∧
    calls (disk_manager_ b') = [DeallocateCall 0] ∧
    DeletePage Scenarios.pool_pinned 0 = Ok (Scenarios.pool_pinned, false).
Proof.
  split; [reflexivity|]. split; [reflexivity|].
  eexists. split; [vm_compute; reflexivity|].
  repeat split; vm_compute; reflexivity.
Qed.

(** C6 fails on the code.  The pool has one frame, and page 1 sits in it
    with pin count zero.  Deleting page 1 appends the page identifier 1 to the
    free list, not the frame index 0; 1 is no frame index of this pool, and
    the next [NewPage] subscripts the frame array with it. *)
Lemma DeletePage_frees_page_id :
  page_table_ Scenarios.pool_second_page !! 1 = Some 0 ∧
  ∃ b',
    DeletePage Scenarios.pool_second_page 1 = Ok (b', false) ∧
    page_table_ b' !! 1 = None ∧
    free_list_ b' = [1] ∧
    ¬ (0 <= 1 < pool_size_ b') ∧
    NewPage b' = Stuck OutOfRange.
Proof.
  split; [reflexivity|].
  eexists. split; [vm_compute; reflexivity|].
  repeat split; try (vm_compute; reflexivity).
  simpl. lia.
Qed.

(** ** The latching fetches *)

(** X13. [FetchPage] returns no page only when the page is not resident,
    the free list is empty and the replacer has no victim. *)
Lemma FetchPage_none_inv b page_id b' :
  FetchPage b page_id = Ok (b', None) ->
  page_table_ b !! page_id = None ∧ free_list_ b = [] ∧
  ∃ r x, Evict (replacer_ b) = Ok (r, (false, x)).
Proof.
  unfold FetchPage. destruct (page_table_ b !! page_id) as [f|].
  - destruct (page_at b f); simpl; [|done..].
    destruct (incr_int _); simpl; [|done..].
    destruct (touch_and_pin _ _); simpl; done.
  - unfold acquire_frame.
    destruct (reverse (free_list_ b)) as [|f rest] eqn:Hfree; simpl.
    + intros H. split; [done|]. split.
      { apply (f_equal reverse) in Hfree. by rewrite reverse_involutive in Hfree. }
      destruct (Evict (replacer_ b)) as [[r [found x]]| |]; simpl in H; [|done..].
      destruct found; simpl in H; [|eauto].
      apply bind_ok in H as ([b1 got] & H1 & H2).
      apply bind_ok in H1 as (p & _ & H1). injection H1 as <- <-.
      apply bind_ok in H2 as (p2 & _ & H2).
      apply bind_ok in H2 as (b3 & _ & H2). discriminate.
    + destruct (page_at _ f); simpl; [|done..].
      destruct (touch_and_pin _ _); simpl; done.
Qed.

(** C10. Whenever [FetchPage] returns no page, [FetchPageRead] and
    [FetchPageWrite] dereference the null pointer: they do not return a
    guard. *)
Theorem latching_fetch_dereferences_null
    (b b' : BufferPoolManager) (page_id : Z) :
  FetchPage b page_id = Ok (b', None) ->
  FetchPageRead b page_id = Stuck NullDereference ∧
  FetchPageWrite b page_id = Stuck NullDereference.
Proof.
  intros H. unfold FetchPageRead, FetchPageWrite. rewrite H. by split.
Qed.

Lemma latching_fetch_dereferences_null_witness :
  FetchPageRead Scenarios.pool_pinned 5 = Stuck NullDereference ∧
  FetchPageWrite Scenarios.pool_pinned 5 = Stuck NullDereference.
Proof.
  apply (latching_fetch_dereferences_null
           Scenarios.pool_pinned Scenarios.pool_pinned 5).
  vm_compute. reflexivity.
Defined.

(** On a page that can be fetched, the same calls do return a guard. *)
Example latching_fetch_resident :
  ∃ b', FetchPageRead Scenarios.pool_unpinned 0 = Ok (b', Some 0).
Proof. eexists. vm_compute. reflexivity. Qed.

End BufferPoolFacts.

(** * Properties of the persistent trie *)

Module TrieFacts.

Import Trie.

Local Open Scope nat_scope.

(** ** The store *)

Lemma extends_refl h : extends h h.
Proof. by intros l _. Qed.

Lemma extends_trans h1 h2 h3 :
  length h1 <= length h2 -> extends h1 h2 -> extends h2 h3 -> extends h1 h3.
Proof.
  intros Hlen H12 H23 l Hl. rewrite H23 by lia. by apply H12.
Qed.

Lemma extends_alloc h n : extends h (alloc h n).1.
Proof. intros l Hl. simpl. by rewrite lookup_app_l. Qed.

Lemma alloc_lookup h n : (alloc h n).1 !! (alloc h n).2 = Some n.
Proof. simpl. by rewrite list_lookup_middle. Qed.

Lemma alloc_length h n : length (alloc h n).1 = S (length h).
Proof. simpl. rewrite length_app. simpl. lia. Qed.

Lemma closed_alloc h n :
  closed h ->
  (∀ ch l', children_ n !! ch = Some l' -> l' < S (length h)) ->
  closed (alloc h n).1.
Proof.
  intros Hc Hn l m ch l' Hl Hch. rewrite alloc_length. simpl in Hl.
  destruct (decide (l < length h)) as [Hlt | Hge].
  - rewrite lookup_app_l in Hl by done. specialize (Hc _ _ _ _ Hl Hch). lia.
  - apply lookup_lt_Some in Hl as Hl'. rewrite length_app in Hl'. simpl in Hl'.
    assert (l = length h) as -> by lia.
    rewrite list_lookup_middle in Hl by done. injection Hl as <-. eauto.
Qed.

Lemma deref_allocated h l : l < length h -> ∃ n, deref h (Some l) = Ok n ∧ h !! l = Some n.
Proof.
  intros Hl. destruct (lookup_lt_is_Some_2 h l Hl) as [n Hn].
  exists n. simpl. by rewrite Hn.
Qed.

Lemma children_with_children n c : children_ (with_children n c) = c.
Proof. by destruct n. Qed.

Lemma is_value_with_children n c :
  is_value_node_ (with_children n c) = is_value_node_ n.
Proof. by destruct n. Qed.

(** [set_child] on an allocated node of a closed store. *)
Lemma set_child_spec h p ch q n :
  closed h -> h !! p = Some n -> q < length h ->
  ∃ h', set_child h p ch q = Ok h' ∧
        h' = <[p := with_children n (<[ch := q]> (children_ n))]> h ∧
        closed h' ∧ length h' = length h.
Proof.
  intros Hc Hp Hq. unfold set_child. simpl. rewrite Hp. simpl.
  eexists. split; [done|]. split; [done|]. split; [|by rewrite length_insert].
  intros l m c l' Hl Hch. rewrite length_insert.
  destruct (decide (l = p)) as [-> | Hne].
  - rewrite list_lookup_insert_eq in Hl by (by eapply lookup_lt_Some).
    injection Hl as <-. rewrite children_with_children in Hch.
    rewrite lookup_insert in Hch. case_decide; simplify_eq; [done|].
    by eapply Hc.
  - rewrite list_lookup_insert_ne in Hl by done. by eapply Hc.
Qed.

(** ** [Get] only reads what is reachable *)

Lemma walk_extends h h' key :
  closed h -> extends h h' ->
  ∀ l, l < length h ->
    walk h' l key = walk h l key ∧
    ∀ r, walk h l key = Ok (Some r) -> r < length h.
Proof.
  intros Hc He. induction key as [|ch rest IH]; intros l Hl.
  - simpl. split; [done|]. by intros r [= <-].
  - simpl. rewrite (He l Hl).
    destruct (h !! l) as [n|] eqn:Hn; simpl; [|done].
    destruct (children_ n !! ch) as [c|] eqn:Hch; [|done].
    apply IH. by eapply Hc.
Qed.

Lemma Get_extends T h h' t key :
  closed h -> extends h h' -> valid h t ->
  Get T h' t key = Get T h t key.
Proof.
  intros Hc He Hv. destruct t as [root|]; [|done]. simpl in *.
  destruct (walk_extends h h' key Hc He root Hv) as [-> Hr].
  destruct (walk h root key) as [[r|]| |]; simpl; try done.
  by rewrite (He r (Hr r eq_refl)).
Qed.

(** ** [Put] writes only to nodes it has allocated *)

Lemma put_path_more h ptr ch ch2 rest2 v :
  put_path h ptr (String ch (String ch2 rest2)) v =
    (p ← deref h (Some ptr);
     match children_ p !! ch with
     | None =>
         let '(h0, newNode) := alloc h (Plain ∅) in
         h1 ← set_child h0 ptr ch newNode;
         put_path h1 newNode (String ch2 rest2) v
     | Some old =>
         o ← deref h (Some old);
         let '(h0, child) := alloc h (Clone o) in
         h1 ← set_child h0 ptr ch child;
         put_path h1 child (String ch2 rest2) v
     end).
Proof. reflexivity. Qed.

(** A move keeps the type, and moving twice is moving once. *)
Lemma type_of_move v : type_of (move_construct v) = type_of v.
Proof. by destruct v. Qed.

Lemma move_construct_idemp v : move_construct (move_construct v) = move_construct v.
Proof. by destruct v. Qed.

Lemma move_construct_plain v : type_of v ≠ TMoveBlocked -> move_construct v = v.
Proof. by destruct v. Qed.

(** The loop of [Put] from a node [ptr] that is not yet published: it
    returns, keeps the store closed, leaves every other node of the store
    as it was, keeps the value of [ptr] itself, and the key now leads from
    [ptr] to a value node holding the value moved from [v]. *)
Lemma put_path_spec key v :
  key ≠ EmptyString ->
  ∀ h ptr,
    closed h -> ptr < length h ->
    ∃ h' dest c,
      put_path h ptr key v = Ok h' ∧
      closed h' ∧ length h <= length h' ∧
      (∀ l, l < length h -> l ≠ ptr -> h' !! l = h !! l) ∧
      walk h' ptr key = Ok (Some dest) ∧
      h' !! dest = Some (WithValue c (move_construct v)).
Proof.
  induction key as [|ch rest IH]; [done|]. intros _ h ptr Hc Hptr.
  destruct (deref_allocated h ptr Hptr) as (p & Hd & Hp).
  destruct rest as [|ch2 rest2].
  - (* the last character *)
    cbn [put_path]. rewrite Hd. cbn [mbind outcome_bind].
    assert (∃ vn, (match children_ p !! ch with
                   | None => Ok (WithValue ∅ (move_construct v))
                   | Some old =>
                       o ← deref h (Some old);
                       Ok (WithValue (children_ o) (move_construct v))
                   end) = Ok vn ∧ is_value_node_ vn = true ∧
                  (∃ c, vn = WithValue c (move_construct v)) ∧
                  ∀ c l', children_ vn !! c = Some l' -> l' < S (length h))
      as (vn & -> & _ & (c & Hvn) & Hvnc).
    { destruct (children_ p !! ch) as [old|] eqn:Hch.
      - assert (old < length h) as Hold by (by eapply Hc).
        destruct (deref_allocated h old Hold) as (o & -> & Ho). simpl.
        eexists. repeat split; eauto.
        intros c l' Hl. simpl in Hl. specialize (Hc _ _ _ _ Ho Hl). lia.
      - eexists. repeat split; eauto. intros c l' Hl. simpl in Hl.
        by rewrite lookup_empty in Hl. }
    cbn [mbind outcome_bind].
    pose proof (closed_alloc h vn Hc Hvnc) as Hc1.
    pose proof (alloc_length h vn) as Hlen1.
    destruct (set_child_spec (alloc h vn).1 ptr ch (alloc h vn).2 p)
      as (h' & Hset & Hh' & Hc' & Hlen'); [done | | |].
    { by rewrite (extends_alloc h vn ptr Hptr). }
    { rewrite Hlen1. simpl. lia. }
    simpl in Hset, Hh', Hlen', Hlen1. simpl. rewrite Hset.
    exists h', (length h), c. split; [done|]. split; [done|].
    split; [lia|]. split.
    { intros l Hl Hne. rewrite Hh'.
      rewrite list_lookup_insert_ne by done. by rewrite lookup_app_l. }
    split.
    + rewrite Hh'. rewrite list_lookup_insert_eq by (rewrite length_app; simpl; lia).
      simpl. rewrite children_with_children, lookup_insert_eq. done.
    + rewrite Hh'. rewrite list_lookup_insert_ne by lia.
      rewrite list_lookup_middle by done. by rewrite Hvn.
  - (* a character before the last *)
    rewrite put_path_more.
    set (key' := String ch2 rest2) in *.
    rewrite Hd. cbn [mbind outcome_bind].
    assert (∃ nn, (∀ c l', children_ nn !! c = Some l' -> l' < S (length h)) ∧
                  (match children_ p !! ch with
                   | None =>
                       let '(h0, newNode) := alloc h (Plain ∅) in
                       h1 ← set_child h0 ptr ch newNode; put_path h1 newNode key' v
                   | Some old =>
                       o ← deref h (Some old);
                       let '(h0, child) := alloc h (Clone o) in
                       h1 ← set_child h0 ptr ch child; put_path h1 child key' v
                   end) =
                  (h1 ← set_child (alloc h nn).1 ptr ch (alloc h nn).2;
                   put_path h1 (alloc h nn).2 key' v))
      as (nn & Hnn & ->).
    { destruct (children_ p !! ch) as [old|] eqn:Hch.
      - assert (old < length h) as Hold by (by eapply Hc).
        destruct (deref_allocated h old Hold) as (o & -> & Ho).
        exists o. split; [|done].
        intros c l' Hl. specialize (Hc _ _ _ _ Ho Hl). lia.
      - exists (Plain ∅). split; [|done]. intros c l' Hl. simpl in Hl.
        by rewrite lookup_empty in Hl. }
    pose proof (closed_alloc h nn Hc Hnn) as Hc1.
    pose proof (alloc_length h nn) as Hlen1.
    destruct (set_child_spec (alloc h nn).1 ptr ch (alloc h nn).2 p)
      as (h1 & Hset & Hh1 & Hc1' & Hlen1'); [done | | |].
    { by rewrite (extends_alloc h nn ptr Hptr). }
    { rewrite Hlen1. simpl. lia. }
    rewrite Hset. cbn [mbind outcome_bind].
    simpl in Hh1, Hlen1', Hlen1 |- *.
    destruct (IH ltac:(done) h1 (length h)) as (h' & dest & c & Hput & Hc' & Hlen' & Hfr & Hw & Hdest);
      [done | lia |].
    exists h', dest, c. split; [done|]. split; [done|]. split; [lia|]. split.
    { intros l Hl Hne. rewrite Hfr by lia. rewrite Hh1.
      rewrite list_lookup_insert_ne by done. by rewrite lookup_app_l. }
    split; [|done].
    cbn [walk]. simpl. rewrite Hfr by lia. rewrite Hh1.
    rewrite list_lookup_insert_eq by (rewrite length_app; simpl; lia).
    simpl. rewrite children_with_children, lookup_insert_eq. exact Hw.
Qed.

Lemma Get_at_value h root key dest c v :
  walk h root key = Ok (Some dest) -> h !! dest = Some (WithValue c v) ->
  Get (type_of v) h (Some root) key = Ok (Some v).
Proof.
  intros Hw Hd. unfold Get. rewrite Hw. simpl. rewrite Hd. simpl.
  by rewrite decide_True.
Qed.

Lemma put_rooted_spec h root key v :
  closed h -> root < length h ->
  ∃ h' t1,
    put_rooted h root key v = Ok (h', Some t1) ∧
    closed h' ∧ t1 < length h' ∧ length h <= length h' ∧ extends h h' ∧
    Get (type_of v) h' (Some t1) key = Ok (Some (move_construct v)).
Proof.
  intros Hc Hroot. unfold put_rooted.
  destruct (deref_allocated h root Hroot) as (r & -> & Hr).
  cbn [mbind outcome_bind]. unfold Clone.
  assert (closed (alloc h r).1) as Hc1.
  { apply closed_alloc; [done|]. intros c l' Hl.
    specialize (Hc _ _ _ _ Hr Hl). lia. }
  pose proof (alloc_length h r) as Hlen1.
  pose proof (alloc_lookup h r) as Hptr.
  simpl in Hc1, Hlen1, Hptr |- *.
  destruct key as [|ch rest].
  - (* the empty key: a value node with the children of the root *)
    rewrite Hptr. simpl.
    eexists _, _. split; [reflexivity|].
    assert (closed (alloc (h ++ [r]) (WithValue (children_ r) (move_construct v))).1)
      as Hc2.
    { apply closed_alloc; [done|]. intros c l' Hl. simpl in Hl.
      specialize (Hc _ _ _ _ Hr Hl). rewrite Hlen1. lia. }
    simpl in Hc2. split; [done|]. rewrite !length_app. simpl.
    split; [lia|]. split; [lia|]. split.
    + intros l Hl. rewrite lookup_app_l by (rewrite length_app; simpl; lia).
      by rewrite lookup_app_l.
    + replace (length h + 1) with (length (h ++ [r]))
        by (rewrite length_app; simpl; lia).
      rewrite list_lookup_middle by done. simpl.
      by rewrite decide_True by apply type_of_move.
  - destruct (put_path_spec (String ch rest) v ltac:(done) (h ++ [r]) (length h))
      as (h' & dest & c & Hput & Hc' & Hlen' & Hfr & Hw & Hdest);
      [done | lia |].
    rewrite Hput. simpl.
    eexists _, _. split; [reflexivity|]. split; [done|].
    split; [lia|]. split; [lia|]. split.
    + intros l Hl. rewrite Hfr by lia. by rewrite lookup_app_l.
    + rewrite <- (type_of_move v). exact (Get_at_value _ _ _ _ _ _ Hw Hdest).
Qed.

Lemma Put_spec h t0 key v :
  closed h -> valid h t0 ->
  ∃ h' t1,
    Put h t0 key v = Ok (h', Some t1) ∧
    closed h' ∧ t1 < length h' ∧ length h <= length h' ∧ extends h h' ∧
    Get (type_of v) h' (Some t1) key = Ok (Some (move_construct v)).
Proof.
  intros Hc Hv. unfold Put. destruct t0 as [root|].
  - by apply put_rooted_spec.
  - assert (closed (alloc h (Plain ∅)).1) as Hc0.
    { apply closed_alloc; [done|]. intros c l' Hl. simpl in Hl.
      by rewrite lookup_empty in Hl. }
    pose proof (alloc_length h (Plain ∅)) as Hlen0.
    simpl in Hc0, Hlen0 |- *.
    destruct (put_rooted_spec (h ++ [Plain ∅]) (length h) key (move_construct v))
      as (h' & t1 & Hput & Hc' & Ht1 & Hlen' & Hext & Hget); [done | lia |].
    rewrite type_of_move, move_construct_idemp in Hget.
    exists h', t1. split; [done|]. split; [done|]. split; [done|].
    split; [lia|]. split; [|done].
    intros l Hl. rewrite Hext by lia. by rewrite lookup_app_l.
Qed.

(** C8, amended.  [Put] is persistent: on a closed store it returns, the
    trie it was applied to answers every [Get] exactly as before, and in the
    trie returned the key maps to the value as [Put] installed it, which is
    the object move-constructed from [v]: [v] itself for every value type
    but [MoveBlocked]. *)
Theorem Put_persistent (h : store) (t0 : TriePtr) (k : string) (v : Value) :
  closed h -> valid h t0 ->
  ∃ h' t1,
    Put h t0 k v = Ok (h', t1) ∧
    (∀ T k', Get T h' t0 k' = Get T h t0 k') ∧
    Get (type_of v) h' t1 k = Ok (Some (move_construct v)) ∧
    (type_of v ≠ TMoveBlocked -> Get (type_of v) h' t1 k = Ok (Some v)).
Proof.
  intros Hc Hv.
  destruct (Put_spec h t0 k v Hc Hv) as (h' & t1 & Hput & _ & _ & _ & Hext & Hget).
  exists h', (Some t1). split; [done|]. split; [|split; [done|]].
  - intros T k'. by apply Get_extends.
  - intros Hty. by rewrite Hget, move_construct_plain.
Qed.

(** C8 as the claim has it fails for a [MoveBlocked] that has not been
    waited on: the object [Get] returns has [waited_] set, which the value
    handed to [Put] had not. *)
Lemma Put_MoveBlocked_is_moved :
  ∃ h' t1,
    Put [] None "k" (MoveBlocked false) = Ok (h', t1) ∧
    Get TMoveBlocked h' t1 "k" = Ok (Some (MoveBlocked true)) ∧
    Get TMoveBlocked h' t1 "k" ≠ Ok (Some (MoveBlocked false)).
Proof.
  eexists _, _. split; [vm_compute; reflexivity|].
  split; [vm_compute; reflexivity|]. vm_compute. discriminate.
Qed.

(** ** [Remove] *)

(** C4 fails on the code for the empty trie.  [Remove] hands the null root
    to [Dfs], which reads [root->children_] on both of its paths: for every
    key the call dereferences a null pointer, where [Get] and [Put] test
    [root_ == nullptr] first. *)
Lemma Remove_null_root (h : store) (key : string) (T : VType) :
  Remove h None key = Stuck NullDereference
  ∧ Get T h None key = Ok None.
Proof. split; [by destruct key | done]. Qed.

Lemma Get_nil T h root r :
  h !! root = Some r ->
  Get T h (Some root) EmptyString =
    match r with
    | Plain _ => Ok None
    | WithValue _ v => if decide (type_of v = T) then Ok (Some v) else Ok None
    end.
Proof. intros Hr. simpl. by rewrite Hr. Qed.

Lemma Get_cons T h root r ch rest :
  h !! root = Some r ->
  Get T h (Some root) (String ch rest) =
    match children_ r !! ch with
    | None => Ok None
    | Some child => Get T h (Some child) rest
    end.
Proof.
  intros Hr. simpl. rewrite Hr. simpl. by destruct (children_ r !! ch).
Qed.

Lemma alloc_facts h n :
  closed h ->
  (∀ ch l', children_ n !! ch = Some l' -> l' < S (length h)) ->
  closed (h ++ [n]) ∧ length (h ++ [n]) = S (length h) ∧
  (h ++ [n]) !! length h = Some n ∧ extends h (h ++ [n]).
Proof.
  intros Hc Hn. split; [exact (closed_alloc h n Hc Hn)|].
  split; [exact (alloc_length h n)|].
  split; [exact (alloc_lookup h n) | exact (extends_alloc h n)].
Qed.

Lemma Dfs_more h root ch rest :
  Dfs h root (String ch rest) =
    (r ← deref h root;
     match children_ r !! ch with
     | Some child =>
         '(h, new_node) ← Dfs h (Some child) rest;
         let node := Clone r in
         match new_node with
         | Some nn =>
             let node := with_children node (<[ch := nn]> (children_ node)) in
             let '(h, l) := alloc h node in
             Ok (h, Some l)
         | None =>
             let node := with_children node (delete ch (children_ node)) in
             if negb (is_value_node_ node) && bool_decide (children_ node = ∅)
             then Ok (h, None)
             else
               let '(h, l) := alloc h node in
               Ok (h, Some l)
         end
     | None => Ok (h, root)
     end).
Proof. reflexivity. Qed.

Lemma Get_with_children_nil T h l r c :
  h !! l = Some (with_children r c) ->
  Get T h (Some l) EmptyString =
    match r with
    | Plain _ => Ok None
    | WithValue _ v => if decide (type_of v = T) then Ok (Some v) else Ok None
    end.
Proof. intros Hl. rewrite (Get_nil _ _ _ _ Hl). by destruct r. Qed.

(** [Dfs] from an allocated node of a closed store returns, writes to no
    existing node, and yields a sub-trie without the key and otherwise equal
    to the one it started from. *)
Lemma Dfs_spec key :
  ∀ h root,
    closed h -> root < length h ->
    ∃ h' t',
      Dfs h (Some root) key = Ok (h', t') ∧
      closed h' ∧ valid h' t' ∧ length h <= length h' ∧ extends h h' ∧
      ∀ T k', Get T h' t' k' =
              if decide (k' = key) then Ok None else Get T h (Some root) k'.
Proof.
  induction key as [|ch rest IH]; intros h root Hc Hroot;
    destruct (deref_allocated h root Hroot) as (r & Hd & Hr).
  - (* the node of the key itself *)
    cbn [Dfs]. rewrite Hd. cbn [mbind outcome_bind].
    destruct (decide (children_ r = ∅)) as [He | Hne].
    + exists h, None. split; [done|]. split; [done|]. split; [done|].
      split; [lia|]. split; [apply extends_refl|].
      intros T k'. case_decide as Hk; [done|].
      destruct k' as [|c k'']; [done|].
      rewrite (Get_cons _ _ _ _ _ _ Hr), He, lookup_empty. done.
    + destruct (alloc_facts h (Plain (children_ r))) as (Hc1 & Hlen1 & Hnew & Hext);
        [done | |].
      { intros c l' Hl. simpl in Hl. specialize (Hc _ _ _ _ Hr Hl). lia. }
      exists (h ++ [Plain (children_ r)]), (Some (length h)).
      split; [reflexivity|]. split; [done|].
      split; [unfold valid; lia|]. split; [lia|]. split; [done|].
      intros T k'. destruct k' as [|c k''].
      * rewrite decide_True by done. by rewrite (Get_nil _ _ _ _ Hnew).
      * rewrite decide_False by done.
        rewrite (Get_cons _ _ _ _ _ _ Hnew), (Get_cons _ _ _ _ _ _ Hr).
        cbn [children_].
        destruct (children_ r !! c) as [child|] eqn:Hch; [|done].
        apply Get_extends; [done | done |]. simpl. by eapply Hc.
  - rewrite Dfs_more, Hd. cbn [mbind outcome_bind].
    destruct (children_ r !! ch) as [child|] eqn:Hch.
    + (* the branch exists: recurse, then rebuild a copy of this node *)
      assert (child < length h) as Hchild by (by eapply Hc).
      destruct (IH h child Hc Hchild)
        as (h1 & new_node & -> & Hc1 & Hv1 & Hlen1 & Hext1 & Hget1).
      cbn [mbind outcome_bind]. unfold Clone.
      assert (∀ T c k'', c ≠ ch ->
                Get T h (Some root) (String c k'') =
                match children_ r !! c with
                | None => Ok None
                | Some child => Get T h1 (Some child) k''
                end) as Hother.
      { intros T c k'' Hne. rewrite (Get_cons _ _ _ _ _ _ Hr).
        destruct (children_ r !! c) as [c'|] eqn:Hc'; [|done].
        symmetry. apply Get_extends; [done | done |]. simpl. by eapply Hc. }
      destruct new_node as [nn|].
      * set (node := with_children r (<[ch := nn]> (children_ r))).
        destruct (alloc_facts h1 node) as (Hc2 & Hlen2 & Hnew & Hext2); [done | |].
        { intros c l' Hl. unfold node in Hl.
          rewrite children_with_children, lookup_insert in Hl.
          case_decide; simplify_eq; [simpl in Hv1; lia|].
          specialize (Hc _ _ _ _ Hr Hl). lia. }
        exists (h1 ++ [node]), (Some (length h1)).
        split; [reflexivity|]. split; [done|].
        split; [unfold valid; lia|]. split; [lia|]. split.
        { eapply extends_trans; [| exact Hext1 | exact Hext2]. lia. }
        intros T k'. destruct k' as [|c k''].
        -- rewrite decide_False by done.
           rewrite (Get_with_children_nil _ _ _ _ _ Hnew).
           by rewrite (Get_nil _ _ _ _ Hr).
        -- rewrite (Get_cons _ _ _ _ _ _ Hnew). unfold node.
           rewrite children_with_children, lookup_insert. fold node.
           destruct (decide (ch = c)) as [<- | Hne].
           ++ rewrite (Get_extends T h1 (h1 ++ [node]) (Some nn) k'' Hc1 Hext2 Hv1).
              rewrite Hget1, (Get_cons _ _ _ _ _ _ Hr), Hch.
              repeat case_decide; simplify_eq; done.
           ++ rewrite decide_False by congruence.
              rewrite Hother by done.
              destruct (children_ r !! c) as [c'|] eqn:Hc'; [|done].
              apply Get_extends; [done | done |]. simpl.
              specialize (Hc _ _ _ _ Hr Hc'). lia.
      * set (node := with_children r (delete ch (children_ r))).
        assert (∀ T k'', k'' ≠ rest -> Get T h (Some child) k'' = Ok None) as Hgone.
        { intros T k'' Hne. specialize (Hget1 T k'').
          rewrite decide_False in Hget1 by done. by rewrite <- Hget1. }
        destruct (negb (is_value_node_ node) && bool_decide (children_ node = ∅))
          eqn:Hdrop.
        -- (* nothing is left of this node *)
           apply andb_true_iff in Hdrop as [Hnv Hem].
           apply bool_decide_eq_true in Hem. unfold node in Hnv, Hem.
           rewrite is_value_with_children in Hnv.
           rewrite children_with_children in Hem.
           exists h1, None. split; [done|]. split; [done|]. split; [done|].
           split; [lia|]. split; [done|].
           intros T k'. case_decide as Hk; [done|].
           change (Get T h1 None k') with (@Ok (option Value) None).
           destruct k' as [|c k''].
           ++ rewrite (Get_nil _ _ _ _ Hr). by destruct r.
           ++ rewrite (Get_cons _ _ _ _ _ _ Hr).
              destruct (decide (ch = c)) as [<- | Hne].
              ** rewrite Hch. symmetry. apply Hgone. congruence.
              ** assert (delete ch (children_ r) !! c = None) as Hdel
                   by (by rewrite Hem, lookup_empty).
                 rewrite lookup_delete_ne in Hdel by done. by rewrite Hdel.
        -- destruct (alloc_facts h1 node) as (Hc2 & Hlen2 & Hnew & Hext2); [done | |].
           { intros c l' Hl. unfold node in Hl.
             rewrite children_with_children in Hl.
             apply lookup_delete_Some in Hl as [_ Hl].
             specialize (Hc _ _ _ _ Hr Hl). lia. }
           exists (h1 ++ [node]), (Some (length h1)).
           split; [reflexivity|]. split; [done|].
           split; [unfold valid; lia|]. split; [lia|]. split.
           { eapply extends_trans; [| exact Hext1 | exact Hext2]. lia. }
           intros T k'. destruct k' as [|c k''].
           ++ rewrite decide_False by done.
              rewrite (Get_with_children_nil _ _ _ _ _ Hnew).
              by rewrite (Get_nil _ _ _ _ Hr).
           ++ rewrite (Get_cons _ _ _ _ _ _ Hnew). unfold node.
              rewrite children_with_children. fold node.
              destruct (decide (ch = c)) as [<- | Hne].
              ** rewrite lookup_delete_eq.
                 destruct (decide (String ch k'' = String ch rest)) as [Hk | Hk]; [done|].
                 rewrite (Get_cons _ _ _ _ _ _ Hr), Hch.
                 symmetry. apply Hgone. congruence.
              ** rewrite lookup_delete_ne by done.
                 rewrite decide_False by congruence.
                 rewrite Hother by congruence.
                 destruct (children_ r !! c) as [c'|] eqn:Hc'; [|done].
                 apply Get_extends; [done | done |]. simpl.
                 specialize (Hc _ _ _ _ Hr Hc'). lia.
    + (* no such branch: the node is returned as it is *)
      exists h, (Some root). split; [done|]. split; [done|]. split; [done|].
      split; [lia|]. split; [apply extends_refl|].
      intros T k'. case_decide as Hk; [|done]. subst k'.
      by rewrite (Get_cons _ _ _ _ _ _ Hr), Hch.
Qed.

(** [Remove] on a trie with a root: it returns, the key is gone, every
    other key is as before. *)
Lemma Remove_rooted h root key :
  closed h -> root < length h ->
  ∃ h' t',
    Remove h (Some root) key = Ok (h', t') ∧
    closed h' ∧ valid h' t' ∧
    (∀ T k', Get T h (Some root) k' = Get T h' (Some root) k') ∧
    ∀ T k', Get T h' t' k' =
            if decide (k' = key) then Ok None else Get T h (Some root) k'.
Proof.
  intros Hc Hroot. unfold Remove.
  destruct (Dfs_spec key h root Hc Hroot)
    as (h' & t' & HD & Hc' & Hv' & _ & Hext & Hget).
  exists h', t'. repeat (split; [done|]). split; [|done].
  intros T k'. symmetry. by apply Get_extends.
Qed.

(** When the key is absent, the returned trie answers every [Get] as the
    original does. *)
Lemma Remove_absent_key h root key :
  closed h -> root < length h ->
  (∀ T, Get T h (Some root) key = Ok None) ->
  ∃ h' t',
    Remove h (Some root) key = Ok (h', t') ∧
    ∀ T k', Get T h' t' k' = Get T h (Some root) k'.
Proof.
  intros Hc Hroot Habs.
  destruct (Remove_rooted h root key Hc Hroot) as (h' & t' & HR & _ & _ & _ & Hget).
  exists h', t'. split; [done|]. intros T k'. rewrite Hget.
  case_decide; [subst; by rewrite Habs | done].
Qed.

(** ** [Get] never fails *)

Lemma walk_total h key :
  closed h -> ∀ l, l < length h ->
  ∃ r, walk h l key = Ok r ∧ ∀ d, r = Some d -> d < length h.
Proof.
  intros Hc. induction key as [|ch rest IH]; intros l Hl.
  - exists (Some l). split; [done|]. by intros d [= <-].
  - destruct (deref_allocated h l Hl) as (n & Hd & Hn).
    cbn [walk]. rewrite Hd. cbn [mbind outcome_bind].
    destruct (children_ n !! ch) as [c|] eqn:Hch.
    + apply IH. by eapply Hc.
    + exists None. by split.
Qed.

Lemma Get_total T h t key :
  closed h -> valid h t -> ∃ r, Get T h t key = Ok r.
Proof.
  intros Hc Hv. destruct t as [root|]; [|by eexists].
  unfold Get. destruct (walk_total h key Hc root Hv) as (r & -> & Hr).
  cbn [mbind outcome_bind]. destruct r as [d|]; [|by eexists].
  destruct (deref_allocated h d (Hr d eq_refl)) as (n & -> & _).
  cbn [mbind outcome_bind]. destruct n; [by eexists|].
  case_decide; by eexists.
Qed.

(** ** Concrete tries *)

Lemma closedb_sound h : closedb h = true -> closed h.
Proof.
  unfold closedb. rewrite forallb_forall. intros H l n ch l' Hl Hch.
  assert (In n h) as Hn.
  { apply list_elem_of_In. by eapply list_elem_of_lookup_2. }
  specialize (H n Hn). rewrite forallb_forall in H.
  specialize (H (ch, l')). simpl in H. apply Nat.ltb_lt, H.
  apply list_elem_of_In. by apply elem_of_map_to_list.
Qed.

Lemma abc_store_reached :
  Put [] None "abc" (UInt32 1) = Ok (Scenarios.abc_store, Scenarios.abc_trie).
Proof. vm_compute. reflexivity. Qed.

Lemma Put_persistent_witness :
  ∃ h' t1,
    Put Scenarios.abc_store Scenarios.abc_trie "abc" (UInt32 2) = Ok (h', t1) ∧
    (∀ T k', Get T h' Scenarios.abc_trie k'
             = Get T Scenarios.abc_store Scenarios.abc_trie k') ∧
    Get (type_of (UInt32 2)) h' t1 "abc" = Ok (Some (move_construct (UInt32 2))) ∧
    (type_of (UInt32 2) ≠ TMoveBlocked ->
     Get (type_of (UInt32 2)) h' t1 "abc" = Ok (Some (UInt32 2))).
Proof.
  apply (Put_persistent Scenarios.abc_store Scenarios.abc_trie "abc" (UInt32 2)).
  - apply closedb_sound. vm_compute. reflexivity.
  - simpl. lia.
Defined.

(** Scenario S5: three versions of a trie, each answering for itself. *)
Example s5_versions :
  ('(h, t1) ← Put [] None "abc" (UInt32 1);
   '(h, t2) ← Put h t1 "abc" (UInt32 2);
   a ← Get TUInt32 h None "abc";
   b ← Get TUInt32 h t1 "abc";
   c ← Get TUInt32 h t2 "abc";
   d ← Get TUInt64 h t2 "abc";
   Ok (a, b, c, d))
  = Ok (None, Some (UInt32 1), Some (UInt32 2), None).
Proof. vm_compute. reflexivity. Qed.

(** Scenario S6: removal collapses the branches that hold nothing. *)
Example s6_collapse :
  ('(h, t) ← Put [] None "ab" (UInt32 1);
   '(h, t) ← Put h t "abc" (UInt32 2);
   '(h, t3) ← Remove h t "abc";
   a ← Get TUInt32 h t3 "abc";
   b ← Get TUInt32 h t3 "ab";
   '(h, t4) ← Remove h t3 "ab";
   Ok (a, b, t4))
  = Ok (None, Some (UInt32 1), None).
Proof. vm_compute. reflexivity. Qed.

End TrieFacts.

(** * Further properties of the LRU-K replacer *)

Module ReplacerMore.

Import Replacer ReplacerFacts.

(** ** Counting flags *)

Lemma flagged_cons b l : flagged (b :: l) = Z.b2z b + flagged l.
Proof.
  unfold flagged. destruct b.
  - rewrite filter_cons_True by done. simpl length. simpl Z.b2z. lia.
  - rewrite filter_cons_False by done. simpl. lia.
Qed.

Lemma flagged_bounds l : 0 <= flagged l <= Z.of_nat (length l).
Proof.
  unfold flagged. pose proof (length_filter (fun b : bool => b = true) l). lia.
Qed.

Lemma flagged_insert l i old x :
  l !! i = Some old ->
  flagged (<[i := x]> l) = flagged l - Z.b2z old + Z.b2z x.
Proof.
  revert i. induction l as [|b l IH]; intros i Hi; [done|].
  destruct i as [|i]; simpl in *.
  - injection Hi as ->. rewrite !flagged_cons. lia.
  - rewrite !flagged_cons, (IH i Hi). lia.
Qed.

Lemma flagged_replicate_false n : flagged (replicate n false) = 0.
Proof.
  induction n as [|n IH]; [done|]. simpl replicate. rewrite flagged_cons, IH. done.
Qed.

Lemma vec_at_lookup v i b : vec_at v i = Ok b -> 0 <= i ∧ v !! Z.to_nat i = Some b.
Proof.
  unfold vec_at. case_decide; [|done].
  destruct (v !! Z.to_nat i); [|done]. intros [= ->]. done.
Qed.

Lemma vec_set_flagged v i old x v' :
  vec_at v i = Ok old -> vec_set v i x = Ok v' ->
  flagged v' = flagged v - Z.b2z old + Z.b2z x.
Proof.
  intros Ha Hs. apply vec_at_lookup in Ha as [Hi Hl].
  unfold vec_set in Hs. rewrite decide_True, Hl in Hs by done.
  injection Hs as <-. by apply flagged_insert.
Qed.

Lemma wrap64_small z : 0 <= z < 2 ^ 64 -> wrap64 z = z.
Proof. intros H. unfold wrap64. by apply Z.mod_small. Qed.

Lemma to_int_range z : - 2 ^ 31 <= to_int z < 2 ^ 31.
Proof.
  unfold to_int. pose proof (Z.mod_pos_bound (z + 2 ^ 31) (2 ^ 32)). lia.
Qed.

(** ** Node identities *)

Lemma drop_node_frame (l : list lnode) (m : gmap Z nat) it f :
  (∀ n, n ∈ l -> m !! n.2 = Some n.1) ->
  (∀ n n', n ∈ l -> n' ∈ l -> n.1 = n'.1 -> n = n') ->
  (it, f) ∈ l ->
  drop_node it l = filter (fun n : lnode => n.2 ≠ f) l.
Proof.
  intros Hm Hinj Hin. unfold drop_node.
  assert (∀ n, n ∈ l -> (n.1 ≠ it ↔ n.2 ≠ f)) as Hiff.
  { intros n Hn. split; intros Hne E; apply Hne.
    - pose proof (Hm n Hn) as H1. pose proof (Hm _ Hin) as H2. simpl in H2.
      rewrite E in H1. congruence.
    - by rewrite (Hinj n (it, f) Hn Hin E). }
  clear Hm Hinj Hin. induction l as [|n l IH]; [done|].
  rewrite !filter_cons.
  assert (n.1 ≠ it ↔ n.2 ≠ f) as Hn by (apply Hiff; left).
  assert (IH' := IH (fun k Hk => Hiff k (list_elem_of_further _ _ _ Hk))).
  destruct (decide (n.1 ≠ it)), (decide (n.2 ≠ f));
    solve [tauto | f_equal; exact IH' | exact IH'].
Qed.

Lemma frames_of_filter f (l : list lnode) :
  frames_of (filter (fun n : lnode => n.2 ≠ f) l) = without f (frames_of l).
Proof.
  unfold frames_of, without. induction l as [|n l IH]; [done|].
  rewrite fmap_cons, !filter_cons. case_decide.
  - by rewrite fmap_cons, IH.
  - done.
Qed.

Lemma without_absent f l : f ∉ l -> without f l = l.
Proof.
  unfold without. induction l as [|g l IH]; [done|]. intros Hf.
  apply not_elem_of_cons in Hf as [Hne Hf].
  rewrite filter_cons_True by done. by rewrite IH.
Qed.

Lemma elem_of_without f g l : g ∈ without f l ↔ g ≠ f ∧ g ∈ l.
Proof. unfold without. by rewrite list_elem_of_filter. Qed.

Lemma ids_injective_sub l l' :
  (∀ n, n ∈ l' -> n ∈ l) -> ids_injective l -> ids_injective l'.
Proof. intros Hsub Hinj n m Hn Hm. apply Hinj; auto. Qed.

Lemma ids_injective_push l l' (next : nat) f :
  (∀ n, n ∈ l' -> n = (next, f) ∨ n ∈ l) ->
  (∀ n, n ∈ l -> (n.1 < next)%nat) ->
  ids_injective l -> ids_injective l'.
Proof.
  intros Hsub Hlt Hinj n m Hn Hm E.
  destruct (Hsub n Hn) as [-> | Hn'], (Hsub m Hm) as [-> | Hm']; simpl in *.
  - done.
  - specialize (Hlt m Hm'). lia.
  - specialize (Hlt n Hn'). lia.
  - by apply Hinj.
Qed.

Lemma list_erase_ok l it l' : list_erase l it = Ok l' -> l' = drop_node it l.
Proof. unfold list_erase. case_decide; by intros [= <-]. Qed.

Lemma drop_node_NoDup it l : NoDup l -> NoDup (drop_node it l).
Proof. apply NoDup_filter. Qed.

Lemma fresh_not_member (l : list lnode) (next : nat) f :
  (∀ n, n ∈ l -> (n.1 < next)%nat) -> (next, f) ∉ l.
Proof. intros Hlt Hin. specialize (Hlt _ Hin). simpl in Hlt. lia. Qed.

(** Erasing the node of [f] keeps the map entries of the other frames
    alive. *)
Lemma live_after_erase (l : list lnode) (m : gmap Z nat) it f :
  ids_injective l ->
  (∀ g j, m !! g = Some j -> (j, g) ∈ l) ->
  m !! f = Some it ->
  ∀ g j, delete f m !! g = Some j -> (j, g) ∈ drop_node it l.
Proof.
  intros Hinj Hlive Hf g j Hg.
  apply lookup_delete_Some in Hg as [Hne Hg].
  unfold drop_node. apply list_elem_of_filter. split; [|by apply Hlive].
  simpl. intros ->. apply Hne.
  pose proof (Hinj (it, f) (it, g) (Hlive _ _ Hf) (Hlive _ _ Hg) eq_refl).
  congruence.
Qed.

Section tidy_steps.
Context (s : LRUKReplacer) (Hc : consistent s) (Ht : tidy s).

Lemma tidy_injective : ids_injective (history_list_ s ++ cache_list_ s).
Proof. exact (ids_inj s Ht). Qed.

Lemma tidy_hist_injective : ids_injective (history_list_ s).
Proof.
  eapply ids_injective_sub; [|exact tidy_injective].
  intros n Hn. apply elem_of_app. by left.
Qed.

Lemma tidy_cache_injective : ids_injective (cache_list_ s).
Proof.
  eapply ids_injective_sub; [|exact tidy_injective].
  intros n Hn. apply elem_of_app. by right.
Qed.

Lemma flagged_fits : 0 <= flagged (is_accessible_ s) <= 2 ^ 31.
Proof.
  pose proof (flagged_bounds (is_accessible_ s)).
  pose proof (flags_len s Hc). pose proof (to_int_range (replacer_size_ s)). lia.
Qed.
End tidy_steps.

Lemma RecordAccess_tidy s f s' :
  consistent s -> tidy s -> RecordAccess s f = Ok s' -> tidy s'.
Proof.
  intros Hc Ht. unfold RecordAccess.
  case_decide as Hg; [done|]. simpl.
  pose proof (ids_below s Ht) as Hbelow.
  pose proof (tidy_injective s Ht) as Hinj.
  destruct (decide (wrap64 (count_of (use_count_ s) f + 1) = k_ s)) as [Hk | Hk].
  - (* the K-th access *)
    intros H. apply bind_ok in H as (hl & Hhl & H). injection H as <-.
    assert (∀ n, n ∈ hl -> n ∈ history_list_ s) as Hsub.
    { destruct (history_map_ s !! f) as [it|]; [|by injection Hhl as <-].
      intros n Hn. by eapply list_erase_subset. }
    constructor; simpl.
    + intros n Hn. apply elem_of_app in Hn as [Hn | Hn].
      * assert (n.1 < next_node_ s)%nat; [|lia].
        apply Hbelow, elem_of_app. left. auto.
      * apply elem_of_cons in Hn as [-> | Hn]; [simpl; lia|].
        assert (n.1 < next_node_ s)%nat; [|lia].
        apply Hbelow, elem_of_app. by right.
    + eapply (ids_injective_push _ _ (next_node_ s) f); [|exact Hbelow|exact Hinj].
      intros n Hn. rewrite !elem_of_app, elem_of_cons in *.
      destruct Hn as [Hn | [-> | Hn]]; auto.
    + destruct (history_map_ s !! f).
      * apply list_erase_ok in Hhl as ->. apply drop_node_NoDup, Ht.
      * injection Hhl as <-. apply Ht.
    + apply NoDup_cons. split; [|apply Ht].
      apply fresh_not_member. intros n Hn. apply Hbelow, elem_of_app. by right.
    + destruct (history_map_ s !! f) as [it|] eqn:E.
      * apply list_erase_ok in Hhl as ->.
        eapply live_after_erase; [apply tidy_hist_injective, Ht | apply Ht | done].
      * injection Hhl as <-. intros g j Hgj.
        apply lookup_delete_Some in Hgj as [_ Hgj]. by apply (hist_live s Ht).
    + apply Ht.
  - destruct (decide (wrap64 (count_of (use_count_ s) f + 1) > k_ s)) as [Hgt | Hle].
    + (* beyond K *)
      intros H.
      assert (∃ cl, s' = set_cache (set_use_count s
                      (<[f := wrap64 (count_of (use_count_ s) f + 1)]> (use_count_ s)))
                      cl (cache_map_ s) ∧
                    (∀ n, n ∈ cl -> n ∈ cache_list_ s) ∧ NoDup cl) as (cl & -> & Hsub & Hnd).
      { destruct (cache_map_ s !! f) as [it|].
        - apply bind_ok in H as (cl & Hcl & H). injection H as <-.
          exists cl. split; [done|]. split.
          + intros n Hn. by eapply list_erase_subset.
          + apply list_erase_ok in Hcl as ->. apply drop_node_NoDup, Ht.
        - injection H as <-. exists (cache_list_ s). split; [by destruct s|].
          split; [done | apply Ht]. }
      constructor; simpl; try apply Ht; try done.
      * intros n Hn. apply Hbelow. rewrite !elem_of_app in *.
        destruct Hn; auto.
      * eapply ids_injective_sub; [|exact Hinj].
        intros n Hn. rewrite !elem_of_app in *. destruct Hn; auto.
    + (* below K *)
      destruct (history_map_ s !! f) as [it|] eqn:E; intros H; injection H as <-.
      * constructor; simpl; apply Ht.
      * constructor; simpl; try apply Ht.
        -- intros n Hn. apply elem_of_cons in Hn as [-> | Hn]; [simpl; lia|].
           assert (n.1 < next_node_ s)%nat; [|lia]. by apply Hbelow.
        -- eapply (ids_injective_push _ _ (next_node_ s) f); [|exact Hbelow|exact Hinj].
           intros n Hn. apply elem_of_cons in Hn as [-> | Hn]; auto.
        -- apply NoDup_cons. split; [|apply Ht].
           apply fresh_not_member. intros n Hn. apply Hbelow, elem_of_app. by left.
        -- intros g j Hgj. rewrite lookup_insert in Hgj.
           case_decide; simplify_eq; [left|]. right. by apply (hist_live s Ht).
Qed.

Lemma new_tidy num_frames k : tidy (new num_frames k).
Proof.
  constructor; simpl; try (intros n Hn; by apply elem_of_nil in Hn).
  - intros n m Hn. by apply elem_of_nil in Hn.
  - constructor.
  - constructor.
  - intros f it Hf. by rewrite lookup_empty in Hf.
  - by rewrite flagged_replicate_false.
Qed.

Lemma SetEvictable_tidy s f b s' :
  consistent s -> tidy s -> SetEvictable s f b = Ok s' -> tidy s'.
Proof.
  intros Hc Ht. unfold SetEvictable.
  case_decide as Hg; [done|]. simpl. rewrite count_of_touch.
  case_decide as Hz.
  { intros [= <-]. constructor; simpl; apply Ht. }
  intros H. apply bind_ok in H as (old & Hold & H).
  apply bind_ok in H as (flags & Hflags & H). injection H as <-.
  assert (is_accessible_
            (if old && negb b
             then set_curr_size
                    (if negb old && b
                     then set_curr_size (set_use_count s (touch (use_count_ s) f))
                            (wrap64 (curr_size_ s + 1))
                     else set_use_count s (touch (use_count_ s) f))
                    (wrap64 (curr_size_
                       (if negb old && b
                        then set_curr_size (set_use_count s (touch (use_count_ s) f))
                               (wrap64 (curr_size_ s + 1))
                        else set_use_count s (touch (use_count_ s) f)) - 1))
             else
               if negb old && b
               then set_curr_size (set_use_count s (touch (use_count_ s) f))
                      (wrap64 (curr_size_ s + 1))
               else set_use_count s (touch (use_count_ s) f))
          = is_accessible_ s) as Hsame by (by destruct old, b).
  rewrite Hsame in Hflags.
  pose proof (vec_set_flagged _ _ _ _ _ Hold Hflags) as Hfl.
  pose proof (flagged_fits s Hc) as Hfit.
  pose proof (flagged_bounds flags) as Hb'.
  pose proof (size_flagged s Ht) as Hsz.
  constructor; simpl.
  - destruct old, b; simpl; apply Ht.
  - destruct old, b; simpl; apply Ht.
  - destruct old, b; simpl; apply Ht.
  - destruct old, b; simpl; apply Ht.
  - destruct old, b; simpl; apply Ht.
  - rewrite Hfl. destruct old, b; simpl in *; rewrite ?Hsz, ?wrap64_small; lia.
Qed.

Lemma Remove_tidy s f s' :
  consistent s -> tidy s -> Remove s f = Ok s' -> tidy s'.
Proof.
  intros Hc Ht. unfold Remove.
  case_decide as Hg; [done|].
  intros H. apply bind_ok in H as (old & Hold & H).
  destruct old; simpl in H; [|by injection H as <-].
  apply bind_ok in H as (s1 & Hs1 & H).
  apply bind_ok in H as (flags & Hflags & H). injection H as <-.
  rewrite count_of_touch in Hs1.
  pose proof (ids_below s Ht) as Hbelow.
  pose proof (tidy_injective s Ht) as Hinj.
  pose proof (flagged_fits s Hc) as Hfit.
  pose proof (flagged_bounds flags) as Hb'.
  pose proof (size_flagged s Ht) as Hsz.
  destruct (decide (count_of (use_count_ s) f < k_ s)) as [Hlt | Hge].
  - apply bind_ok in Hs1 as (hl & Hhl & Hs1). injection Hs1 as <-.
    simpl in *. unfold erase_via in Hhl.
    destruct (history_map_ s !! f) as [it|] eqn:E; [|done].
    pose proof (vec_set_flagged _ _ _ _ _ Hold Hflags) as Hfl.
    apply list_erase_ok in Hhl as ->.
    constructor; simpl.
    + intros n Hn. apply Hbelow. rewrite !elem_of_app in *.
      destruct Hn as [Hn | Hn]; [left; by eapply drop_node_subset | by right].
    + eapply ids_injective_sub; [|exact Hinj].
      intros n Hn. rewrite !elem_of_app in *.
      destruct Hn as [Hn | Hn]; [left; by eapply drop_node_subset | by right].
    + apply drop_node_NoDup, Ht.
    + apply Ht.
    + eapply live_after_erase; [apply tidy_hist_injective, Ht | apply Ht | done].
    + rewrite Hfl, Hsz. simpl in *. rewrite wrap64_small; lia.
  - apply bind_ok in Hs1 as (cl & Hcl & Hs1). injection Hs1 as <-.
    simpl in *. unfold erase_via in Hcl.
    destruct (cache_map_ s !! f) as [it|] eqn:E; [|done].
    pose proof (vec_set_flagged _ _ _ _ _ Hold Hflags) as Hfl.
    apply list_erase_ok in Hcl as ->.
    constructor; simpl.
    + intros n Hn. apply Hbelow. rewrite !elem_of_app in *.
      destruct Hn as [Hn | Hn]; [by left | right; by eapply drop_node_subset].
    + eapply ids_injective_sub; [|exact Hinj].
      intros n Hn. rewrite !elem_of_app in *.
      destruct Hn as [Hn | Hn]; [by left | right; by eapply drop_node_subset].
    + apply Ht.
    + apply drop_node_NoDup, Ht.
    + apply Ht.
    + rewrite Hfl, Hsz. simpl in *. rewrite wrap64_small; lia.
Qed.

Lemma scan_some_flag flags visit n :
  scan flags visit = Ok (Some n) -> vec_at flags n.2 = Ok true.
Proof.
  induction visit as [|m visit IH]; simpl; [done|].
  intros H. apply bind_ok in H as (b & Hb & H). destruct b.
  - by injection H as ->.
  - by apply IH.
Qed.

Lemma Evict_tidy s s' r :
  consistent s -> tidy s -> Evict s = Ok (s', r) -> tidy s'.
Proof.
  intros Hc Ht. unfold Evict.
  case_decide as He; [by intros [= <- <-]|].
  pose proof (ids_below s Ht) as Hbelow.
  pose proof (tidy_injective s Ht) as Hinj.
  pose proof (flagged_fits s Hc) as Hfit.
  pose proof (size_flagged s Ht) as Hsz.
  intros H. apply bind_ok in H as (h & Hh & H).
  destruct h as [[it f]|].
  - apply bind_ok in H as (flags & Hflags & H).
    apply bind_ok in H as (hl & Hhl & H). injection H as <- <-.
    pose proof (scan_some_flag _ _ _ Hh) as Hold. simpl in Hold.
    pose proof (vec_set_flagged _ _ _ _ _ Hold Hflags) as Hfl.
    pose proof (flagged_bounds flags) as Hb'.
    apply scan_some_member in Hh. rewrite elem_of_reverse in Hh.
    pose proof (hist_iter s Hc _ Hh) as Hit. simpl in Hit.
    apply list_erase_ok in Hhl as ->.
    constructor; simpl.
    + intros n Hn. apply Hbelow. rewrite !elem_of_app in *.
      destruct Hn as [Hn | Hn]; [left; by eapply drop_node_subset | by right].
    + eapply ids_injective_sub; [|exact Hinj].
      intros n Hn. rewrite !elem_of_app in *.
      destruct Hn as [Hn | Hn]; [left; by eapply drop_node_subset | by right].
    + apply drop_node_NoDup, Ht.
    + apply Ht.
    + eapply live_after_erase; [apply tidy_hist_injective, Ht | apply Ht | done].
    + rewrite Hfl, Hsz. simpl in *. rewrite wrap64_small; lia.
  - apply bind_ok in H as (c & Hcs & H).
    destruct c as [[it f]|]; [|by injection H as <- <-].
    apply bind_ok in H as (flags & Hflags & H).
    apply bind_ok in H as (cl & Hcl & H).
    apply ReplacerFacts.Evict_cache_branch_stuck in Hcl as Hdead.
    by rewrite Hdead in H.
Qed.

(** Both invariants hold in every reachable state. *)
Lemma reachable_invariants num_frames k s :
  0 <= num_frames <= INT_MAX -> k < 2 ^ 64 - 1 ->
  reachable num_frames k s -> consistent s ∧ tidy s.
Proof.
  intros HN Hk Hr. induction Hr as [|s f s' _ [Hc Ht] Hf H|s f b s' _ [Hc Ht] H
                                    |s f s' _ [Hc Ht] H|s s' r _ [Hc Ht] H].
  - split; [by apply new_consistent | apply new_tidy].
  - split; [by eapply RecordAccess_consistent | by eapply RecordAccess_tidy].
  - split; [by eapply SetEvictable_consistent | by eapply SetEvictable_tidy].
  - split; [by eapply Remove_consistent | by eapply Remove_tidy].
  - split; [by eapply Evict_consistent | by eapply Evict_tidy].
Qed.

(** The two parameters are never written after construction. *)
Lemma RecordAccess_params s f s' :
  RecordAccess s f = Ok s' -> replacer_size_ s' = replacer_size_ s ∧ k_ s' = k_ s.
Proof.
  unfold RecordAccess. case_decide; [done|]. simpl.
  repeat case_decide; repeat case_match; intros Hres;
    repeat (apply bind_ok in Hres as (? & ? & Hres)); by injection Hres as <-.
Qed.

Lemma SetEvictable_params s f b s' :
  SetEvictable s f b = Ok s' -> replacer_size_ s' = replacer_size_ s ∧ k_ s' = k_ s.
Proof.
  unfold SetEvictable. case_decide; [done|]. simpl.
  case_decide; [by intros [= <-]|].
  intros Hres. apply bind_ok in Hres as (old & ? & Hres).
  apply bind_ok in Hres as (? & ? & Hres). injection Hres as <-.
  by destruct old, b.
Qed.

Lemma Remove_params s f s' :
  Remove s f = Ok s' -> replacer_size_ s' = replacer_size_ s ∧ k_ s' = k_ s.
Proof.
  unfold Remove. case_decide; [done|].
  intros Hres. apply bind_ok in Hres as (old & ? & Hres).
  destruct old; simpl in Hres; [|by injection Hres as <-].
  apply bind_ok in Hres as (s1 & Hs1 & Hres).
  apply bind_ok in Hres as (? & ? & Hres). injection Hres as <-. simpl.
  revert Hs1. case_decide; intros Hs1;
    apply bind_ok in Hs1 as (? & ? & Hs1); by injection Hs1 as <-.
Qed.

Lemma Evict_params s s' r :
  Evict s = Ok (s', r) -> replacer_size_ s' = replacer_size_ s ∧ k_ s' = k_ s.
Proof.
  unfold Evict. case_decide; [by intros [= <- <-]|].
  intros Hres. apply bind_ok in Hres as (h & ? & Hres).
  destruct h as [[it f]|].
  - repeat (apply bind_ok in Hres as (? & ? & Hres)). by injection Hres as <- <-.
  - apply bind_ok in Hres as (c & ? & Hres).
    destruct c as [[it f]|]; [|by injection Hres as <- <-].
    repeat (apply bind_ok in Hres as (? & ? & Hres)). by injection Hres as <- <-.
Qed.

Lemma reachable_params num_frames k s :
  reachable num_frames k s -> replacer_size_ s = num_frames ∧ k_ s = k.
Proof.
  induction 1 as [|s f s' _ [IH1 IH2] _ Hres|s f b s' _ [IH1 IH2] Hres
                  |s f s' _ [IH1 IH2] Hres|s s' r _ [IH1 IH2] Hres].
  - done.
  - apply RecordAccess_params in Hres as [-> ->]. done.
  - apply SetEvictable_params in Hres as [-> ->]. done.
  - apply Remove_params in Hres as [-> ->]. done.
  - apply Evict_params in Hres as [-> ->]. done.
Qed.

(** Running calls from a reachable state leads to reachable states. *)
Lemma run_reachable num_frames k cs :
  ∀ s s', reachable num_frames k s ->
          forallb sane cs = true -> run s cs = Ok s' ->
          reachable num_frames k s'.
Proof.
  induction cs as [|c cs IH]; intros s s' Hr Hs Hrun.
  - by injection Hrun as <-.
  - simpl in Hs. apply andb_true_iff in Hs as [Hc Hs].
    simpl in Hrun. apply bind_ok in Hrun as (s1 & Hstep & Hrun).
    apply (IH s1 s'); [|done|done].
    destruct c as [f|f b| f|]; simpl in Hstep.
    + apply bool_decide_eq_true in Hc. by eapply reach_access.
    + by eapply reach_set.
    + by eapply reach_remove.
    + apply bind_ok in Hstep as ([s2 r] & He & Hstep). injection Hstep as <-.
      by eapply reach_evict.
Qed.

(** The state of scenario S3 is reachable. *)
Lemma s3_state_reachable : reachable 3 2 Scenarios.s3_state.
Proof.
  apply (run_reachable 3 2
           [CallRecordAccess 0; CallRecordAccess 1; CallRecordAccess 2;
            CallRecordAccess 0; CallSetEvictable 0 true;
            CallSetEvictable 1 true; CallSetEvictable 2 true]
           (new 3 2)).
  - apply reach_new.
  - reflexivity.
  - vm_compute. reflexivity.
Qed.

Lemma frames_NoDup (l : list lnode) (m : gmap Z nat) :
  (∀ n, n ∈ l -> m !! n.2 = Some n.1) -> NoDup l -> NoDup (frames_of l).
Proof.
  intros Hm Hnd. unfold frames_of. apply NoDup_fmap_2_strong; [|done].
  intros [i f] [j g] Hn Hn' E. simpl in E. subst g.
  pose proof (Hm _ Hn) as H1. pose proof (Hm _ Hn') as H2. simpl in *.
  congruence.
Qed.

Lemma elem_of_frames_of f (l : list lnode) :
  f ∈ frames_of l ↔ ∃ n, n ∈ l ∧ n.2 = f.
Proof.
  unfold frames_of. rewrite list_elem_of_fmap. split.
  - intros (n & -> & Hn). by exists n.
  - intros (n & Hn & <-). by exists n.
Qed.

(** ** The rings in reachable states *)

(** X1. Whatever calls were made, no frame sits twice on a ring or on both
    rings, every frame on a ring is between 0 and [num_frames], a frame on
    the history ring has fewer than [k] recorded accesses and a frame on the
    cache ring at least [k]. *)
Theorem reachable_rings_wellformed (num_frames k : Z) (s : LRUKReplacer) :
  0 <= num_frames <= INT_MAX -> k < 2 ^ 64 - 1 ->
  reachable num_frames k s ->
  NoDup (frames_of (history_list_ s)) ∧
  NoDup (frames_of (cache_list_ s)) ∧
  (∀ f, f ∈ frames_of (history_list_ s) -> f ∉ frames_of (cache_list_ s)) ∧
  (∀ f, f ∈ frames_of (history_list_ s ++ cache_list_ s) -> 0 <= f <= num_frames) ∧
  (∀ f, f ∈ frames_of (history_list_ s) -> count_of (use_count_ s) f < k) ∧
  (∀ f, f ∈ frames_of (cache_list_ s) -> k <= count_of (use_count_ s) f).
Proof.
  intros HN Hk Hr.
  destruct (reachable_invariants _ _ _ HN Hk Hr) as [Hc Ht].
  destruct (reachable_params _ _ _ Hr) as [HNs Hks].
  repeat split.
  - eapply frames_NoDup; [apply (hist_iter s Hc) | apply Ht].
  - eapply frames_NoDup; [apply (cache_iter s Hc) | apply Ht].
  - intros f Hh Hcl. apply elem_of_frames_of in Hh as (n & Hn & <-).
    apply elem_of_frames_of in Hcl as (m & Hm & E).
    pose proof (hist_count s Hc n Hn). pose proof (cache_count s Hc m Hm).
    rewrite E in *. lia.
  - apply elem_of_frames_of in H as (n & Hn & <-).
    by apply (in_range s Hc).
  - apply elem_of_frames_of in H as (n & Hn & <-).
    pose proof (in_range s Hc n Hn) as Hrng.
    rewrite (flags_len s Hc), HNs, to_int_small in Hrng; unfold INT_MAX in *; lia.
  - intros f Hf. apply elem_of_frames_of in Hf as (n & Hn & <-).
    rewrite <- Hks. by apply (hist_count s Hc).
  - intros f Hf. apply elem_of_frames_of in Hf as (n & Hn & <-).
    rewrite <- Hks, (cache_count s Hc n Hn). lia.
Qed.

Lemma reachable_rings_wellformed_witness :
  NoDup (frames_of (history_list_ Scenarios.s3_state)) ∧
  NoDup (frames_of (cache_list_ Scenarios.s3_state)) ∧
  (∀ f, f ∈ frames_of (history_list_ Scenarios.s3_state) ->
        f ∉ frames_of (cache_list_ Scenarios.s3_state)) ∧
  (∀ f, f ∈ frames_of (history_list_ Scenarios.s3_state
                       ++ cache_list_ Scenarios.s3_state) -> 0 <= f <= 3) ∧
  (∀ f, f ∈ frames_of (history_list_ Scenarios.s3_state) ->
        count_of (use_count_ Scenarios.s3_state) f < 2) ∧
  (∀ f, f ∈ frames_of (cache_list_ Scenarios.s3_state) ->
        2 <= count_of (use_count_ Scenarios.s3_state) f).
Proof.
  apply (reachable_rings_wellformed 3 2 Scenarios.s3_state).
  - unfold INT_MAX. lia.
  - lia.
  - exact s3_state_reachable.
Defined.

(** ** The size counter *)

(** X2. In every reachable state [Size] is the number of frames flagged
    evictable, and so lies between 0 and [num_frames + 1]. *)
Theorem reachable_size_accurate (num_frames k : Z) (s : LRUKReplacer) :
  0 <= num_frames <= INT_MAX -> k < 2 ^ 64 - 1 ->
  reachable num_frames k s ->
  Size s = flagged (is_accessible_ s) ∧ 0 <= Size s <= num_frames + 1.
Proof.
  intros HN Hk Hr.
  destruct (reachable_invariants _ _ _ HN Hk Hr) as [Hc Ht].
  destruct (reachable_params _ _ _ Hr) as [HNs Hks].
  unfold Size. rewrite (size_flagged s Ht). split; [done|].
  pose proof (flagged_bounds (is_accessible_ s)) as Hb.
  rewrite (flags_len s Hc), HNs, to_int_small in Hb; unfold INT_MAX in *; lia.
Qed.

Lemma reachable_size_accurate_witness :
  Size Scenarios.s3_state = flagged (is_accessible_ Scenarios.s3_state)
  ∧ 0 <= Size Scenarios.s3_state <= 3 + 1.
Proof.
  apply (reachable_size_accurate 3 2 Scenarios.s3_state).
  - unfold INT_MAX. lia.
  - lia.
  - exact s3_state_reachable.
Defined.

(** ** [Evict] *)

Lemma tail_victim_not_none s ring n : tail_victim s ring n -> ¬ no_victim s ring.
Proof.
  intros Hv Hn. apply tail_victim_member in Hv as Hin.
  destruct Hv as (_ & _ & _ & He & _).
  exact (no_victim_not_evictable s ring n Hn Hin He).
Qed.

(** X3. When the rings agree with the maps and the flag vector, [Evict]
    reports failure exactly when no frame on either ring is flagged
    evictable: then it returns [false], changes nothing and leaves 0 in
    [*frame_id]; in no other state does it return [false]. *)
Theorem Evict_fails_exactly (s : LRUKReplacer) :
  rings_ok s ->
  (no_victim s (history_list_ s) ∧ no_victim s (cache_list_ s)
   ↔ Evict s = Ok (s, (false, 0))) ∧
  (∀ s' f, Evict s = Ok (s', (false, f)) -> s' = s ∧ f = 0).
Proof.
  intros Hok.
  destruct (ring_in_range s Hok) as [Hrh Hrc].
  split.
  - unfold Evict. case_decide as He.
    + (* both maps are empty: so are both rings *)
      split; [done|]. intros _. destruct He as [Hh Hcm].
      split; apply Forall_forall; intros n Hn; exfalso.
      * apply (history_keys s Hok) in Hn as [x Hx]. by rewrite Hh in Hx.
      * apply (cache_keys s Hok) in Hn as [x Hx]. by rewrite Hcm in Hx.
    + destruct (scan_ring s (history_list_ s) Hrh) as [[Hs Hnone] | (n & Hs & Hv)];
        rewrite Hs; simpl.
      * destruct (scan_ring s (cache_list_ s) Hrc) as [[Hs' Hnone'] | (n & Hs' & Hv)];
          rewrite Hs'; simpl; [done|].
        pose proof (tail_victim_member _ _ _ Hv) as Hin.
        destruct n as [it f]. simpl in *.
        rewrite (vec_set_in_range _ f false) by exact (Hrc (it, f) Hin).
        pose proof (list_erase_member _ (it, f) Hin) as Hl. simpl in Hl.
        simpl. rewrite Hl. simpl. rewrite list_deref_erased.
        split; [|done]. intros [_ Hno]. exfalso.
        by apply (tail_victim_not_none _ _ _ Hv).
      * pose proof (tail_victim_member _ _ _ Hv) as Hin.
        destruct n as [it f]. simpl in *.
        rewrite (vec_set_in_range _ f false) by exact (Hrh (it, f) Hin).
        pose proof (list_erase_member _ (it, f) Hin) as Hl. simpl in Hl.
        simpl. rewrite Hl. simpl.
        split; [|done]. intros [Hno _]. exfalso.
        by apply (tail_victim_not_none _ _ _ Hv).
  - intros s' f. unfold Evict. case_decide as He; [by intros [= <- <-]|].
    intros H. apply bind_ok in H as (h & Hh & H).
    destruct h as [[it g]|].
    + apply bind_ok in H as (flags & Hflags & H).
      apply bind_ok in H as (hl & Hhl & H). done.
    + apply bind_ok in H as (c & Hcs & H).
      destruct c as [[it g]|]; [|by injection H as <- <-].
      apply bind_ok in H as (flags & Hflags & H).
      apply bind_ok in H as (cl & Hcl & H).
      apply Evict_cache_branch_stuck in Hcl as Hdead. by rewrite Hdead in H.
Qed.

Lemma s3_pinned_reached :
  run (new 3 2)
      [CallRecordAccess 0; CallRecordAccess 1; CallRecordAccess 2; CallRecordAccess 0]
  = Ok Scenarios.s3_pinned.
Proof. vm_compute. reflexivity. Qed.

Lemma s3_pinned_rings_ok : rings_ok Scenarios.s3_pinned.
Proof.
  constructor; simpl.
  - intros n Hn. repeat (apply elem_of_cons in Hn as [-> | Hn]);
      [vm_compute; eauto .. | by apply elem_of_nil in Hn].
  - intros n Hn. repeat (apply elem_of_cons in Hn as [-> | Hn]);
      [vm_compute; eauto .. | by apply elem_of_nil in Hn].
  - intros n Hn. repeat (apply elem_of_cons in Hn as [-> | Hn]);
      [simpl; lia .. | by apply elem_of_nil in Hn].
  - reflexivity.
Qed.

Lemma Evict_fails_exactly_witness :
  (no_victim Scenarios.s3_pinned (history_list_ Scenarios.s3_pinned)
   ∧ no_victim Scenarios.s3_pinned (cache_list_ Scenarios.s3_pinned)
   ↔ Evict Scenarios.s3_pinned = Ok (Scenarios.s3_pinned, (false, 0))) ∧
  (∀ s' f, Evict Scenarios.s3_pinned = Ok (s', (false, f)) ->
           s' = Scenarios.s3_pinned ∧ f = 0).
Proof.
  apply (Evict_fails_exactly Scenarios.s3_pinned).
  exact s3_pinned_rings_ok.
Defined.

Lemma vec_at_set v i b v' j :
  vec_set v i b = Ok v' ->
  vec_at v' j = if decide (i = j) then Ok b else vec_at v j.
Proof.
  unfold vec_set, vec_at. case_decide as Hi; [|done].
  destruct (v !! Z.to_nat i) as [old|] eqn:E; [|done]. intros [= <-].
  apply lookup_lt_Some in E as Hlt.
  destruct (decide (i = j)) as [<- | Hne].
  - rewrite decide_True by done. by rewrite list_lookup_insert_eq.
  - case_decide; [|done]. rewrite list_lookup_insert_ne by lia. done.
Qed.

Lemma without_frames_absent f (l : list lnode) :
  (∀ n, n ∈ l -> n.2 ≠ f) -> without f (frames_of l) = frames_of l.
Proof.
  intros H. apply without_absent. intros Hf.
  apply elem_of_frames_of in Hf as (n & Hn & E). by apply (H n Hn).
Qed.

(** X4. A successful [Evict] in a reachable state: the victim was flagged
    evictable; afterwards it is on neither ring, its use count is zero, its
    flag is cleared and [Size] is one less.  The other frames keep their
    places on the rings, their counts and their flags. *)
Theorem Evict_effect (num_frames k : Z) (s s' : LRUKReplacer) (f : Z) :
  0 <= num_frames <= INT_MAX -> k < 2 ^ 64 - 1 ->
  reachable num_frames k s ->
  Evict s = Ok (s', (true, f)) ->
  evictable s f ∧ pinned s' f ∧
  count_of (use_count_ s') f = 0 ∧
  Size s' = Size s - 1 ∧
  frames_of (history_list_ s') = without f (frames_of (history_list_ s)) ∧
  frames_of (cache_list_ s') = without f (frames_of (cache_list_ s)) ∧
  ∀ g, g ≠ f ->
    count_of (use_count_ s') g = count_of (use_count_ s) g ∧
    vec_at (is_accessible_ s') g = vec_at (is_accessible_ s) g.
Proof.
  intros HN Hk Hr.
  destruct (reachable_invariants _ _ _ HN Hk Hr) as [Hc Ht].
  pose proof (flagged_fits s Hc) as Hfit.
  pose proof (size_flagged s Ht) as Hsz.
  unfold Evict, Size. case_decide as He; [done|].
  intros H. apply bind_ok in H as (h & Hh & H).
  destruct h as [[it v]|].
  - apply bind_ok in H as (flags & Hflags & H).
    apply bind_ok in H as (hl & Hhl & H). injection H as <- <-.
    pose proof (scan_some_flag _ _ _ Hh) as Hold. simpl in Hold.
    pose proof (vec_set_flagged _ _ _ _ _ Hold Hflags) as Hfl.
    pose proof (flagged_bounds flags) as Hb'.
    apply scan_some_member in Hh. rewrite elem_of_reverse in Hh.
    apply list_erase_ok in Hhl as ->.
    rewrite (drop_node_frame _ _ _ _ (hist_iter s Hc) (tidy_hist_injective s Ht) Hh).
    simpl. split; [done|]. split.
    { unfold pinned. simpl. rewrite (vec_at_set _ _ _ _ v Hflags).
      by rewrite decide_True. }
    split; [by rewrite count_of_insert, decide_True|].
    split; [rewrite Hsz; simpl in *; rewrite wrap64_small; lia|].
    split; [apply frames_of_filter|]. split.
    { symmetry. apply without_frames_absent. intros n Hn E.
      pose proof (hist_count s Hc _ Hh). pose proof (cache_count s Hc n Hn).
      simpl in *. rewrite E in *. lia. }
    intros g Hg. rewrite count_of_insert, decide_False by done.
    rewrite (vec_at_set _ _ _ _ g Hflags), decide_False by done. done.
  - apply bind_ok in H as (c & Hcs & H).
    destruct c as [[it v]|]; [|done].
    apply bind_ok in H as (flags & Hflags & H).
    apply bind_ok in H as (cl & Hcl & H).
    apply Evict_cache_branch_stuck in Hcl as Hdead. by rewrite Hdead in H.
Qed.

Lemma Evict_effect_witness :
  ∃ s',
    Evict Scenarios.s3_state = Ok (s', (true, 1)) ∧
    (evictable Scenarios.s3_state 1 ∧ pinned s' 1 ∧
     count_of (use_count_ s') 1 = 0 ∧
     Size s' = Size Scenarios.s3_state - 1 ∧
     frames_of (history_list_ s')
       = without 1 (frames_of (history_list_ Scenarios.s3_state)) ∧
     frames_of (cache_list_ s')
       = without 1 (frames_of (cache_list_ Scenarios.s3_state)) ∧
     ∀ g, g ≠ 1 ->
       count_of (use_count_ s') g = count_of (use_count_ Scenarios.s3_state) g ∧
       vec_at (is_accessible_ s') g = vec_at (is_accessible_ Scenarios.s3_state) g).
Proof.
  eexists. split; [vm_compute; reflexivity|].
  apply (Evict_effect 3 2 Scenarios.s3_state).
  - unfold INT_MAX. lia.
  - lia.
  - exact s3_state_reachable.
  - vm_compute. reflexivity.
Defined.

(** ** [RecordAccess] up to the K-th access *)

Lemma history_key_iff s f :
  consistent s -> tidy s ->
  (history_map_ s !! f = None ↔ f ∉ frames_of (history_list_ s)).
Proof.
  intros Hc Ht. split.
  - intros Hnone Hf. apply elem_of_frames_of in Hf as (n & Hn & <-).
    pose proof (hist_iter s Hc n Hn). congruence.
  - intros Hf. destruct (history_map_ s !! f) as [it|] eqn:E; [|done].
    exfalso. apply Hf, elem_of_frames_of. exists (it, f).
    split; [by apply (hist_live s Ht) | done].
Qed.

(** An access to a frame with fewer than [k] recorded accesses, case by
    case. *)
Lemma RecordAccess_cases (num_frames k : Z) (s : LRUKReplacer) (f : Z) :
  0 <= num_frames <= INT_MAX -> k < 2 ^ 64 - 1 ->
  reachable num_frames k s ->
  0 <= f <= num_frames ->
  count_of (use_count_ s) f < k ->
  ∃ s',
    RecordAccess s f = Ok s' ∧
    count_of (use_count_ s') f = count_of (use_count_ s) f + 1 ∧
    is_accessible_ s' = is_accessible_ s ∧ Size s' = Size s ∧
    (count_of (use_count_ s) f + 1 = k ->
       frames_of (history_list_ s') = without f (frames_of (history_list_ s)) ∧
       frames_of (cache_list_ s') = f :: frames_of (cache_list_ s)) ∧
    (count_of (use_count_ s) f + 1 < k ->
       frames_of (cache_list_ s') = frames_of (cache_list_ s) ∧
       (f ∈ frames_of (history_list_ s) ->
          frames_of (history_list_ s') = frames_of (history_list_ s)) ∧
       (f ∉ frames_of (history_list_ s) ->
          frames_of (history_list_ s') = f :: frames_of (history_list_ s))).
Proof.
  intros HN Hk Hr Hf Hlt.
  destruct (reachable_invariants _ _ _ HN Hk Hr) as [Hc Ht].
  destruct (reachable_params _ _ _ Hr) as [HNs Hks].
  pose proof (counts_nonneg s Hc f) as Hnn.
  pose proof (history_key_iff s f Hc Ht) as Hkey.
  unfold RecordAccess, Size.
  rewrite HNs, to_int_small by (unfold INT_MAX in *; lia).
  rewrite decide_False by lia. simpl.
  rewrite wrap64_small by lia. rewrite Hks.
  destruct (decide (count_of (use_count_ s) f + 1 = k)) as [Heq | Hne].
  - (* the k-th access *)
    assert (∃ hl, (match history_map_ s !! f with
                   | Some it => list_erase (history_list_ s) it
                   | None => Ok (history_list_ s)
                   end) = Ok hl ∧
                  frames_of hl = without f (frames_of (history_list_ s)))
      as (hl & -> & Hhl).
    { destruct (history_map_ s !! f) as [it|] eqn:E.
      - pose proof (hist_live s Ht _ _ E) as Hin.
        pose proof (list_erase_member _ _ Hin) as Hl. simpl in Hl.
        eexists. split; [exact Hl|].
        rewrite (drop_node_frame _ _ _ _ (hist_iter s Hc) (tidy_hist_injective s Ht) Hin).
        apply frames_of_filter.
      - eexists. split; [done|]. symmetry. apply without_absent. by apply Hkey. }
    simpl. eexists. split; [reflexivity|]. simpl.
    split; [by rewrite count_of_insert, decide_True|].
    split; [done|]. split; [done|]. split; [done|]. lia.
  - rewrite decide_False by lia.
    destruct (history_map_ s !! f) as [it|] eqn:E.
    + eexists. split; [reflexivity|]. simpl.
      split; [by rewrite count_of_insert, decide_True|].
      split; [done|]. split; [done|]. split; [lia|]. intros _.
      split; [done|]. split; [done|]. intros Hno.
      apply Hkey in Hno. congruence.
    + eexists. split; [reflexivity|]. simpl.
      split; [by rewrite count_of_insert, decide_True|].
      split; [done|]. split; [done|]. split; [lia|]. intros _.
      split; [done|]. split; [|done]. intros Hin.
      exfalso. by apply (proj1 Hkey).
Qed.

(** X5. The [k]-th access, in a reachable state, to a frame between 0 and
    [num_frames]: the call returns, the frame leaves the history ring and
    becomes the front of the cache ring, the other frames keep their order,
    and flags and [Size] are untouched. *)
Theorem RecordAccess_kth (num_frames k : Z) (s : LRUKReplacer) (f : Z) :
  0 <= num_frames <= INT_MAX -> k < 2 ^ 64 - 1 ->
  reachable num_frames k s ->
  0 <= f <= num_frames ->
  count_of (use_count_ s) f + 1 = k ->
  ∃ s',
    RecordAccess s f = Ok s' ∧
    count_of (use_count_ s') f = k ∧
    frames_of (history_list_ s') = without f (frames_of (history_list_ s)) ∧
    frames_of (cache_list_ s') = f :: frames_of (cache_list_ s) ∧
    is_accessible_ s' = is_accessible_ s ∧ Size s' = Size s.
Proof.
  intros HN Hk Hr Hf Heq.
  destruct (RecordAccess_cases num_frames k s f HN Hk Hr Hf ltac:(lia))
    as (s' & HR & Hcnt & Hfl & Hsz & Hkth & _).
  destruct (Hkth Heq) as [Hh Hcl].
  exists s'. repeat split; try done. lia.
Qed.

Lemma RecordAccess_kth_witness :
  ∃ s',
    RecordAccess Scenarios.s3_state 1 = Ok s' ∧
    count_of (use_count_ s') 1 = 2 ∧
    frames_of (history_list_ s')
      = without 1 (frames_of (history_list_ Scenarios.s3_state)) ∧
    frames_of (cache_list_ s')
      = 1 :: frames_of (cache_list_ Scenarios.s3_state) ∧
    is_accessible_ s' = is_accessible_ Scenarios.s3_state ∧
    Size s' = Size Scenarios.s3_state.
Proof.
  apply (RecordAccess_kth 3 2 Scenarios.s3_state 1).
  - unfold INT_MAX. lia.
  - lia.
  - exact s3_state_reachable.
  - lia.
  - vm_compute. reflexivity.
Defined.

(** X6. An access before the [k]-th, in a reachable state, to a frame
    between 0 and [num_frames]: the call returns; a frame not yet on the
    history ring becomes its front, a frame already there keeps its place
    (the ring is ordered by first access); the cache ring, the flags and
    [Size] are untouched. *)
Theorem RecordAccess_before_kth (num_frames k : Z) (s : LRUKReplacer) (f : Z) :
  0 <= num_frames <= INT_MAX -> k < 2 ^ 64 - 1 ->
  reachable num_frames k s ->
  0 <= f <= num_frames ->
  count_of (use_count_ s) f + 1 < k ->
  ∃ s',
    RecordAccess s f = Ok s' ∧
    count_of (use_count_ s') f = count_of (use_count_ s) f + 1 ∧
    frames_of (history_list_ s') =
      (if decide (f ∈ frames_of (history_list_ s))
       then frames_of (history_list_ s)
       else f :: frames_of (history_list_ s)) ∧
    frames_of (cache_list_ s') = frames_of (cache_list_ s) ∧
    is_accessible_ s' = is_accessible_ s ∧ Size s' = Size s.
Proof.
  intros HN Hk Hr Hf Hlt.
  destruct (RecordAccess_cases num_frames k s f HN Hk Hr Hf ltac:(lia))
    as (s' & HR & Hcnt & Hfl & Hsz & _ & Hbelow).
  destruct (Hbelow Hlt) as (Hcl & Hin & Hout).
  exists s'. repeat split; try done.
  case_decide; auto.
Qed.

Lemma RecordAccess_before_kth_witness :
  ∃ s',
    RecordAccess Scenarios.s3_state 3 = Ok s' ∧
    count_of (use_count_ s') 3 = count_of (use_count_ Scenarios.s3_state) 3 + 1 ∧
    frames_of (history_list_ s') =
      (if decide (3 ∈ frames_of (history_list_ Scenarios.s3_state))
       then frames_of (history_list_ Scenarios.s3_state)
       else 3 :: frames_of (history_list_ Scenarios.s3_state)) ∧
    frames_of (cache_list_ s') = frames_of (cache_list_ Scenarios.s3_state) ∧
    is_accessible_ s' = is_accessible_ Scenarios.s3_state ∧
    Size s' = Size Scenarios.s3_state.
Proof.
  apply (RecordAccess_before_kth 3 2 Scenarios.s3_state 3).
  - unfold INT_MAX. lia.
  - lia.
  - exact s3_state_reachable.
  - lia.
  - vm_compute. reflexivity.
Defined.

(** ** [SetEvictable] *)

Lemma touch_touch m f : touch (touch m f) f = touch m f.
Proof.
  unfold touch. destruct (m !! f) eqn:E; [by rewrite E|].
  by rewrite lookup_insert_eq.
Qed.

Lemma vec_set_again v i b v' : vec_set v i b = Ok v' -> vec_set v' i b = Ok v'.
Proof.
  unfold vec_set. case_decide; [|done].
  destruct (v !! Z.to_nat i) eqn:E; [|done]. intros [= <-].
  apply lookup_lt_Some in E.
  rewrite list_lookup_insert_eq by done. by rewrite list_insert_insert_eq.
Qed.

(** X7. [SetEvictable] is idempotent: repeating a call that returned, with
    the same frame and flag, returns the state unchanged ([Size] is not
    adjusted a second time). *)
Theorem SetEvictable_idempotent (s s1 : LRUKReplacer) (f : Z) (b : bool) :
  SetEvictable s f b = Ok s1 -> SetEvictable s1 f b = Ok s1.
Proof.
  intros H. pose proof (SetEvictable_params _ _ _ _ H) as [HN _].
  revert H. unfold SetEvictable. rewrite HN.
  case_decide as Hg; [done|]. simpl. rewrite !count_of_touch.
  case_decide as Hz.
  - intros [= <-]. simpl. rewrite count_of_touch, decide_True by done.
    by rewrite touch_touch.
  - intros H. apply bind_ok in H as (old & Hold & H).
    apply bind_ok in H as (flags & Hflags & H). injection H as <-.
    assert (vec_set (is_accessible_ s) f b = Ok flags) as Hset
      by (by destruct old, b).
    pose proof (vec_at_set _ _ _ _ f Hset) as Hnow.
    rewrite decide_True in Hnow by done.
    pose proof (vec_set_again _ _ _ _ Hset) as Hagain.
    destruct old, b; simpl in *;
      rewrite ?count_of_touch, ?touch_touch, decide_False by done;
      rewrite Hnow; simpl; rewrite Hagain; done.
Qed.

Lemma SetEvictable_idempotent_witness :
  ∃ s1, SetEvictable Scenarios.s3_state 1 false = Ok s1 ∧
        SetEvictable s1 1 false = Ok s1.
Proof.
  eexists. split; [vm_compute; reflexivity|].
  apply (SetEvictable_idempotent Scenarios.s3_state).
  vm_compute. reflexivity.
Defined.

(** ** [Remove] *)

(** X8. [Remove] of a frame that is flagged evictable and sits on a ring,
    in a reachable state: the call returns, the frame is on neither ring
    afterwards, its use count is zero, its flag is cleared and [Size] is one
    less; the other frames keep their order. *)
Theorem Remove_tracked (num_frames k : Z) (s : LRUKReplacer) (f : Z) :
  0 <= num_frames <= INT_MAX -> k < 2 ^ 64 - 1 ->
  reachable num_frames k s ->
  f ∈ frames_of (history_list_ s ++ cache_list_ s) ->
  evictable s f ->
  ∃ s',
    Remove s f = Ok s' ∧
    frames_of (history_list_ s') = without f (frames_of (history_list_ s)) ∧
    frames_of (cache_list_ s') = without f (frames_of (cache_list_ s)) ∧
    count_of (use_count_ s') f = 0 ∧ pinned s' f ∧ Size s' = Size s - 1.
Proof.
  intros HN Hk Hr Hin Hev.
  destruct (reachable_invariants _ _ _ HN Hk Hr) as [Hc Ht].
  destruct (reachable_params _ _ _ Hr) as [HNs Hks].
  pose proof (flagged_fits s Hc) as Hfit.
  pose proof (size_flagged s Ht) as Hsz.
  apply elem_of_frames_of in Hin as (n & Hn & <-).
  pose proof (in_range s Hc n Hn) as Hrng.
  rewrite (flags_len s Hc) in Hrng.
  unfold Remove, Size. rewrite decide_False by lia.
  rewrite Hev. simpl. rewrite count_of_touch.
  assert (∃ flags, vec_set (is_accessible_ s) n.2 false = Ok flags ∧
                   vec_at flags n.2 = Ok false ∧
                   flagged flags = flagged (is_accessible_ s) - 1)
    as (flags & Hflags & Hnow & Hfl).
  { destruct (vec_at_lookup _ _ _ Hev) as [H0 Hl].
    unfold vec_set. rewrite decide_True, Hl by done.
    eexists. split; [done|]. split.
    - erewrite vec_at_set; [by rewrite decide_True|].
      unfold vec_set. by rewrite decide_True, Hl.
    - rewrite (flagged_insert _ _ true) by done. simpl. lia. }
  pose proof (flagged_bounds flags) as Hb'.
  apply elem_of_app in Hn as [Hn | Hn].
  - (* on the history ring *)
    pose proof (hist_count s Hc n Hn) as Hcnt.
    rewrite decide_True by done.
    unfold erase_via. rewrite (hist_iter s Hc n Hn).
    rewrite (list_erase_member _ n Hn). simpl. rewrite Hflags. simpl.
    eexists. split; [reflexivity|]. simpl.
    assert ((n.1, n.2) ∈ history_list_ s) as Hn' by (by destruct n).
    rewrite (drop_node_frame _ _ _ _ (hist_iter s Hc) (tidy_hist_injective s Ht) Hn').
    split; [apply frames_of_filter|]. split.
    { symmetry. apply without_frames_absent. intros m Hm E.
      pose proof (cache_count s Hc m Hm). rewrite E in *. lia. }
    split; [by rewrite count_of_insert, decide_True|].
    split; [done|]. rewrite Hsz. rewrite wrap64_small; lia.
  - (* on the cache ring *)
    pose proof (cache_count s Hc n Hn) as Hcnt.
    rewrite decide_False by lia.
    unfold erase_via. rewrite (cache_iter s Hc n Hn).
    rewrite (list_erase_member _ n Hn). simpl. rewrite Hflags. simpl.
    eexists. split; [reflexivity|]. simpl.
    assert ((n.1, n.2) ∈ cache_list_ s) as Hn' by (by destruct n).
    rewrite (drop_node_frame _ _ _ _ (cache_iter s Hc) (tidy_cache_injective s Ht) Hn').
    split.
    { symmetry. apply without_frames_absent. intros m Hm E.
      pose proof (hist_count s Hc m Hm). rewrite E in *. lia. }
    split; [apply frames_of_filter|].
    split; [by rewrite count_of_insert, decide_True|].
    split; [done|]. rewrite Hsz. rewrite wrap64_small; lia.
Qed.

Lemma Remove_tracked_witness :
  ∃ s',
    Remove Scenarios.s3_state 0 = Ok s' ∧
    frames_of (history_list_ s')
      = without 0 (frames_of (history_list_ Scenarios.s3_state)) ∧
    frames_of (cache_list_ s')
      = without 0 (frames_of (cache_list_ Scenarios.s3_state)) ∧
    count_of (use_count_ s') 0 = 0 ∧ pinned s' 0 ∧
    Size s' = Size Scenarios.s3_state - 1.
Proof.
  apply (Remove_tracked 3 2 Scenarios.s3_state 0).
  - unfold INT_MAX. lia.
  - lia.
  - exact s3_state_reachable.
  - vm_compute. right. right. left.
  - reflexivity.
Defined.

End ReplacerMore.

(** * Further properties of the persistent trie *)

Module TrieMore.

Import Trie TrieFacts.

Local Open Scope nat_scope.

Lemma Get_null T h key : Get T h None key = Ok None.
Proof. done. Qed.

Lemma Get_nil_typed T h root c v :
  h !! root = Some (WithValue c v) ->
  Get T h (Some root) EmptyString = as_type T v.
Proof. intros Hr. by rewrite (Get_nil _ _ _ _ Hr). Qed.

(** Two nodes with the same content, whose children lie in a closed part
    that both stores share, answer alike. *)
Lemma Get_same_node T h0 ha hb a b n key :
  closed h0 -> extends h0 ha -> extends h0 hb ->
  ha !! a = Some n -> hb !! b = Some n ->
  (∀ c l, children_ n !! c = Some l -> l < length h0) ->
  Get T ha (Some a) key = Get T hb (Some b) key.
Proof.
  intros Hc Ha Hb Hna Hnb Hch. destruct key as [|c k].
  - by rewrite (Get_nil _ _ _ _ Hna), (Get_nil _ _ _ _ Hnb).
  - rewrite (Get_cons _ _ _ _ _ _ Hna), (Get_cons _ _ _ _ _ _ Hnb).
    destruct (children_ n !! c) as [l|] eqn:E; [|done].
    specialize (Hch _ _ E).
    rewrite (Get_extends T h0 ha (Some l) k Hc Ha Hch).
    by rewrite (Get_extends T h0 hb (Some l) k Hc Hb Hch).
Qed.

Lemma Get_value_children T h0 ha hb a b n v ch k :
  closed h0 -> extends h0 ha -> extends h0 hb ->
  ha !! a = Some (WithValue (children_ n) v) -> hb !! b = Some n ->
  (∀ c l, children_ n !! c = Some l -> l < length h0) ->
  Get T ha (Some a) (String ch k) = Get T hb (Some b) (String ch k).
Proof.
  intros Hc Ha Hb Hna Hnb Hch.
  rewrite (Get_cons _ _ _ _ _ _ Hna), (Get_cons _ _ _ _ _ _ Hnb).
  cbn [children_].
  destruct (children_ n !! ch) as [l|] eqn:E; [|done].
  specialize (Hch _ _ E).
  rewrite (Get_extends T h0 ha (Some l) k Hc Ha Hch).
  by rewrite (Get_extends T h0 hb (Some l) k Hc Hb Hch).
Qed.

Lemma Get_empty_node T h l key : h !! l = Some (Plain ∅) -> Get T h (Some l) key = Ok None.
Proof.
  intros Hl. destruct key as [|c k].
  - by rewrite (Get_nil _ _ _ _ Hl).
  - rewrite (Get_cons _ _ _ _ _ _ Hl). cbn [children_]. by rewrite lookup_empty.
Qed.

Lemma set_child_eq h p ch q n :
  h !! p = Some n ->
  set_child h p ch q = Ok (<[p := with_children n (<[ch := q]> (children_ n))]> h).
Proof. intros Hp. unfold set_child. simpl. by rewrite Hp. Qed.

Lemma put_path_last h ptr ch v :
  put_path h ptr (String ch EmptyString) v =
    (p ← deref h (Some ptr);
     valueNode ← match children_ p !! ch with
                 | None => Ok (WithValue ∅ (move_construct v))
                 | Some old =>
                     o ← deref h (Some old);
                     Ok (WithValue (children_ o) (move_construct v))
                 end;
     set_child (h ++ [valueNode]) ptr ch (length h)).
Proof. reflexivity. Qed.

(** What the other characters of a key see after one step of [Put] at a
    fresh node [ptr] whose children lie in the closed part [h0]. *)
Section put_step.
Context (T : VType) (h0 h h' : store) (ptr : nat) (p : TrieNode) (ch : ascii).
Context (Hc0 : closed h0) (Hlo : length h0 <= ptr) (Hhi : ptr < length h).
Context (Hext : extends h0 h) (Hp : h !! ptr = Some p).
Context (Hpc : ∀ c l, children_ p !! c = Some l -> l < length h0).
Context (q : nat).
Context (Hext' : extends h0 h').
Context (Hp' : h' !! ptr = Some (with_children p (<[ch := q]> (children_ p)))).

Lemma put_step_nil : Get T h' (Some ptr) EmptyString = Get T h (Some ptr) EmptyString.
Proof.
  rewrite (Get_with_children_nil _ _ _ _ _ Hp'). by rewrite (Get_nil _ _ _ _ Hp).
Qed.

Lemma put_step_here k :
  Get T h' (Some ptr) (String ch k) = Get T h' (Some q) k.
Proof.
  rewrite (Get_cons _ _ _ _ _ _ Hp').
  by rewrite children_with_children, lookup_insert_eq.
Qed.

Lemma put_step_other c k :
  c ≠ ch ->
  Get T h' (Some ptr) (String c k) = Get T h (Some ptr) (String c k).
Proof.
  intros Hne.
  rewrite (Get_cons _ _ _ _ _ _ Hp'), (Get_cons _ _ _ _ _ _ Hp).
  rewrite children_with_children, lookup_insert_ne by done.
  destruct (children_ p !! c) as [l|] eqn:E; [|done].
  specialize (Hpc _ _ E).
  rewrite (Get_extends T h0 h' (Some l) k Hc0 Hext' Hpc).
  by rewrite (Get_extends T h0 h (Some l) k Hc0 Hext Hpc).
Qed.
End put_step.

(** The loop of [Put] from a fresh node [ptr]: seen from [ptr], the key
    now holds the value moved from [v] and every other key is answered as
    before. *)
Lemma put_path_get key v :
  key ≠ EmptyString ->
  ∀ h0 h ptr p h',
    closed h0 -> closed h -> length h0 <= ptr -> ptr < length h ->
    extends h0 h -> h !! ptr = Some p ->
    (∀ c l, children_ p !! c = Some l -> l < length h0) ->
    put_path h ptr key v = Ok h' ->
    extends h0 h' ∧
    ∀ T k', Get T h' (Some ptr) k' =
            if decide (k' = key) then as_type T (move_construct v)
            else Get T h (Some ptr) k'.
Proof.
  induction key as [|ch rest IH]; [done|].
  intros _ h0 h ptr p h' Hc0 Hc Hlo Hhi Hext Hp Hpc Hput.
  assert (deref h (Some ptr) = Ok p) as Hd by (simpl; by rewrite Hp).
  assert (∀ old, children_ p !! ch = Some old ->
            ∃ o, deref h (Some old) = Ok o ∧ h !! old = Some o ∧
                 ∀ c l, children_ o !! c = Some l -> l < length h0) as Hold.
  { intros old E. specialize (Hpc _ _ E).
    assert (h !! old = h0 !! old) as Hsame by (by apply Hext).
    destruct (lookup_lt_is_Some_2 h0 old Hpc) as [o Ho].
    exists o. simpl. rewrite Hsame, Ho. repeat split; try done.
    intros c l. by apply (Hc0 old o). }
  destruct rest as [|ch2 rest2].
  - (* the last character *)
    rewrite put_path_last, Hd in Hput. cbn [mbind outcome_bind] in Hput.
    assert (∃ vn cv, (match children_ p !! ch with
                      | None => Ok (WithValue ∅ (move_construct v))
                      | Some old =>
                          o ← deref h (Some old);
                          Ok (WithValue (children_ o) (move_construct v))
                      end) = Ok vn ∧ vn = WithValue cv (move_construct v) ∧
                     ∀ T c k, Get T (<[ptr := with_children p (<[ch := length h]> (children_ p))]>
                                      (h ++ [vn])) (Some (length h)) (String c k)
                              = Get T h (Some ptr) (String ch (String c k)))
      as (vn & cv & Hvn & Hvn' & Hdeep).
    { destruct (children_ p !! ch) as [old|] eqn:E.
      - destruct (Hold old eq_refl) as (o & Ho & Hlo' & Hoc). rewrite Ho.
        eexists _, _. split; [reflexivity|]. split; [reflexivity|].
        intros T c k. rewrite (Get_cons _ _ _ _ _ _ Hp), E.
        eapply (Get_value_children T h0); try done.
        + intros l Hl. rewrite list_lookup_insert_ne by lia.
          rewrite lookup_app_l by lia. by apply Hext.
        + rewrite list_lookup_insert_ne by lia. by rewrite list_lookup_middle.
      - eexists _, _. split; [reflexivity|]. split; [reflexivity|].
        intros T c k. rewrite (Get_cons _ _ _ _ _ _ Hp), E.
        erewrite Get_cons;
          [|rewrite list_lookup_insert_ne by lia; by rewrite list_lookup_middle].
        cbn [children_]. by rewrite lookup_empty. }
    rewrite Hvn in Hput. cbn [mbind outcome_bind] in Hput.
    rewrite (set_child_eq _ _ _ _ p) in Hput by (by rewrite lookup_app_l).
    injection Hput as <-.
    set (h' := <[ptr := with_children p (<[ch := length h]> (children_ p))]> (h ++ [vn])) in *.
    assert (extends h0 h') as Hext'.
    { intros l Hl. unfold h'. rewrite list_lookup_insert_ne by lia.
      rewrite lookup_app_l by lia. by apply Hext. }
    assert (h' !! ptr = Some (with_children p (<[ch := length h]> (children_ p)))) as Hp'.
    { unfold h'. rewrite list_lookup_insert_eq; [done|].
      rewrite length_app. simpl. lia. }
    assert (h' !! length h = Some (WithValue cv (move_construct v))) as Hnew.
    { unfold h'. rewrite list_lookup_insert_ne by lia.
      rewrite list_lookup_middle by done. by rewrite Hvn'. }
    split; [done|]. intros T k'. destruct k' as [|c k''].
    + rewrite decide_False by done.
      by eapply put_step_nil.
    + destruct (decide (c = ch)) as [-> | Hne].
      * rewrite (put_step_here T h' ptr p ch (length h) Hp').
        destruct k'' as [|c2 k3].
        -- rewrite decide_True by done. by eapply Get_nil_typed.
        -- rewrite decide_False by done. apply Hdeep.
      * rewrite decide_False by congruence.
        by eapply (put_step_other T h0 h h').
  - (* a character before the last *)
    rewrite put_path_more, Hd in Hput. cbn [mbind outcome_bind] in Hput.
    set (key' := String ch2 rest2) in *.
    assert (∃ nn,
              (∀ c l, children_ nn !! c = Some l -> l < length h0) ∧
              (∀ T k ha, extends h0 ha -> ha !! length h = Some nn ->
                         Get T ha (Some (length h)) k
                         = Get T h (Some ptr) (String ch k)) ∧
              put_path (<[ptr := with_children p (<[ch := length h]> (children_ p))]>
                          (h ++ [nn])) (length h) key' v = Ok h')
      as (nn & Hnc & Hnn & Hrec).
    { destruct (children_ p !! ch) as [old|] eqn:E.
      - destruct (Hold old eq_refl) as (o & Ho & Hlo' & Hoc).
        rewrite Ho in Hput. cbn [mbind outcome_bind] in Hput. unfold Clone in Hput.
        simpl in Hput.
        rewrite (set_child_eq _ _ _ _ p) in Hput by (by rewrite lookup_app_l).
        exists o. split; [done|]. split; [|exact Hput].
        intros T k ha Ha Hna. rewrite (Get_cons _ _ _ _ _ _ Hp), E.
        by eapply (Get_same_node T h0).
      - simpl in Hput.
        rewrite (set_child_eq _ _ _ _ p) in Hput by (by rewrite lookup_app_l).
        exists (Plain ∅). split; [|split; [|exact Hput]].
        + intros c l Hl. simpl in Hl. by rewrite lookup_empty in Hl.
        + intros T k ha Ha Hna. rewrite (Get_cons _ _ _ _ _ _ Hp), E.
          by apply Get_empty_node. }
    set (p' := with_children p (<[ch := length h]> (children_ p))) in *.
    set (h2 := <[ptr := p']> (h ++ [nn])) in *.
    assert (length h2 = S (length h)) as Hlen2.
    { unfold h2. rewrite length_insert, length_app. simpl. lia. }
    assert (extends h0 h2) as Hext2.
    { intros l Hl. unfold h2. rewrite list_lookup_insert_ne by lia.
      rewrite lookup_app_l by lia. by apply Hext. }
    assert (h2 !! length h = Some nn) as Hnn2.
    { unfold h2. rewrite list_lookup_insert_ne by lia. by rewrite list_lookup_middle. }
    assert (h2 !! ptr = Some p') as Hp2.
    { unfold h2. rewrite list_lookup_insert_eq; [done|]. rewrite length_app. simpl. lia. }
    assert (closed h2) as Hc2.
    { destruct (alloc_facts h nn) as (Hc1 & Hlen1 & _ & _); [done | |].
      { intros c l Hl. specialize (Hnc _ _ Hl). lia. }
      destruct (set_child_spec (h ++ [nn]) ptr ch (length h) p Hc1)
        as (hx & Hset & -> & Hcx & _); [by rewrite lookup_app_l | lia | done]. }
    destruct (IH ltac:(done) h0 h2 (length h) nn h' Hc0 Hc2 ltac:(lia) ltac:(lia)
                 Hext2 Hnn2 Hnc Hrec) as [Hext' Hget].
    destruct (put_path_spec key' v ltac:(done) h2 (length h) Hc2 ltac:(lia))
      as (hy & _ & _ & Hput' & _ & _ & Hfr & _).
    rewrite Hrec in Hput'. injection Hput' as <-.
    assert (h' !! ptr = Some p') as Hp'.
    { rewrite Hfr by lia. exact Hp2. }
    split; [done|]. intros T k'. destruct k' as [|c k''].
    + rewrite decide_False by done. by eapply put_step_nil.
    + destruct (decide (c = ch)) as [-> | Hne].
      * rewrite (put_step_here T h' ptr p ch (length h) Hp').
        rewrite Hget. destruct (decide (k'' = key')) as [-> | Hk].
        -- by rewrite decide_True.
        -- rewrite decide_False by congruence. by apply Hnn.
      * rewrite decide_False by congruence.
        by eapply (put_step_other T h0 h h').
Qed.

Lemma put_rooted_get h root key v h' t1 :
  closed h -> root < length h ->
  put_rooted h root key v = Ok (h', t1) ->
  ∀ T k', Get T h' t1 k' =
          if decide (k' = key) then as_type T (move_construct v)
          else Get T h (Some root) k'.
Proof.
  intros Hc Hroot. unfold put_rooted.
  destruct (deref_allocated h root Hroot) as (r & -> & Hr).
  cbn [mbind outcome_bind]. unfold Clone.
  assert (∀ c l, children_ r !! c = Some l -> l < length h) as Hrc
    by (intros c l; by apply (Hc root r)).
  destruct (alloc_facts h r) as (Hc1 & Hlen1 & Hptr & Hext1); [done | |].
  { intros c l Hl. specialize (Hrc _ _ Hl). lia. }
  destruct key as [|ch rest].
  - (* the empty key *)
    intros H T k'. simpl in H. rewrite Hptr in H. simpl in H.
    injection H as <- <-.
    set (h' := (h ++ [r]) ++ [WithValue (children_ r) (move_construct v)]).
    assert (h' !! S (length h) = Some (WithValue (children_ r) (move_construct v)))
      as Hnew.
    { unfold h'. rewrite <- Hlen1. by rewrite list_lookup_middle. }
    assert (extends h h') as Hext'.
    { intros l Hl. unfold h'. rewrite lookup_app_l by lia. by apply Hext1. }
    rewrite Hlen1.
    destruct k' as [|c k''].
    + rewrite decide_True by done. by eapply Get_nil_typed.
    + rewrite decide_False by done.
      eapply (Get_value_children T h); try done.
  - intros H. simpl alloc in H. cbn iota beta in H.
    apply bind_ok in H as (hx & Hput & H). injection H as <- <-.
    destruct (put_path_get (String ch rest) v ltac:(done) h (h ++ [r]) (length h) r hx
                Hc Hc1 ltac:(lia) ltac:(lia) Hext1 Hptr Hrc Hput) as [Hext' Hget].
    intros T k'. rewrite Hget. case_decide; [done|].
    eapply (Get_same_node T h); try done.
Qed.

(** X16. [Put] on a closed store returns a trie in which the key holds the
    value as [Put] installed it (the object move-constructed from the
    argument), under the type of the value only, and in which every other key
    is answered as in the trie it was applied to; the store stays closed and
    the new handle is valid. *)
Theorem Put_correct (h : store) (t0 : TriePtr) (k : string) (v : Value) :
  closed h -> valid h t0 ->
  ∃ h' t1,
    Put h t0 k v = Ok (h', t1) ∧
    closed h' ∧ valid h' t1 ∧
    ∀ T k', Get T h' t1 k' =
            if decide (k' = k) then as_type T (move_construct v)
            else Get T h t0 k'.
Proof.
  intros Hc Hv.
  destruct (Put_spec h t0 k v Hc Hv) as (h' & t1 & Hput & Hc' & Ht1 & _ & _ & _).
  exists h', (Some t1). split; [done|]. split; [done|]. split; [done|].
  unfold Put in Hput. destruct t0 as [root|].
  - by apply (put_rooted_get h root k v).
  - destruct (alloc_facts h (Plain ∅)) as (Hc0 & Hlen0 & Hroot & _); [done | |].
    { intros c l Hl. simpl in Hl. by rewrite lookup_empty in Hl. }
    simpl in Hput. intros T k'.
    rewrite (put_rooted_get (h ++ [Plain ∅]) (length h) k (move_construct v) h'
               (Some t1) Hc0 ltac:(lia) Hput).
    rewrite move_construct_idemp.
    case_decide; [done|]. by apply Get_empty_node.
Qed.

Lemma Put_correct_witness :
  ∃ h' t1,
    Put Scenarios.abc_store Scenarios.abc_trie "ab" (MoveBlocked false)
      = Ok (h', t1) ∧
    closed h' ∧ valid h' t1 ∧
    ∀ T k', Get T h' t1 k' =
            if decide (k' = "ab"%string)
            then as_type T (move_construct (MoveBlocked false))
            else Get T Scenarios.abc_store Scenarios.abc_trie k'.
Proof.
  apply (Put_correct Scenarios.abc_store Scenarios.abc_trie "ab" (MoveBlocked false)).
  - apply closedb_sound. vm_compute. reflexivity.
  - simpl. lia.
Defined.

(** X17. [Remove] on a trie with a root, on a closed store: the call
    returns, the key has no value afterwards, every other key is answered as
    before, the trie it was applied to still answers as before, and the store
    stays closed with a valid new handle. *)
Theorem Remove_correct (h : store) (root : nat) (key : string) :
  closed h -> root < length h ->
  ∃ h' t',
    Remove h (Some root) key = Ok (h', t') ∧
    closed h' ∧ valid h' t' ∧
    (∀ T k', Get T h' t' k' =
             if decide (k' = key) then Ok None else Get T h (Some root) k') ∧
    (∀ T k', Get T h' (Some root) k' = Get T h (Some root) k').
Proof.
  intros Hc Hroot. unfold Remove.
  destruct (Dfs_spec key h root Hc Hroot)
    as (h' & t' & HD & Hc' & Hv' & _ & Hext & Hget).
  exists h', t'. repeat (split; [done|]).
  intros T k'. by apply Get_extends.
Qed.

Lemma Remove_correct_witness :
  ∃ h' t',
    Remove Scenarios.abc_store (Some 1) "abc" = Ok (h', t') ∧
    closed h' ∧ valid h' t' ∧
    (∀ T k', Get T h' t' k' =
             if decide (k' = "abc"%string) then Ok None
             else Get T Scenarios.abc_store (Some 1) k') ∧
    (∀ T k', Get T h' (Some 1) k' = Get T Scenarios.abc_store (Some 1) k').
Proof.
  apply (Remove_correct Scenarios.abc_store 1 "abc").
  - apply closedb_sound. vm_compute. reflexivity.
  - simpl. lia.
Defined.

(** X18. Round trip: [Put] of a key followed by [Remove] of the same key, on
    a closed store, returns; the key has no value in the result and every
    other key is answered as in the trie the two calls started from. *)
Theorem Put_Remove_round_trip (h : store) (t : TriePtr) (k : string) (v : Value) :
  closed h -> valid h t ->
  ∃ h1 t1 h2 t2,
    Put h t k v = Ok (h1, t1) ∧ Remove h1 t1 k = Ok (h2, t2) ∧
    ∀ T k', Get T h2 t2 k' =
            if decide (k' = k) then Ok None else Get T h t k'.
Proof.
  intros Hc Hv.
  destruct (Put_spec h t k v Hc Hv) as (h1 & r1 & Hput & Hc1 & Hr1 & _ & _ & _).
  assert (∀ T k', Get T h1 (Some r1) k' =
                  if decide (k' = k) then as_type T (move_construct v)
                  else Get T h t k') as Hget1.
  { unfold Put in Hput. destruct t as [root|].
    - by apply (put_rooted_get h root k v).
    - destruct (alloc_facts h (Plain ∅)) as (Hc0 & Hlen0 & Hroot & _); [done | |].
      { intros c l Hl. simpl in Hl. by rewrite lookup_empty in Hl. }
      simpl in Hput. intros T k'.
      rewrite (put_rooted_get (h ++ [Plain ∅]) (length h) k (move_construct v) h1
                 (Some r1) Hc0 ltac:(lia) Hput).
      rewrite move_construct_idemp.
      case_decide; [done|]. by apply Get_empty_node. }
  destruct (Dfs_spec k h1 r1 Hc1 Hr1) as (h2 & t2 & HD & _ & _ & _ & _ & Hget2).
  exists h1, (Some r1), h2, t2. split; [done|]. split; [exact HD|].
  intros T k'. rewrite Hget2. case_decide; [done|].
  rewrite Hget1. by rewrite decide_False.
Qed.

Lemma Put_Remove_round_trip_witness :
  ∃ h1 t1 h2 t2,
    Put Scenarios.abc_store Scenarios.abc_trie "abcd" (UInt64 7) = Ok (h1, t1) ∧
    Remove h1 t1 "abcd" = Ok (h2, t2) ∧
    ∀ T k', Get T h2 t2 k' =
            if decide (k' = "abcd"%string) then Ok None
            else Get T Scenarios.abc_store Scenarios.abc_trie k'.
Proof.
  apply (Put_Remove_round_trip Scenarios.abc_store Scenarios.abc_trie "abcd" (UInt64 7)).
  - apply closedb_sound. vm_compute. reflexivity.
  - simpl. lia.
Defined.

(** X19. [Get] never fails on a closed store: it returns a value or none,
    for every handle of the store, every key and every type. *)
Theorem Get_never_fails (T : VType) (h : store) (t : TriePtr) (key : string) :
  closed h -> valid h t ->
  ∃ r, Get T h t key = Ok r ∧
       ∀ v, r = Some v -> type_of v = T.
Proof.
  intros Hc Hv. destruct t as [root|]; [|by eexists].
  unfold Get. destruct (walk_total h key Hc root Hv) as (r & -> & Hr).
  cbn [mbind outcome_bind]. destruct r as [d|]; [|by eexists].
  destruct (deref_allocated h d (Hr d eq_refl)) as (n & -> & _).
  cbn [mbind outcome_bind]. destruct n as [c|c v]; [by eexists|].
  case_decide as Ht; [|by eexists].
  eexists. split; [done|]. by intros ? [= <-].
Qed.

Lemma Get_never_fails_witness :
  ∃ r, Get TUInt32 Scenarios.abc_store Scenarios.abc_trie "abc" = Ok r ∧
       ∀ v, r = Some v -> type_of v = TUInt32.
Proof.
  apply (Get_never_fails TUInt32 Scenarios.abc_store Scenarios.abc_trie "abc").
  - apply closedb_sound. vm_compute. reflexivity.
  - simpl. lia.
Defined.

End TrieMore.

(** * Further properties of the buffer pool manager *)

Module BufferPoolMore.

Import Replacer BufferPool BufferPoolFacts.

(** ** [FlushAllPages] *)

Lemma page_at_nat b (i : nat) p :
  pages_ b !! i = Some p -> page_at b (Z.of_nat i) = Ok p.
Proof.
  intros H. unfold page_at. rewrite decide_True by lia.
  by rewrite Nat2Z.id, H.
Qed.

(** The loop from frame [i] on: the frames before [i] are left alone, the
    others are flushed in order. *)
Lemma flush_frames_spec n :
  ∀ i b,
    length (pages_ b) = (i + n)%nat ->
    flush_frames b (seq i n) =
      Ok (mkBPM (pool_size_ b)
            (take i (pages_ b) ++ (flushed <$> drop i (pages_ b)))
            (page_table_ b) (free_list_ b) (replacer_ b) (next_page_id_ b)
            (write_all (disk_manager_ b) (drop i (pages_ b)))).
Proof.
  induction n as [|n IH]; intros i b Hlen.
  - simpl. rewrite take_ge, drop_ge by lia. simpl. rewrite app_nil_r.
    by destruct b.
  - destruct (lookup_lt_is_Some_2 (pages_ b) i) as [p Hp]; [lia|].
    cbn [seq flush_frames]. unfold flush_frame.
    rewrite (page_at_nat _ _ _ Hp). cbn [mbind outcome_bind].
    rewrite (drop_S _ _ _ Hp). cbn [fmap list_fmap write_all foldl].
    fold (flushable p). unfold flushed at 1.
    destruct (flushable p) eqn:Hf.
    + cbn [mbind outcome_bind]. rewrite IH.
      2:{ unfold put_page. simpl. rewrite length_insert. lia. }
      unfold put_page, write_all. simpl. rewrite Nat2Z.id.
      rewrite take_insert_lt by lia. rewrite drop_insert_lt by lia.
      rewrite (take_S_r _ _ _ Hp).
      rewrite insert_app_r_alt by (rewrite length_take; lia).
      rewrite length_take, Nat.min_l, Nat.sub_diag by lia. simpl.
      rewrite <- app_assoc. done.
    + cbn [mbind outcome_bind]. rewrite IH by lia.
      rewrite (take_S_r _ _ _ Hp), <- app_assoc. done.
Qed.

Lemma flushed_clean p : page_id_ (flushed p) ≠ INVALID_PAGE_ID -> is_dirty_ (flushed p) = false.
Proof.
  unfold flushed, flushable. destruct (is_dirty_ p) eqn:Hd; simpl; [|done].
  destruct (page_id_ p =? INVALID_PAGE_ID) eqn:E; simpl; [|done].
  apply Z.eqb_eq in E. by rewrite Hd.
Qed.

(** X15. [FlushAllPages] on a pool whose frame array has [pool_size_]
    frames: it returns; every frame that was dirty and held a page is clean
    afterwards and nothing else in the frame array changes; the disk manager
    receives exactly one [WritePage] per such frame, in frame order, with
    the frame's page identifier and bytes; the page table, the free list and
    the replacer are untouched. *)
Theorem FlushAllPages_effect (b : BufferPoolManager) :
  length (pages_ b) = Z.to_nat (pool_size_ b) ->
  ∃ b',
    FlushAllPages b = Ok b' ∧
    pages_ b' = flushed <$> pages_ b ∧
    disk_manager_ b' = write_all (disk_manager_ b) (pages_ b) ∧
    page_table_ b' = page_table_ b ∧ free_list_ b' = free_list_ b ∧
    replacer_ b' = replacer_ b ∧
    ∀ p, p ∈ pages_ b' -> page_id_ p ≠ INVALID_PAGE_ID -> is_dirty_ p = false.
Proof.
  intros Hlen. unfold FlushAllPages.
  rewrite flush_frames_spec by (simpl; lia).
  eexists. split; [reflexivity|]. simpl. rewrite drop_0.
  repeat (split; [done|]).
  intros p Hp. apply list_elem_of_fmap in Hp as (q & -> & _).
  apply flushed_clean.
Qed.

Lemma FlushAllPages_effect_witness :
  ∃ b',
    FlushAllPages Scenarios.pool_dirty = Ok b' ∧
    pages_ b' = flushed <$> pages_ Scenarios.pool_dirty ∧
    disk_manager_ b'
      = write_all (disk_manager_ Scenarios.pool_dirty) (pages_ Scenarios.pool_dirty) ∧
    page_table_ b' = page_table_ Scenarios.pool_dirty ∧
    free_list_ b' = free_list_ Scenarios.pool_dirty ∧
    replacer_ b' = replacer_ Scenarios.pool_dirty ∧
    ∀ p, p ∈ pages_ b' -> page_id_ p ≠ INVALID_PAGE_ID -> is_dirty_ p = false.
Proof.
  apply (FlushAllPages_effect Scenarios.pool_dirty). reflexivity.
Defined.

(** ** Which frames the replacer tracks *)

Lemma FlushAllPages_returns b :
  length (pages_ b) = Z.to_nat (pool_size_ b) ->
  ∃ b', FlushAllPages b = Ok b' ∧ replacer_ b' = replacer_ b ∧
        pool_size_ b' = pool_size_ b ∧ length (pages_ b') = length (pages_ b).
Proof.
  intros Hlen. unfold FlushAllPages.
  rewrite (flush_frames_spec (Z.to_nat (pool_size_ b)) 0 b) by (simpl; lia).
  eexists. split; [reflexivity|]. simpl. split; [done|]. split; [done|].
  by rewrite length_fmap.
Qed.

Lemma elem_of_tracked s g :
  g ∈ tracked s ↔ (∃ n, n ∈ history_list_ s ∧ n.2 = g) ∨ (∃ n, n ∈ cache_list_ s ∧ n.2 = g).
Proof.
  unfold tracked. rewrite ReplacerMore.elem_of_frames_of. split.
  - intros (n & Hn & E). apply elem_of_app in Hn as [Hn | Hn]; eauto.
  - intros [(n & Hn & E) | (n & Hn & E)]; exists n; rewrite elem_of_app; auto.
Qed.

Lemma list_erase_sub l it l' n : list_erase l it = Ok l' -> n ∈ l' -> n ∈ l.
Proof. apply list_erase_subset. Qed.

Lemma RecordAccess_tracked s f s' g :
  RecordAccess s f = Ok s' -> g ∈ tracked s' -> g = f ∨ g ∈ tracked s.
Proof.
  unfold RecordAccess. case_decide; [done|]. simpl.
  rewrite !elem_of_tracked.
  destruct (decide (wrap64 (count_of (use_count_ s) f + 1) = k_ s)) as [Hk | Hk].
  - intros Hres. apply bind_ok in Hres as (hl & Hhl & Hres). injection Hres as <-.
    simpl. intros [(n & Hn & E) | (n & Hn & E)].
    + right. left. exists n. split; [|done].
      destruct (history_map_ s !! f) as [it|]; [by eapply list_erase_sub | by injection Hhl as <-].
    + apply elem_of_cons in Hn as [-> | Hn]; [by left|]. right. right. eauto.
  - destruct (decide (wrap64 (count_of (use_count_ s) f + 1) > k_ s)) as [Hgt | Hle].
    + destruct (cache_map_ s !! f) as [it|].
      * intros Hres. apply bind_ok in Hres as (cl & Hcl & Hres). injection Hres as <-.
        simpl. intros [(n & Hn & E) | (n & Hn & E)]; right; [left; eauto|].
        right. exists n. split; [by eapply list_erase_sub | done].
      * intros [= <-]. simpl. tauto.
    + destruct (history_map_ s !! f) as [it|].
      * intros [= <-]. simpl. tauto.
      * intros [= <-]. simpl. intros [(n & Hn & E) | (n & Hn & E)].
        -- apply elem_of_cons in Hn as [-> | Hn]; [by left|]. right. left. eauto.
        -- right. right. eauto.
Qed.

Lemma SetEvictable_tracked s f b s' :
  SetEvictable s f b = Ok s' -> tracked s' = tracked s.
Proof.
  unfold SetEvictable. case_decide; [done|]. simpl.
  case_decide; [by intros [= <-]|].
  intros Hres. apply bind_ok in Hres as (old & ? & Hres).
  apply bind_ok in Hres as (? & ? & Hres). injection Hres as <-.
  by destruct old, b.
Qed.

Lemma Evict_tracked s s' found f :
  Evict s = Ok (s', (found, f)) ->
  (∀ g, g ∈ tracked s' -> g ∈ tracked s) ∧ (found = true -> f ∈ tracked s).
Proof.
  unfold Evict. case_decide; [by intros [= <- <- <-]|].
  intros Hres. apply bind_ok in Hres as (h & Hh & Hres).
  destruct h as [[it v]|].
  - apply bind_ok in Hres as (? & ? & Hres).
    apply bind_ok in Hres as (hl & Hhl & Hres). injection Hres as <- <- <-.
    apply ReplacerFacts.scan_some_member in Hh. rewrite elem_of_reverse in Hh.
    split.
    + intros g. rewrite !elem_of_tracked. simpl.
      intros [(n & Hn & E) | (n & Hn & E)]; [left|right; eauto].
      exists n. split; [by eapply list_erase_sub | done].
    + intros _. apply elem_of_tracked. left. by exists (it, v).
  - apply bind_ok in Hres as (c & Hc & Hres).
    destruct c as [[it v]|]; [|by injection Hres as <- <- <-].
    apply bind_ok in Hres as (? & ? & Hres).
    apply bind_ok in Hres as (cl & Hcl & Hres).
    apply ReplacerFacts.Evict_cache_branch_stuck in Hcl as Hdead.
    by rewrite Hdead in Hres.
Qed.

(** ** The page table and the frame array *)

Lemma page_at_Ok b f pg :
  page_at b f = Ok pg ↔ 0 <= f ∧ pages_ b !! Z.to_nat f = Some pg.
Proof.
  unfold page_at. case_decide.
  - destruct (pages_ b !! Z.to_nat f); split; try done.
    + by intros [= ->].
    + by intros [_ [= ->]].
    + by intros [_ ?].
  - split; [done | intros [? _]; lia].
Qed.

Lemma page_at_in_range b f :
  0 <= f < Z.of_nat (length (pages_ b)) -> ∃ pg, page_at b f = Ok pg.
Proof.
  intros Hf. destruct (lookup_lt_is_Some_2 (pages_ b) (Z.to_nat f)) as [pg Hpg]; [lia|].
  exists pg. apply page_at_Ok. split; [lia | done].
Qed.

Lemma page_at_range b f pg :
  page_at b f = Ok pg -> 0 <= f < Z.of_nat (length (pages_ b)).
Proof.
  intros H. apply page_at_Ok in H as [H0 Hl]. apply lookup_lt_Some in Hl. lia.
Qed.

(** A frame gets new contents with the same page identifier. *)
Lemma resident_ok_repage b b' f pg pg' :
  resident_ok b ->
  page_at b f = Ok pg -> page_id_ pg' = page_id_ pg ->
  pages_ b' = <[Z.to_nat f := pg']> (pages_ b) ->
  page_table_ b' = page_table_ b -> free_list_ b' = free_list_ b ->
  (∀ g, g ∈ tracked (replacer_ b') ->
        0 <= g < Z.of_nat (length (pages_ b)) ∨ g ∈ tracked (replacer_ b)) ->
  resident_ok b'.
Proof.
  intros Hok Hpg Hid Hpages Htable Hfree Htr.
  pose proof (page_at_range _ _ _ Hpg) as Hrange.
  apply page_at_Ok in Hpg as [Hf0 Hpg].
  assert (length (pages_ b') = length (pages_ b)) as Hlen
    by (by rewrite Hpages, length_insert).
  constructor.
  - intros p g Hp. rewrite Htable in Hp.
    destruct (table_frames b Hok p g Hp) as (q & Hq & Hqid).
    apply page_at_Ok in Hq as [Hg0 Hq].
    destruct (decide (Z.to_nat g = Z.to_nat f)) as [E | Hne].
    + exists pg'. split.
      * apply page_at_Ok. split; [done|]. rewrite Hpages, E.
        apply list_lookup_insert_eq. by eapply lookup_lt_Some.
      * rewrite Hid. rewrite E in Hq. congruence.
    + exists q. split; [|done]. apply page_at_Ok. split; [done|].
      rewrite Hpages, list_lookup_insert_ne by done. done.
  - intros g Hg. rewrite Hfree in Hg. rewrite Hlen, Htable.
    by apply (free_frames b Hok).
  - rewrite Hfree. apply Hok.
  - intros g Hg. rewrite Hlen. destruct (Htr g Hg) as [? | Hold]; [done|].
    by apply (tracked_frames b Hok).
Qed.

(** A frame that no page is mapped to, and that is not free, is given to a
    page. *)
Lemma resident_ok_install b b' f page_id pg :
  resident_ok b ->
  0 <= f < Z.of_nat (length (pages_ b)) ->
  (∀ p, page_table_ b !! p ≠ Some f) -> f ∉ free_list_ b ->
  page_id_ pg = page_id ->
  pages_ b' = <[Z.to_nat f := pg]> (pages_ b) ->
  page_table_ b' = <[page_id := f]> (page_table_ b) ->
  free_list_ b' = free_list_ b ->
  (∀ g, g ∈ tracked (replacer_ b') ->
        0 <= g < Z.of_nat (length (pages_ b)) ∨ g ∈ tracked (replacer_ b)) ->
  resident_ok b'.
Proof.
  intros Hok Hrange Hunmapped Hnotfree Hid Hpages Htable Hfree Htr.
  assert (length (pages_ b') = length (pages_ b)) as Hlen
    by (by rewrite Hpages, length_insert).
  constructor.
  - intros p g Hp. rewrite Htable, lookup_insert in Hp.
    case_decide as Hpid.
    + injection Hp as <-. subst p. exists pg. split; [|done].
      apply page_at_Ok. split; [lia|]. rewrite Hpages.
      apply list_lookup_insert_eq. lia.
    + destruct (table_frames b Hok p g Hp) as (q & Hq & Hqid).
      apply page_at_Ok in Hq as [Hg0 Hq].
      assert (g ≠ f) as Hgf by (intros ->; by apply (Hunmapped p)).
      exists q. split; [|done]. apply page_at_Ok. split; [done|].
      rewrite Hpages, list_lookup_insert_ne by lia. done.
  - intros g Hg. rewrite Hfree in Hg. rewrite Hlen, Htable.
    destruct (free_frames b Hok g Hg) as [Hr Hun]. split; [done|].
    intros p Hp. rewrite lookup_insert in Hp. case_decide.
    + injection Hp as ->. done.
    + by apply (Hun p).
  - rewrite Hfree. apply Hok.
  - intros g Hg. rewrite Hlen. destruct (Htr g Hg) as [? | Hold]; [done|].
    by apply (tracked_frames b Hok).
Qed.

Lemma touch_and_pin_spec b f b' :
  touch_and_pin b f = Ok b' ->
  pages_ b' = pages_ b ∧ page_table_ b' = page_table_ b ∧
  free_list_ b' = free_list_ b ∧ next_page_id_ b' = next_page_id_ b ∧
  disk_manager_ b' = disk_manager_ b ∧ pool_size_ b' = pool_size_ b ∧
  ∀ g, g ∈ tracked (replacer_ b') -> g = f ∨ g ∈ tracked (replacer_ b).
Proof.
  unfold touch_and_pin. intros H.
  apply bind_ok in H as (r1 & Hr1 & H). apply bind_ok in H as (r2 & Hr2 & H).
  injection H as <-. simpl. repeat (split; [done|]).
  intros g Hg. rewrite (SetEvictable_tracked _ _ _ _ Hr2) in Hg.
  by eapply RecordAccess_tracked.
Qed.

Lemma acquire_frame_spec b b1 got :
  resident_ok b -> acquire_frame b = Ok (b1, got) ->
  resident_ok b1 ∧ length (pages_ b1) = length (pages_ b) ∧
  next_page_id_ b1 = next_page_id_ b ∧ pool_size_ b1 = pool_size_ b ∧
  ∀ f, got = Some f ->
    0 <= f < Z.of_nat (length (pages_ b)) ∧
    (∀ p, page_table_ b1 !! p ≠ Some f) ∧ f ∉ free_list_ b1.
Proof.
  intros Hok. unfold acquire_frame.
  destruct (reverse (free_list_ b)) as [|f rest_rev] eqn:Hrev.
  - (* no free frame: ask the replacer *)
    assert (free_list_ b = []) as Hfree.
    { apply (f_equal reverse) in Hrev. by rewrite reverse_involutive in Hrev. }
    intros H. apply bind_ok in H as ([r [found f]] & Hev & H).
    destruct (Evict_tracked _ _ _ _ Hev) as [Hsub Hvictim].
    destruct found; simpl in H.
    + specialize (Hvictim eq_refl).
      pose proof (tracked_frames b Hok f Hvictim) as Hrange.
      destruct (page_at_in_range b f Hrange) as (p & Hp).
      assert (page_at (with_replacer b r) f = Ok p) as Hp' by exact Hp.
      rewrite Hp' in H. cbn [mbind outcome_bind] in H.
      injection H as <- <-.
      set (b0 := if is_dirty_ p
                 then put_page (with_disk (with_replacer b r)
                        (WritePage (disk_manager_ b) (page_id_ p) (data_ p)))
                        f (with_dirty p false)
                 else with_replacer b r).
      assert (resident_ok b0 ∧ length (pages_ b0) = length (pages_ b) ∧
              page_table_ b0 = page_table_ b ∧ free_list_ b0 = [] ∧
              next_page_id_ b0 = next_page_id_ b ∧ pool_size_ b0 = pool_size_ b ∧
              ∃ q, page_at b0 f = Ok q ∧ page_id_ q = page_id_ p)
        as (Hok0 & Hlen0 & Htab0 & Hfree0 & Hnext0 & Hsize0 & q & Hq & Hqid).
      { unfold b0. destruct (is_dirty_ p).
        - split; [|split; [|split; [|split; [|split; [|split]]]]]; try done.
          + eapply (resident_ok_repage b _ f p (with_dirty p false)); try done.
            intros g Hg. right. by apply Hsub.
          + unfold put_page. simpl. by rewrite length_insert.
          + exists (with_dirty p false). split; [|done].
            by apply (page_at_put _ _ p).
        - split; [|split; [|split; [|split; [|split; [|split]]]]]; try done.
          + constructor; simpl; try apply Hok.
            intros g Hg. apply (tracked_frames b Hok). by apply Hsub.
          + by exists p. }
      assert (∀ p' g, delete (page_id_ p) (page_table_ b0) !! p' = Some g -> g ≠ f)
        as Hgone.
      { intros p' g Hp'g ->. apply lookup_delete_Some in Hp'g as [Hne Hp'g].
        destruct (table_frames b0 Hok0 _ _ Hp'g) as (q' & Hq' & Hq'id).
        rewrite Hq in Hq'. injection Hq' as <-. congruence. }
      split; [|split; [|split; [|split]]]; simpl; try done.
      * constructor; simpl.
        -- intros p' g Hp'g. apply lookup_delete_Some in Hp'g as [Hne Hp'g].
           by apply (table_frames b0 Hok0).
        -- rewrite Hfree0. intros g Hg. by apply elem_of_nil in Hg.
        -- rewrite Hfree0. constructor.
        -- apply (tracked_frames b0 Hok0).
      * intros g [= <-]. split; [done|]. split.
        -- intros p' Hmap. by apply (Hgone p' f Hmap).
        -- rewrite Hfree0. apply not_elem_of_nil.
    + injection H as <- <-. simpl. split; [|done].
      constructor; simpl; try apply Hok.
      intros g Hg. apply (tracked_frames b Hok). by apply Hsub.
  - (* the back of the free list *)
    assert (free_list_ b = reverse rest_rev ++ [f]) as Hfree.
    { apply (f_equal reverse) in Hrev.
      by rewrite reverse_involutive, reverse_cons in Hrev. }
    intros [= <- <-]. simpl.
    pose proof (free_nodup b Hok) as Hnd. rewrite Hfree in Hnd.
    apply NoDup_app in Hnd as (Hnd & Hdisj & _).
    assert (∀ g, g ∈ reverse rest_rev -> g ∈ free_list_ b) as Hsub.
    { intros g Hg. rewrite Hfree. apply elem_of_app. by left. }
    assert (f ∈ free_list_ b) as Hf.
    { rewrite Hfree. apply elem_of_app. right. left. }
    split; [|split; [done|split; [done|split; [done|]]]].
    + constructor; simpl.
      * apply Hok.
      * intros g Hg. by apply (free_frames b Hok), Hsub.
      * done.
      * apply Hok.
    + intros g [= <-]. destruct (free_frames b Hok f Hf) as [Hr Hun].
      split; [done|]. split; [done|].
      intros Hin. apply (Hdisj f Hin). left.
Qed.

Lemma new_resident_ok pool_size replacer_k :
  resident_ok (BufferPool.new pool_size replacer_k).
Proof.
  constructor; simpl.
  - intros p f Hp. by rewrite lookup_empty in Hp.
  - intros f Hf. apply list_elem_of_fmap in Hf as (i & -> & Hi).
    apply elem_of_seq in Hi. rewrite length_replicate. split; [lia|].
    intros p Hp. by rewrite lookup_empty in Hp.
  - apply NoDup_fmap_2; [apply Nat2Z.inj' | apply NoDup_seq].
  - intros f Hf. by apply elem_of_nil in Hf.
Qed.

(** The installation of a page in an acquired frame, as [NewPage] and
    [FetchPage] do it. *)
Lemma install_resident_ok b1 f page_id pg b2 b' :
  resident_ok b1 ->
  0 <= f < Z.of_nat (length (pages_ b1)) ->
  (∀ p, page_table_ b1 !! p ≠ Some f) -> f ∉ free_list_ b1 ->
  page_id_ pg = page_id ->
  pages_ b2 = <[Z.to_nat f := pg]> (pages_ b1) ->
  page_table_ b2 = <[page_id := f]> (page_table_ b1) ->
  free_list_ b2 = free_list_ b1 -> replacer_ b2 = replacer_ b1 ->
  touch_and_pin b2 f = Ok b' ->
  resident_ok b' ∧ page_table_ b' !! page_id = Some f ∧ page_at b' f = Ok pg.
Proof.
  intros Hok Hrange Hun Hnf Hid Hpages Htable Hfree Hrep Htp.
  destruct (touch_and_pin_spec _ _ _ Htp) as (Hp' & Ht' & Hf' & _ & _ & _ & Htr).
  split; [|split].
  - eapply (resident_ok_install b1 b' f page_id pg); try done.
    + by rewrite Hp'.
    + by rewrite Ht'.
    + by rewrite Hf'.
    + intros g Hg. destruct (Htr g Hg) as [-> | Hold]; [by left|].
      right. by rewrite <- Hrep.
  - rewrite Ht', Htable. apply lookup_insert_eq.
  - apply page_at_Ok. split; [lia|]. rewrite Hp', Hpages.
    apply list_lookup_insert_eq. lia.
Qed.

Lemma NewPage_spec b b' r :
  resident_ok b -> NewPage b = Ok (b', r) ->
  resident_ok b' ∧ next_page_id_ b' = to_int (next_page_id_ b + 1) ∧
  match r with
  | Some (page_id, f) =>
      page_id = next_page_id_ b ∧ page_table_ b' !! page_id = Some f ∧
      ∃ readers writer,
        page_at b' f = Ok (mkPage zero_data page_id 1 false readers writer)
  | None => free_list_ b = []
  end.
Proof.
  intros Hok. unfold NewPage, AllocatePage.
  intros H. apply bind_ok in H as ([b1 got] & Hacq & H).
  assert (resident_ok (with_next_page_id b (to_int (next_page_id_ b + 1)))) as Hok0
    by (constructor; simpl; apply Hok).
  destruct (acquire_frame_spec _ _ _ Hok0 Hacq) as (Hok1 & Hlen1 & Hnext1 & _ & Hgot).
  simpl in Hlen1, Hnext1.
  destruct got as [f|].
  - destruct (Hgot f eq_refl) as (Hrange & Hun & Hnf).
    simpl in Hrange. rewrite <- Hlen1 in Hrange.
    destruct (page_at_in_range b1 f Hrange) as (p0 & Hp0).
    assert (page_at (with_page_table b1 (<[next_page_id_ b := f]> (page_table_ b1))) f
            = Ok p0) as Hp0' by exact Hp0.
    rewrite Hp0' in H. cbn [mbind outcome_bind] in H.
    apply bind_ok in H as (b2 & Htp & H). injection H as <- <-.
    destruct (touch_and_pin_spec _ _ _ Htp) as (_ & _ & _ & Hn' & _).
    edestruct (install_resident_ok b1 f (next_page_id_ b)) as (Hok' & Htab' & Hpage');
      [exact Hok1 | exact Hrange | exact Hun | exact Hnf | | | | | | exact Htp |];
      [| reflexivity | reflexivity | reflexivity | reflexivity |]; [reflexivity|].
    split; [done|]. split; [by rewrite Hn'|].
    split; [done|]. split; [done|]. eauto.
  - injection H as <- <-. split; [done|]. split; [done|].
    unfold acquire_frame in Hacq. simpl in Hacq.
    destruct (reverse (free_list_ b)) eqn:Hrev; [|done].
    apply (f_equal reverse) in Hrev. by rewrite reverse_involutive in Hrev.
Qed.

Lemma FetchPage_resident_ok b page_id b' r :
  resident_ok b -> FetchPage b page_id = Ok (b', r) -> resident_ok b'.
Proof.
  intros Hok. unfold FetchPage.
  destruct (page_table_ b !! page_id) as [f|] eqn:Ht.
  - (* resident: one more pin *)
    intros H. apply bind_ok in H as (p & Hp & H).
    apply bind_ok in H as (pins & Hpins & H).
    apply bind_ok in H as (b2 & Htp & H). injection H as <- <-.
    destruct (touch_and_pin_spec _ _ _ Htp) as (Hp' & Ht' & Hf' & _ & _ & _ & Htr).
    eapply (resident_ok_repage b b2 f p (with_pin_count p pins));
      try done.
    intros g Hg. destruct (Htr g Hg) as [-> | Hold]; [|by right].
    left. by eapply page_at_range.
  - intros H. apply bind_ok in H as ([b1 got] & Hacq & H).
    destruct (acquire_frame_spec _ _ _ Hok Hacq) as (Hok1 & Hlen1 & _ & _ & Hgot).
    destruct got as [f|]; [|by injection H as <- <-].
    destruct (Hgot f eq_refl) as (Hrange & Hun & Hnf).
    rewrite <- Hlen1 in Hrange.
    destruct (page_at_in_range b1 f Hrange) as (p0 & Hp0).
    assert (page_at (with_page_table b1 (<[page_id := f]> (page_table_ b1))) f
            = Ok p0) as Hp0' by exact Hp0.
    rewrite Hp0' in H. cbn [mbind outcome_bind] in H.
    unfold ReadPage in H. cbn iota beta in H.
    apply bind_ok in H as (b2 & Htp & H). injection H as <- <-.
    edestruct (install_resident_ok b1 f page_id) as (Hok' & _ & _);
      [exact Hok1 | exact Hrange | exact Hun | exact Hnf | | | | | | exact Htp |];
      [| reflexivity | reflexivity | reflexivity | reflexivity |]; [reflexivity|].
    done.
Qed.

Lemma UnpinPage_resident_ok b page_id is_dirty b' r :
  resident_ok b -> UnpinPage b page_id is_dirty = Ok (b', r) -> resident_ok b'.
Proof.
  intros Hok. unfold UnpinPage. case_decide as Hid; [by intros [= <- <-]|].
  destruct (page_table_ b !! page_id) as [f|]; [|by intros [= <- <-]].
  intros H. apply bind_ok in H as (p & Hp & H). simpl in H.
  pose proof (page_at_range _ _ _ Hp) as Hrange.
  assert (resident_ok (put_page b f (with_dirty p is_dirty))) as Hok1.
  { eapply (resident_ok_repage b _ f p (with_dirty p is_dirty)); try done.
    intros g Hg. by right. }
  destruct (decide (pin_count_ p > 0)) as [Hpin | Hpin]; [|by injection H as <- <-].
  assert (<[Z.to_nat f := with_pin_count (with_dirty p is_dirty) (pin_count_ p - 1)]>
            (<[Z.to_nat f := with_dirty p is_dirty]> (pages_ b))
          = <[Z.to_nat f := with_pin_count (with_dirty p is_dirty) (pin_count_ p - 1)]>
              (pages_ b)) as Hins by apply list_insert_insert_eq.
  destruct (decide (pin_count_ p - 1 = 0)) as [Hz | Hz].
  - apply bind_ok in H as (r1 & Hr1 & H). injection H as <- <-.
    eapply (resident_ok_repage b _ f p
              (with_pin_count (with_dirty p is_dirty) (pin_count_ p - 1))); try done.
    intros g Hg. right. simpl in Hg. unfold put_page in Hr1. simpl in Hr1.
    by rewrite (SetEvictable_tracked _ _ _ _ Hr1) in Hg.
  - injection H as <- <-.
    eapply (resident_ok_repage b _ f p
              (with_pin_count (with_dirty p is_dirty) (pin_count_ p - 1))); try done.
    intros g Hg. by right.
Qed.

Lemma FlushPage_resident_ok b page_id b' r :
  resident_ok b -> FlushPage b page_id = Ok (b', r) -> resident_ok b'.
Proof.
  intros Hok. unfold FlushPage. case_decide as Hid; [by intros [= <- <-]|].
  destruct (page_table_ b !! page_id) as [f|]; [|by intros [= <- <-]].
  intros H. apply bind_ok in H as (p & Hp & H). injection H as <- <-.
  eapply (resident_ok_repage b _ f p (with_dirty p false)); try done.
  intros g Hg. by right.
Qed.

Lemma flush_frame_resident_ok b i b' :
  resident_ok b -> flush_frame b i = Ok b' -> resident_ok b'.
Proof.
  intros Hok. unfold flush_frame. intros H. apply bind_ok in H as (p & Hp & H).
  destruct (is_dirty_ p && negb (page_id_ p =? INVALID_PAGE_ID));
    injection H as <-; [|done].
  eapply (resident_ok_repage b _ (Z.of_nat i) p (with_dirty p false)); try done.
  intros g Hg. by right.
Qed.

Lemma flush_frames_resident_ok frames :
  ∀ b b', resident_ok b -> flush_frames b frames = Ok b' -> resident_ok b'.
Proof.
  induction frames as [|i frames IH]; intros b b' Hok H.
  - by injection H as <-.
  - simpl in H. apply bind_ok in H as (b1 & H1 & H).
    eapply IH; [|exact H]. by eapply flush_frame_resident_ok.
Qed.

Lemma pool_reachable_resident_ok pool_size replacer_k b :
  pool_reachable pool_size replacer_k b -> resident_ok b.
Proof.
  induction 1 as [|b b' r _ IH H|b p b' r _ IH H|b p d b' r _ IH H
                  |b p b' r _ IH H|b b' _ IH H].
  - apply new_resident_ok.
  - by destruct (NewPage_spec _ _ _ IH H).
  - by eapply FetchPage_resident_ok.
  - by eapply UnpinPage_resident_ok.
  - by eapply FlushPage_resident_ok.
  - by eapply flush_frames_resident_ok.
Qed.

(** ** The replacer of a pool *)

Lemma SetEvictable_returns s f b :
  consistent s -> 0 <= replacer_size_ s <= INT_MAX -> 0 <= f <= replacer_size_ s ->
  ∃ s', SetEvictable s f b = Ok s'.
Proof.
  intros Hc HN Hf. unfold SetEvictable.
  pose proof (flags_len s Hc) as Hlen.
  rewrite to_int_small in * by (unfold INT_MAX in *; lia).
  rewrite decide_False by lia. simpl.
  case_decide; [by eexists|].
  destruct (vec_at_in_range (is_accessible_ s) f) as [old ->]; [lia|].
  cbn [mbind outcome_bind].
  assert (∃ flags, vec_set (is_accessible_ s) f b = Ok flags) as [flags Hset]
    by (rewrite vec_set_in_range by lia; eauto).
  destruct old, b; simpl; rewrite Hset; simpl; by eexists.
Qed.

(** The two replacer calls of a pin return for a frame of the pool that has
    been accessed fewer than [k] times. *)
Lemma touch_and_pin_returns ps k b f :
  0 <= ps <= INT_MAX -> k < 2 ^ 64 - 1 ->
  reachable ps k (replacer_ b) -> 0 <= f <= ps ->
  count_of (use_count_ (replacer_ b)) f < k ->
  ∃ b', touch_and_pin b f = Ok b'.
Proof.
  intros HN Hk Hr Hf Hcount. unfold touch_and_pin.
  destruct (ReplacerMore.RecordAccess_cases ps k _ f HN Hk Hr Hf Hcount)
    as (r1 & Hr1 & _).
  rewrite Hr1. cbn [mbind outcome_bind].
  assert (reachable ps k r1) as Hreach1
    by (apply (reach_access ps k _ f _ Hr); [lia | exact Hr1]).
  destruct (ReplacerMore.reachable_params _ _ _ Hreach1) as [HN1 _].
  destruct (SetEvictable_returns r1 f false) as [r2 Hr2].
  - by apply (ReplacerFacts.reachable_consistent ps k).
  - by rewrite HN1.
  - by rewrite HN1.
  - rewrite Hr2. simpl. by eexists.
Qed.

Lemma touch_and_pin_reachable ps k b f b' :
  reachable ps k (replacer_ b) -> 0 <= f -> touch_and_pin b f = Ok b' ->
  reachable ps k (replacer_ b').
Proof.
  intros Hr Hf. unfold touch_and_pin. intros H.
  apply bind_ok in H as (r1 & Hr1 & H). apply bind_ok in H as (r2 & Hr2 & H).
  injection H as <-. simpl.
  eapply reach_set; [|exact Hr2]. by apply (reach_access ps k _ f _ Hr).
Qed.

Lemma acquire_frame_reachable ps k b b1 got :
  reachable ps k (replacer_ b) -> acquire_frame b = Ok (b1, got) ->
  reachable ps k (replacer_ b1).
Proof.
  intros Hr. unfold acquire_frame.
  destruct (reverse (free_list_ b)) as [|f rest]; [|by intros [= <- <-]].
  intros H. apply bind_ok in H as ([r [found f]] & Hev & H).
  assert (reachable ps k r) as Hr' by (by eapply reach_evict).
  destruct found; simpl in H; [|by injection H as <- <-].
  apply bind_ok in H as (p & Hp & H). injection H as <- <-.
  by destruct (is_dirty_ p).
Qed.

(** In every state a pool reaches without [DeletePage], the replacer is in a
    state its own operations reach, and the frame array has [pool_size]
    frames. *)
Lemma pool_reachable_replacer ps k b :
  pool_reachable ps k b ->
  reachable ps k (replacer_ b) ∧ pool_size_ b = ps ∧
  length (pages_ b) = Z.to_nat ps.
Proof.
  intros Hpool. pose proof (pool_reachable_resident_ok _ _ _ Hpool) as Hres.
  revert Hres.
  induction Hpool as [|b b' r Hb IH H|b p b' r Hb IH H|b p d b' r Hb IH H
                      |b p b' r Hb IH H|b b' Hb IH H]; intros Hres'.
  - simpl. split; [constructor|]. split; [done|]. by rewrite length_replicate.
  - (* NewPage *)
    pose proof (pool_reachable_resident_ok _ _ _ Hb) as Hok.
    destruct (IH Hok) as (Hr & Hps & Hlen).
    unfold NewPage, AllocatePage in H.
    apply bind_ok in H as ([b1 got] & Hacq & H).
    assert (resident_ok (with_next_page_id b (to_int (next_page_id_ b + 1)))) as Hok0
      by (constructor; simpl; apply Hok).
    destruct (acquire_frame_spec _ _ _ Hok0 Hacq) as (_ & Hlen1 & _ & Hps1 & Hgot).
    pose proof (acquire_frame_reachable ps k
                  (with_next_page_id b (to_int (next_page_id_ b + 1))) _ _ Hr Hacq)
      as Hr1.
    simpl in Hlen1, Hps1.
    destruct got as [f|]; [|injection H as <- <-; split; [done|]; split; congruence].
    destruct (Hgot f eq_refl) as (Hrange & _).
    apply bind_ok in H as (p0 & Hp0 & H).
    apply bind_ok in H as (b2 & Htp & H). injection H as <- <-.
    destruct (touch_and_pin_spec _ _ _ Htp) as (Hp' & _ & _ & _ & _ & Hps2 & _).
    split; [|split].
    + refine (touch_and_pin_reachable ps k _ f _ _ _ Htp); [exact Hr1 | lia].
    + rewrite Hps2. simpl. congruence.
    + rewrite Hp'. simpl. rewrite length_insert. congruence.
  - (* FetchPage *)
    pose proof (pool_reachable_resident_ok _ _ _ Hb) as Hok.
    destruct (IH Hok) as (Hr & Hps & Hlen).
    unfold FetchPage in H.
    destruct (page_table_ b !! p) as [f|] eqn:Ht.
    + apply bind_ok in H as (pg & Hpg & H).
      apply bind_ok in H as (pins & Hpins & H).
      apply bind_ok in H as (b2 & Htp & H). injection H as <- <-.
      pose proof (page_at_range _ _ _ Hpg) as Hrange.
      destruct (touch_and_pin_spec _ _ _ Htp) as (Hp' & _ & _ & _ & _ & Hps2 & _).
      split; [|split].
      * refine (touch_and_pin_reachable ps k _ f _ _ _ Htp); [exact Hr | lia].
      * rewrite Hps2. done.
      * rewrite Hp'. simpl. by rewrite length_insert.
    + apply bind_ok in H as ([b1 got] & Hacq & H).
      destruct (acquire_frame_spec _ _ _ Hok Hacq) as (_ & Hlen1 & _ & Hps1 & Hgot).
      pose proof (acquire_frame_reachable ps k _ _ _ Hr Hacq) as Hr1.
      destruct got as [f|]; [|injection H as <- <-; split; [done|]; split; congruence].
      destruct (Hgot f eq_refl) as (Hrange & _).
      apply bind_ok in H as (p0 & Hp0 & H).
      unfold ReadPage in H. cbn iota beta in H.
      apply bind_ok in H as (b2 & Htp & H). injection H as <- <-.
      destruct (touch_and_pin_spec _ _ _ Htp) as (Hp' & _ & _ & _ & _ & Hps2 & _).
      split; [|split].
      * refine (touch_and_pin_reachable ps k _ f _ _ _ Htp); [exact Hr1 | lia].
      * rewrite Hps2. simpl. congruence.
      * rewrite Hp'. simpl. rewrite length_insert. congruence.
  - (* UnpinPage *)
    pose proof (pool_reachable_resident_ok _ _ _ Hb) as Hok.
    destruct (IH Hok) as (Hr & Hps & Hlen).
    unfold UnpinPage in H. case_decide as Hid; [by injection H as <- <-|].
    destruct (page_table_ b !! p) as [f|]; [|by injection H as <- <-].
    apply bind_ok in H as (pg & Hpg & H). simpl in H.
    destruct (decide (pin_count_ pg > 0)) as [Hpin | Hpin].
    2:{ injection H as <- <-. simpl. by rewrite length_insert. }
    destruct (decide (pin_count_ pg - 1 = 0)) as [Hz | Hz].
    + apply bind_ok in H as (r1 & Hr1 & H). injection H as <- <-. simpl.
      rewrite !length_insert. split; [|done]. by eapply reach_set.
    + injection H as <- <-. simpl. by rewrite !length_insert.
  - (* FlushPage *)
    pose proof (pool_reachable_resident_ok _ _ _ Hb) as Hok.
    destruct (IH Hok) as (Hr & Hps & Hlen).
    unfold FlushPage in H. case_decide as Hid; [by injection H as <- <-|].
    destruct (page_table_ b !! p) as [f|]; [|by injection H as <- <-].
    apply bind_ok in H as (pg & Hpg & H). injection H as <- <-. simpl.
    by rewrite length_insert.
  - (* FlushAllPages *)
    pose proof (pool_reachable_resident_ok _ _ _ Hb) as Hok.
    destruct (IH Hok) as (Hr & Hps & Hlen).
    destruct (FlushAllPages_returns b) as (b2 & Hb2 & Hrep & Hsz & Hl);
      [by rewrite Hps|].
    rewrite Hb2 in H. injection H as <-. rewrite Hrep, Hsz, Hl. done.
Qed.

(** The concrete pools are reachable. *)
Lemma pool_pinned_reachable : pool_reachable 1 2 Scenarios.pool_pinned.
Proof.
  eapply pool_NewPage; [apply pool_new|]. exact pool_pinned_reached.
Qed.

Lemma pool_unpinned_reachable : pool_reachable 1 2 Scenarios.pool_unpinned.
Proof.
  eapply (pool_UnpinPage 1 2 _ 0 false); [exact pool_pinned_reachable|].
  vm_compute. reflexivity.
Qed.




(** ** [NewPage] *)

(** X10. A successful [NewPage] in a state reached without [DeletePage]:
    the identifier returned is the value of the counter, which moves on by
    one, wrapping as a 32-bit integer; the page table maps the identifier to
    the frame returned, and that frame holds the page with zeroed bytes, pin
    count 1 and a clear dirty flag. *)
Theorem NewPage_success (pool_size replacer_k : Z) (b b' : BufferPoolManager)
    (page_id f : Z) :
  pool_reachable pool_size replacer_k b ->
  NewPage b = Ok (b', Some (page_id, f)) ->
  page_id = next_page_id_ b ∧ next_page_id_ b' = to_int (page_id + 1) ∧
  page_table_ b' !! page_id = Some f ∧
  ∃ readers writer,
    page_at b' f = Ok (mkPage zero_data page_id 1 false readers writer).
Proof.
  intros Hr H. pose proof (pool_reachable_resident_ok _ _ _ Hr) as Hok.
  destruct (NewPage_spec _ _ _ Hok H) as (_ & Hnext & -> & Htab & Hpage).
  done.
Qed.

Lemma NewPage_success_witness :
  ∃ b',
    NewPage Scenarios.pool_unpinned = Ok (b', Some (1, 0)) ∧
    (1 = next_page_id_ Scenarios.pool_unpinned ∧ next_page_id_ b' = to_int (1 + 1) ∧
     page_table_ b' !! 1 = Some 0 ∧
     ∃ readers writer,
       page_at b' 0 = Ok (mkPage zero_data 1 1 false readers writer)).
Proof.
  eexists. split; [vm_compute; reflexivity|].
  apply (NewPage_success 1 2 Scenarios.pool_unpinned).
  - exact pool_unpinned_reachable.
  - vm_compute. reflexivity.
Defined.

(** X11. A failing [NewPage] still consumes a page identifier: the counter
    moves on by one (wrapping as a 32-bit integer) although no page was
    created, the free list was empty, and the frame array, the page table
    and the disk are as before. *)
Theorem NewPage_failure_consumes_id (b b' : BufferPoolManager) :
  NewPage b = Ok (b', None) ->
  next_page_id_ b' = to_int (next_page_id_ b + 1) ∧ free_list_ b = [] ∧
  pages_ b' = pages_ b ∧ page_table_ b' = page_table_ b ∧
  disk_manager_ b' = disk_manager_ b.
Proof.
  unfold NewPage, AllocatePage. intros H.
  apply bind_ok in H as ([b1 got] & Hacq & H).
  destruct got as [f|].
  { apply bind_ok in H as (p & _ & H). apply bind_ok in H as (b2 & _ & H). done. }
  injection H as <-. unfold acquire_frame in Hacq. simpl in Hacq.
  destruct (reverse (free_list_ b)) eqn:Hrev; [|done].
  apply (f_equal reverse) in Hrev. rewrite reverse_involutive in Hrev.
  apply bind_ok in Hacq as ([r [found f]] & Hev & Hacq).
  destruct found; simpl in Hacq.
  { apply bind_ok in Hacq as (p & _ & Hacq). done. }
  by injection Hacq as <-.
Qed.

Lemma NewPage_failure_consumes_id_witness :
  ∃ b',
    NewPage Scenarios.pool_pinned = Ok (b', None) ∧
    (next_page_id_ b' = to_int (next_page_id_ Scenarios.pool_pinned + 1) ∧
     free_list_ Scenarios.pool_pinned = [] ∧
     pages_ b' = pages_ Scenarios.pool_pinned ∧
     page_table_ b' = page_table_ Scenarios.pool_pinned ∧
     disk_manager_ b' = disk_manager_ Scenarios.pool_pinned).
Proof.
  eexists. split; [vm_compute; reflexivity|].
  apply (NewPage_failure_consumes_id Scenarios.pool_pinned).
  vm_compute. reflexivity.
Defined.

(** ** [FetchPage] *)

(** What a [FetchPage] that returned after evicting a victim has done. *)
Lemma FetchPage_evicting_inv
    (b b' : BufferPoolManager) (page_id f : Z) (r : LRUKReplacer) (p : Page)
    (got : option Z) :
  page_table_ b !! page_id = None ->
  free_list_ b = [] ->
  Evict (replacer_ b) = Ok (r, (true, f)) ->
  page_at b f = Ok p ->
  FetchPage b page_id = Ok (b', got) ->
  got = Some f ∧
  calls (disk_manager_ b') =
    ReadPageCall page_id
    :: (if is_dirty_ p then [WritePageCall (page_id_ p) (data_ p)] else [])
    ++ calls (disk_manager_ b) ∧
  page_table_ b' = <[page_id := f]> (delete (page_id_ p) (page_table_ b)) ∧
  ∃ pg, page_at b' f = Ok pg ∧
        page_id_ pg = page_id ∧ pin_count_ pg = 1 ∧ is_dirty_ pg = false.
Proof.
  intros Ht Hfree Hev Hp H. unfold FetchPage in H. rewrite Ht in H.
  apply bind_ok in H as ([b1 got1] & Hacq & H).
  unfold acquire_frame in Hacq. rewrite Hfree in Hacq.
  change (reverse []) with (@nil Z) in Hacq. cbn iota in Hacq.
  rewrite Hev in Hacq. cbn [mbind outcome_bind negb] in Hacq.
  assert (page_at (with_replacer b r) f = Ok p) as Hp1 by exact Hp.
  rewrite Hp1 in Hacq. cbn [mbind outcome_bind] in Hacq.
  injection Hacq as <- <-.
  apply bind_ok in H as (q & Hq & H).
  unfold ReadPage in H. cbn beta iota zeta in H.
  apply bind_ok in H as (b2 & Htp & H). injection H as <- <-.
  destruct (touch_and_pin_spec _ _ _ Htp) as (Hp' & Ht' & _ & _ & Hd' & _).
  split; [done|]. rewrite Hd', Ht'.
  pose proof (page_at_range _ _ _ Hp) as Hrange.
  destruct (is_dirty_ p) eqn:Hd.
  - assert (q = with_dirty p false) as ->.
    { pose proof (page_at_put (with_disk (with_replacer b r)
                     (WritePage (disk_manager_ b) (page_id_ p) (data_ p)))
                     f p (with_dirty p false) Hp) as Hq'.
      change (page_at (put_page (with_disk (with_replacer b r)
                     (WritePage (disk_manager_ b) (page_id_ p) (data_ p)))
                     f (with_dirty p false)) f = Ok q) in Hq. congruence. }
    split; [done|]. split; [done|].
    eexists. split.
    + apply page_at_Ok. split; [lia|]. rewrite Hp'. simpl.
      apply list_lookup_insert_eq. rewrite length_insert. lia.
    + done.
  - assert (q = p) as ->.
    { change (page_at b f = Ok q) in Hq. congruence. }
    split; [done|]. split; [done|].
    eexists. split.
    + apply page_at_Ok. split; [lia|]. rewrite Hp'. simpl.
      apply list_lookup_insert_eq. lia.
    + done.
Qed.

(** The same call returns: the victim's frame has no recorded access left,
    so the two replacer calls of the pin go through. *)
Lemma FetchPage_evicting_returns
    (ps k : Z) (b : BufferPoolManager) (page_id f : Z) (r : LRUKReplacer) (p : Page) :
  0 <= ps <= INT_MAX -> 1 <= k < 2 ^ 64 - 1 ->
  pool_reachable ps k b ->
  page_table_ b !! page_id = None ->
  free_list_ b = [] ->
  Evict (replacer_ b) = Ok (r, (true, f)) ->
  page_at b f = Ok p ->
  ∃ b' got, FetchPage b page_id = Ok (b', got).
Proof.
  intros HN Hk Hpool Ht Hfree Hev Hp.
  destruct (pool_reachable_replacer _ _ _ Hpool) as (Hr & Hps & Hlen).
  pose proof (page_at_range _ _ _ Hp) as Hrange.
  assert (reachable ps k r) as Hr' by (by eapply reach_evict).
  assert (count_of (use_count_ r) f = 0) as Hzero.
  { destruct (ReplacerFacts.Evict_true_inv _ _ _ Hev) as (it & flags & hl & _ & _ & _ & ->).
    simpl. by rewrite ReplacerFacts.count_of_insert, decide_True. }
  assert (∀ bx, replacer_ bx = r -> ∃ b2, touch_and_pin bx f = Ok b2) as Hpin.
  { intros bx Hbx. apply (touch_and_pin_returns ps k); try rewrite Hbx; try done; lia. }
  unfold FetchPage, acquire_frame. rewrite Ht, Hfree.
  change (reverse []) with (@nil Z). cbn iota. rewrite Hev.
  cbn [mbind outcome_bind negb].
  assert (page_at (with_replacer b r) f = Ok p) as Hp1 by exact Hp.
  rewrite Hp1. cbn [mbind outcome_bind].
  destruct (is_dirty_ p).
  - match goal with
    | |- context [page_at ?bx f] =>
        assert (page_at bx f = Ok (with_dirty p false)) as Hq
          by (exact (page_at_put _ f p (with_dirty p false) Hp1))
    end.
    rewrite Hq. cbn [mbind outcome_bind]. unfold ReadPage. cbn beta iota zeta.
    match goal with
    | |- context [touch_and_pin ?bx f] =>
        destruct (Hpin bx eq_refl) as [b2 ->]
    end.
    simpl. by eexists _, _.
  - match goal with
    | |- context [page_at ?bx f] =>
        assert (page_at bx f = Ok p) as Hq by exact Hp
    end.
    rewrite Hq. cbn [mbind outcome_bind]. unfold ReadPage. cbn beta iota zeta.
    match goal with
    | |- context [touch_and_pin ?bx f] =>
        destruct (Hpin bx eq_refl) as [b2 ->]
    end.
    simpl. by eexists _, _.
Qed.

(** X12. [FetchPage] of a page that is not resident, in a state reached
    without [DeletePage], when the free list is empty and the replacer names
    a victim frame: the call returns the victim's frame; if the victim's page
    was dirty the disk manager receives a [WritePage] with that page's
    identifier and bytes before the [ReadPage] of the page fetched, and no
    write otherwise; the victim's page leaves the page table and the page
    fetched takes the frame with pin count 1 and a clear dirty flag. *)
Theorem FetchPage_writes_back_victim
    (ps k : Z) (b : BufferPoolManager) (page_id f : Z) (r : LRUKReplacer) (p : Page) :
  0 <= ps <= INT_MAX -> 1 <= k < 2 ^ 64 - 1 ->
  pool_reachable ps k b ->
  page_table_ b !! page_id = None ->
  free_list_ b = [] ->
  Evict (replacer_ b) = Ok (r, (true, f)) ->
  page_at b f = Ok p ->
  ∃ b',
    FetchPage b page_id = Ok (b', Some f) ∧
    calls (disk_manager_ b') =
      ReadPageCall page_id
      :: (if is_dirty_ p then [WritePageCall (page_id_ p) (data_ p)] else [])
      ++ calls (disk_manager_ b) ∧
    page_table_ b' = <[page_id := f]> (delete (page_id_ p) (page_table_ b)) ∧
    ∃ pg, page_at b' f = Ok pg ∧
          page_id_ pg = page_id ∧ pin_count_ pg = 1 ∧ is_dirty_ pg = false.
Proof.
  intros HN Hk Hpool Ht Hfree Hev Hp.
  destruct (FetchPage_evicting_returns ps k b page_id f r p) as (b' & got & H);
    try done.
  destruct (FetchPage_evicting_inv b b' page_id f r p got) as (-> & Hrest);
    try done.
  by exists b'.
Qed.

Lemma pool_dirty_unpinned_reachable :
  pool_reachable 1 2 Scenarios.pool_dirty_unpinned.
Proof.
  eapply (pool_UnpinPage 1 2 _ 0 true); [exact pool_pinned_reachable|].
  vm_compute. reflexivity.
Qed.

Lemma FetchPage_writes_back_victim_witness :
  ∃ r,
    Evict (replacer_ Scenarios.pool_dirty_unpinned) = Ok (r, (true, 0)) ∧
    ∃ b',
      FetchPage Scenarios.pool_dirty_unpinned 7 = Ok (b', Some 0) ∧
      calls (disk_manager_ b') =
        ReadPageCall 7
        :: (if is_dirty_ (mkPage zero_data 0 0 true 0 false)
            then [WritePageCall (page_id_ (mkPage zero_data 0 0 true 0 false))
                    (data_ (mkPage zero_data 0 0 true 0 false))]
            else [])
        ++ calls (disk_manager_ Scenarios.pool_dirty_unpinned) ∧
      page_table_ b' =
        <[7 := 0]> (delete (page_id_ (mkPage zero_data 0 0 true 0 false))
                      (page_table_ Scenarios.pool_dirty_unpinned)) ∧
      ∃ pg, page_at b' 0 = Ok pg ∧
            page_id_ pg = 7 ∧ pin_count_ pg = 1 ∧ is_dirty_ pg = false.
Proof.
  eexists. split; [vm_compute; reflexivity|].
  eapply (FetchPage_writes_back_victim 1 2 Scenarios.pool_dirty_unpinned 7 0).
  - unfold INT_MAX. lia.
  - lia.
  - exact pool_dirty_unpinned_reachable.
  - reflexivity.
  - reflexivity.
  - vm_compute. reflexivity.
  - reflexivity.
Defined.

Lemma FetchPage_none_inv_witness :
  page_table_ Scenarios.pool_pinned !! 5 = None ∧
  free_list_ Scenarios.pool_pinned = [] ∧
  ∃ r x, Evict (replacer_ Scenarios.pool_pinned) = Ok (r, (false, x)).
Proof.
  apply (FetchPage_none_inv Scenarios.pool_pinned 5 Scenarios.pool_pinned).
  vm_compute. reflexivity.
Defined.

(** ** A fetch and its unpin *)

Lemma SetEvictable_then s f b s1 b2 :
  SetEvictable s f b = Ok s1 -> ∃ s2, SetEvictable s1 f b2 = Ok s2.
Proof.
  intros H. pose proof (ReplacerMore.SetEvictable_params _ _ _ _ H) as [HN _].
  revert H. unfold SetEvictable. rewrite HN.
  case_decide as Hg; [done|]. simpl. rewrite !ReplacerFacts.count_of_touch.
  case_decide as Hz.
  - intros [= <-]. simpl.
    rewrite ReplacerFacts.count_of_touch, decide_True by done. eauto.
  - intros H. apply bind_ok in H as (old & Hold & H).
    apply bind_ok in H as (flags & Hflags & H). injection H as <-.
    assert (vec_set (is_accessible_ s) f b = Ok flags) as Hset
      by (by destruct old, b).
    pose proof (ReplacerMore.vec_at_set _ _ _ _ f Hset) as Hnow.
    rewrite decide_True in Hnow by done.
    assert (∃ flags2, vec_set flags f b2 = Ok flags2) as [flags2 Hset2].
    { destruct (ReplacerMore.vec_at_lookup _ _ _ Hnow) as [H0 Hl].
      unfold vec_set. rewrite decide_True, Hl by done. eauto. }
    destruct old, b; simpl in *;
      rewrite ?ReplacerFacts.count_of_touch, decide_False by done;
      rewrite Hnow; simpl; destruct b2; simpl; rewrite Hset2; simpl; eauto.
Qed.

(** X14. Pin discipline.  In a state reached without [DeletePage],
    [FetchPage] of a resident page whose frame has fewer than [k] recorded
    accesses and whose pin count is below [INT_MAX] returns its frame, with
    the pin count one higher and without disk traffic; the [UnpinPage] that
    follows succeeds and brings the pin count back, leaving the page table,
    the identifier and the bytes of the page as they were before the
    fetch. *)
Theorem fetch_then_unpin
    (ps k : Z) (b : BufferPoolManager) (page_id f : Z) (pg : Page)
    (is_dirty : bool) :
  0 <= ps <= INT_MAX -> k < 2 ^ 64 - 1 ->
  pool_reachable ps k b ->
  page_id ≠ INVALID_PAGE_ID ->
  page_table_ b !! page_id = Some f ->
  page_at b f = Ok pg ->
  0 <= pin_count_ pg < INT_MAX ->
  count_of (use_count_ (replacer_ b)) f < k ->
  ∃ b1,
    FetchPage b page_id = Ok (b1, Some f) ∧
    page_at b1 f = Ok (with_pin_count pg (pin_count_ pg + 1)) ∧
    disk_manager_ b1 = disk_manager_ b ∧
    ∃ b2 pg2,
      UnpinPage b1 page_id is_dirty = Ok (b2, true) ∧
      page_at b2 f = Ok pg2 ∧
      pin_count_ pg2 = pin_count_ pg ∧ page_id_ pg2 = page_id_ pg ∧
      data_ pg2 = data_ pg ∧
      page_table_ b2 = page_table_ b ∧ disk_manager_ b2 = disk_manager_ b.
Proof.
  intros HN Hk Hpool Hid Ht Hp Hpin Hcount.
  destruct (pool_reachable_replacer _ _ _ Hpool) as (Hr & Hps & Hlen).
  pose proof (page_at_range _ _ _ Hp) as Hrange.
  destruct (touch_and_pin_returns ps k
              (put_page b f (with_pin_count pg (pin_count_ pg + 1))) f)
    as [b1 Htp]; [done | done | exact Hr | lia | exact Hcount |].
  exists b1. unfold FetchPage. rewrite Ht, Hp.
  cbn [mbind outcome_bind]. unfold incr_int. rewrite decide_True by lia.
  cbn [mbind outcome_bind]. rewrite Htp. cbn [mbind outcome_bind].
  destruct (touch_and_pin_spec _ _ _ Htp) as (Hp' & Ht' & _ & _ & Hd' & _).
  assert (page_at b1 f = Ok (with_pin_count pg (pin_count_ pg + 1))) as Hp2.
  { apply page_at_Ok. split; [lia|]. rewrite Hp'. simpl.
    apply list_lookup_insert_eq. lia. }
  split; [done|]. split; [done|]. split; [done|].
  unfold UnpinPage. rewrite decide_False by done. rewrite Ht'. simpl page_table_.
  rewrite Ht, Hp2. cbn [mbind outcome_bind]. simpl pin_count_.
  rewrite decide_True by lia.
  replace (pin_count_ pg + 1 - 1) with (pin_count_ pg) by lia.
  assert (with_pin_count (with_dirty (with_pin_count pg (pin_count_ pg + 1)) is_dirty)
            (pin_count_ pg) = with_dirty pg is_dirty) as Hback by (by destruct pg).
  rewrite Hback.
  assert (∀ bx, page_at bx f = Ok (with_pin_count pg (pin_count_ pg + 1)) ->
                ∀ x y, page_at (put_page (put_page bx f x) f y) f = Ok y) as Hput2.
  { intros bx Hbx x y. eapply page_at_put. by eapply page_at_put. }
  unfold touch_and_pin in Htp.
  apply bind_ok in Htp as (r1 & Hr1 & Htp). apply bind_ok in Htp as (r2 & Hr2 & Htp).
  injection Htp as <-.
  destruct (SetEvictable_then _ _ _ _ true Hr2) as [r3 Hr3].
  case_decide as Hz.
  - simpl replacer_. rewrite Hr3. cbn [mbind outcome_bind].
    eexists _, _. split; [reflexivity|]. split; [apply (Hput2 _ Hp2)|].
    by destruct pg.
  - eexists _, _. split; [reflexivity|]. split; [apply (Hput2 _ Hp2)|].
    by destruct pg.
Qed.

Lemma fetch_then_unpin_witness :
  ∃ b1,
    FetchPage Scenarios.pool_unpinned 0 = Ok (b1, Some 0) ∧
    page_at b1 0 = Ok (with_pin_count (mkPage zero_data 0 0 false 0 false)
                         (pin_count_ (mkPage zero_data 0 0 false 0 false) + 1)) ∧
    disk_manager_ b1 = disk_manager_ Scenarios.pool_unpinned ∧
    ∃ b2 pg2,
      UnpinPage b1 0 true = Ok (b2, true) ∧
      page_at b2 0 = Ok pg2 ∧
      pin_count_ pg2 = pin_count_ (mkPage zero_data 0 0 false 0 false) ∧
      page_id_ pg2 = page_id_ (mkPage zero_data 0 0 false 0 false) ∧
      data_ pg2 = data_ (mkPage zero_data 0 0 false 0 false) ∧
      page_table_ b2 = page_table_ Scenarios.pool_unpinned ∧
      disk_manager_ b2 = disk_manager_ Scenarios.pool_unpinned.
Proof.
  apply (fetch_then_unpin 1 2 Scenarios.pool_unpinned 0 0).
  - unfold INT_MAX. lia.
  - lia.
  - exact pool_unpinned_reachable.
  - unfold INVALID_PAGE_ID. lia.
  - reflexivity.
  - reflexivity.
  - simpl. unfold INT_MAX. lia.
  - vm_compute. reflexivity.
Defined.

End BufferPoolMore.
